(** * OpenRouter API manager: key rotation, cooldowns, request degradation

    A shallow embedding of [src/services/openrouter_api_manager.py]
    (class [OpenRouterAPIManager]) and the properties of its scheduler.

    Modelling conventions.
    - The two dictionaries [key_usage_stats] and [key_cooldowns] are finite
      maps keyed by the credential string, exactly as in the source; two pool
      positions holding the same string therefore share one entry.
    - A [datetime] is an integer count of microseconds; [timedelta] values are
      written out in that unit.  Every call of [datetime.now()] is an input
      of the model: the reading is supplied by the caller of the embedded
      function, so no assumption is made on how the clock advances.
    - Python exceptions are values of [PyExn]; a method that may raise
      returns a [Res], and the state it leaves behind is returned next to it,
      because Python keeps the mutations made before the exception.
    - The transport ([client.chat.completions.create]) is an oracle.
    - A [float] is the rational it denotes, and an operation on floats is
      the exact operation followed by the rounding [round_float]. *)

From Stdlib Require Import ZArith QArith Qabs Qround Qpower Lqa.
From Stdlib Require Import Ascii String List Bool Lia.
From stdpp Require Import gmap strings list fin_maps.

Local Open Scope string_scope.
Local Open Scope Z_scope.

(** ** Time *)

Definition Time := Z.

Definition timedelta_seconds (s : Z) : Z := s * 1000000.
Definition timedelta_minutes (m : Z) : Z := timedelta_seconds (m * 60).

(** ** Exceptions *)

Inductive PyExn :=
| KeyError (key : string)
| IndexError
| ValueError (msg : string)
| ZeroDivisionError
| UnboundLocalError (name : string)
| TypeError (msg : string)
| TransportError (text : string).

Inductive Res (A : Type) :=
| Ok (a : A)
| Raise (e : PyExn).
Arguments Ok {A} a.
Arguments Raise {A} e.

Definition is_raise {A} (r : Res A) : bool :=
  match r with Ok _ => false | Raise _ => true end.

(** [str(error)]: the message of the exception.  For [KeyError] Python
    prints the [repr] of the key. *)
Definition str_exn (e : PyExn) : string :=
  match e with
  | KeyError k => "'" ++ k ++ "'"
  | IndexError => "list index out of range"
  | ValueError m => m
  | ZeroDivisionError => "integer modulo by zero"
  | UnboundLocalError n =>
      "cannot access local variable '" ++ n ++ "' where it is not associated with a value"
  | TypeError m => m
  | TransportError t => t
  end.

(** ** Strings: [str.lower] and the [in] operator *)

Definition lower_ascii (c : ascii) : ascii :=
  let n := nat_of_ascii c in
  if (Nat.leb 65 n && Nat.leb n 90)%bool then ascii_of_nat (n + 32) else c.

(** [s.lower()].  A string is its sequence of bytes; the letters A to Z are
    lowered and every other byte, those of non-ASCII characters included,
    is left as it is. *)
Fixpoint lower (s : string) : string :=
  match s with
  | EmptyString => EmptyString
  | String c s' => String (lower_ascii c) (lower s')
  end.

(** [needle in hay] for strings. *)
Fixpoint str_in (needle hay : string) : bool :=
  if String.prefix needle hay then true
  else match hay with
       | EmptyString => false
       | String _ hay' => str_in needle hay'
       end.

(** ** Manager state *)

(** One value of [key_usage_stats]. *)
Record KeyStats := mkStats {
  requests : Z;
  errors : Z;
  last_used : option Time;
  credits_exhausted : bool;
  rate_limited : bool
}.

(** The mutable attributes of [OpenRouterAPIManager]. *)
Record Manager := mkManager {
  api_keys : list string;
  current_key_index : nat;
  key_usage_stats : gmap string KeyStats;
  key_cooldowns : gmap string Time
}.

(** Attributes assigned once in [__init__] and never reassigned. *)
Definition max_retries : nat := 3.
Definition retry_delay : Z := 2.
Definition model_fallback_chain : list string :=
  [ "qwen/qwen-2.5-72b-instruct";
    "qwen/qwen-2.5-32b-instruct";
    "meta-llama/llama-3.1-8b-instruct:free";
    "mistralai/mixtral-8x7b-instruct" ].

Definition set_index (i : nat) (st : Manager) : Manager :=
  mkManager (api_keys st) i (key_usage_stats st) (key_cooldowns st).
Definition set_stats (m : gmap string KeyStats) (st : Manager) : Manager :=
  mkManager (api_keys st) (current_key_index st) m (key_cooldowns st).
Definition set_cooldowns (m : gmap string Time) (st : Manager) : Manager :=
  mkManager (api_keys st) (current_key_index st) (key_usage_stats st) m.

(** ** A state-and-exception monad for the methods *)

Definition M (A : Type) : Type := Manager -> Res A * Manager.

Definition ret {A} (a : A) : M A := fun st => (Ok a, st).
Definition raise {A} (e : PyExn) : M A := fun st => (Raise e, st).
Definition bind {A B} (c : M A) (k : A -> M B) : M B :=
  fun st => match c st with
            | (Ok a, st') => k a st'
            | (Raise e, st') => (Raise e, st')
            end.
Definition get : M Manager := fun st => (Ok st, st).
Definition modify (f : Manager -> Manager) : M unit := fun st => (Ok tt, f st).

Notation "'do' x <- c ; k" := (bind c (fun x => k))
  (at level 10, x name, c at level 100, k at level 200).
Notation "c ;; k" := (bind c (fun _ => k))
  (at level 100, k at level 200, right associativity).

(** [self.key_usage_stats[key]] *)
Definition stats_of (key : string) : M KeyStats :=
  fun st => match key_usage_stats st !! key with
            | Some s => (Ok s, st)
            | None => (Raise (KeyError key), st)
            end.

(** In-place update of the dictionary stored under [key]. *)
Definition update_stats (key : string) (f : KeyStats -> KeyStats) : M unit :=
  do s <- stats_of key;
  modify (fun st => set_stats (<[key := f s]> (key_usage_stats st)) st).

(** ** [_rotate_to_next_key] *)

Definition _rotate_to_next_key : M unit :=
  fun st => match length (api_keys st) with
            | O => (Raise ZeroDivisionError, st)
            | S _ => (Ok tt, set_index ((current_key_index st + 1) mod length (api_keys st))%nat st)
            end.

(** ** [_handle_api_error] *)

Inductive ErrorClass := InsufficientCredits | RateLimited | Other.

(** The [if]/[elif]/[else] chain over [error_str = str(error).lower()]. *)
Definition classify (error_str : string) : ErrorClass :=
  if (str_in "402" error_str || str_in "payment required" error_str
      || str_in "credit" error_str)%bool
  then InsufficientCredits
  else if (str_in "429" error_str || str_in "rate limit" error_str)%bool
  then RateLimited
  else Other.

Definition incr_errors (s : KeyStats) : KeyStats :=
  mkStats (requests s) (errors s + 1) (last_used s) (credits_exhausted s) (rate_limited s).
Definition mark_credits_exhausted (s : KeyStats) : KeyStats :=
  mkStats (requests s) (errors s) (last_used s) true (rate_limited s).
Definition mark_rate_limited (s : KeyStats) : KeyStats :=
  mkStats (requests s) (errors s) (last_used s) (credits_exhausted s) true.

Definition set_cooldown (key : string) (until : Time) : M unit :=
  modify (fun st => set_cooldowns (<[key := until]> (key_cooldowns st)) st).

(** [now] is the reading of [datetime.now()] in the branch taken (each
    branch reads the clock once). *)
Definition _handle_api_error (now : Time) (key : string) (error : PyExn) : M unit :=
  update_stats key incr_errors ;;
  let error_str := lower (str_exn error) in
  match classify error_str with
  | InsufficientCredits =>
      update_stats key mark_credits_exhausted ;;
      set_cooldown key (now + timedelta_minutes 30)
  | RateLimited =>
      update_stats key mark_rate_limited ;;
      set_cooldown key (now + timedelta_seconds 60)
  | Other =>
      set_cooldown key (now + timedelta_seconds 30)
  end.

(** ** [_get_next_available_key] *)

(** [self.api_keys[self.current_key_index]] *)
Definition key_at_index : M string :=
  fun st => match api_keys st !! current_key_index st with
            | Some k => (Ok k, st)
            | None => (Raise IndexError, st)
            end.

(** [self.key_cooldowns.get(key)] *)
Definition cooldown_get (key : string) : M (option Time) :=
  fun st => (Ok (key_cooldowns st !! key), st).

(** [del self.key_cooldowns[key]] (the key is known to be present). *)
Definition cooldown_del (key : string) : M unit :=
  modify (fun st => set_cooldowns (delete key (key_cooldowns st)) st).

(** The [while attempts < total] loop.  [fuel] is [total - attempts];
    [clock attempts] is the reading of [datetime.now()] taken in the
    iteration numbered [attempts] (read only when the key has a cooldown
    entry).  [None] means that the loop ran to its end. *)
Fixpoint scan (clock : nat -> Time) (fuel attempts : nat) : M (option string) :=
  match fuel with
  | O => ret None
  | S fuel' =>
      do key <- key_at_index;
      do stats <- stats_of key;
      do cooldown_until <- cooldown_get key;
      let next := (_rotate_to_next_key ;; scan clock fuel' (S attempts)) in
      let check_flags :=
        if (negb (credits_exhausted stats) && negb (rate_limited stats))%bool
        then ret (Some key) else next in
      match cooldown_until with
      | Some until =>
          if clock attempts <? until then next
          else (cooldown_del key ;; check_flags)
      | None => check_flags
      end
  end.

(** [min(l, key=lambda k: stats[k]['errors'])] with the running minimum
    [best]: Python keeps the first of several minimal elements. *)
Fixpoint min_errors_from (stats : gmap string KeyStats) (best : string) (best_errors : Z)
    (l : list string) : Res string :=
  match l with
  | [] => Ok best
  | k :: l' =>
      match stats !! k with
      | None => Raise (KeyError k)
      | Some s =>
          if errors s <? best_errors then min_errors_from stats k (errors s) l'
          else min_errors_from stats best best_errors l'
      end
  end.

Definition min_errors_key : M string :=
  fun st =>
    match api_keys st with
    | [] => (Raise (ValueError "min() arg is an empty sequence"), st)
    | k :: l =>
        match key_usage_stats st !! k with
        | None => (Raise (KeyError k), st)
        | Some s => (min_errors_from (key_usage_stats st) k (errors s) l, st)
        end
    end.

Definition _get_next_available_key (clock : nat -> Time) : M string :=
  do st <- get;
  do found <- scan clock (length (api_keys st)) 0;
  match found with
  | Some key => ret key
  | None => min_errors_key
  end.

(** ** [_maybe_adjust_request] *)

(** The keyword arguments of a request: the two entries the manager looks
    at ([None] when the entry is absent or holds [None]) and the others. *)
Record RequestSpec := mkRequest {
  model : option string;
  max_tokens : option Z;
  other_kwargs : list (string * string)
}.

(** [l.index(x)] when [x in l]. *)
Fixpoint index_of (x : string) (l : list string) : option nat :=
  match l with
  | [] => None
  | y :: l' => if String.eqb x y then Some O else option_map S (index_of x l')
  end.

Definition adjust_max_tokens (max_tokens : option Z) (attempt : Z) : option Z :=
  match max_tokens with
  | None => None
  | Some v =>
      if v =? 0 then Some v
      else if attempt =? 1 then Some (Z.min v 2048)
      else if attempt =? 2 then Some (Z.min v 1024)
      else if 3 <=? attempt then Some (Z.min v 512)
      else Some v
  end.

Definition adjust_model (chain : list string) (model : option string) (attempt : Z)
    : option string :=
  match match model with Some m => index_of m chain | None => None end with
  | Some idx =>
      if ((attempt <=? 2) && Nat.ltb (idx + 1) (length chain))%bool
      then chain !! (idx + 1)%nat
      else model
  | None =>
      if (1 <=? attempt) then
        match chain with
        | first :: _ => Some first
        | [] => model
        end
      else model
  end.

Definition _maybe_adjust_request (kwargs : RequestSpec) (attempt : Z) : RequestSpec :=
  mkRequest (adjust_model model_fallback_chain (model kwargs) attempt)
            (adjust_max_tokens (max_tokens kwargs) attempt)
            (other_kwargs kwargs).

(** ** [chat_completion] *)

Definition Response := string.

(** What the outside world supplies to one call of [chat_completion]:
    the clock readings and the behaviour of the transport, both indexed by
    the attempt number. *)
Record Env := mkEnv {
  select_clock : nat -> nat -> Time;   (* attempt, scan iteration *)
  usage_clock : nat -> Time;           (* [stats['last_used'] = datetime.now()] *)
  error_clock : nat -> Time;           (* the reading in [_handle_api_error] *)
  dispatch : nat -> string -> RequestSpec -> Res Response
}.

(** Externally visible actions of a call, oldest first. *)
Inductive Event :=
| Dispatch (attempt : nat) (key : string) (request : RequestSpec)
| Sleep (attempt : nat) (base_delay : Z).

Definition record_usage (now : Time) (s : KeyStats) : KeyStats :=
  mkStats (requests s + 1) (errors s) (Some now) (credits_exhausted s) (rate_limited s).

(** The body of the [try] block of attempt number [attempt].  [api_key] is
    the local variable of that name: it keeps the value of an earlier
    iteration when the selection itself raises. *)
Definition try_attempt (env : Env) (kwargs : RequestSpec) (attempt : nat)
    (api_key : option string) (st : Manager)
    : Res Response * option string * Manager * list Event :=
  match _get_next_available_key (select_clock env attempt) st with
  | (Raise e, st1) => (Raise e, api_key, st1, [])
  | (Ok key, st1) =>
      let adj_kwargs := _maybe_adjust_request kwargs (Z.of_nat attempt) in
      match update_stats key (record_usage (usage_clock env attempt)) st1 with
      | (Raise e, st2) => (Raise e, Some key, st2, [])
      | (Ok _, st2) =>
          let ev := [Dispatch attempt key adj_kwargs] in
          match dispatch env attempt key adj_kwargs with
          | Raise e => (Raise e, Some key, st2, ev)
          | Ok response =>
              match _rotate_to_next_key st2 with
              | (Raise e, st3) => (Raise e, Some key, st3, ev)
              | (Ok _, st3) => (Ok response, Some key, st3, ev)
              end
          end
      end
  end.

(** The result of [chat_completion]: what it returns or raises, the state
    it leaves, and what it did. *)
Record Outcome := mkOutcome {
  result : Res Response;
  final : Manager;
  events : list Event
}.

(** The [for attempt in range(self.max_retries)] loop over the remaining
    attempt numbers, followed by [raise last_error]. *)
Fixpoint attempts_loop (env : Env) (kwargs : RequestSpec) (todo : list nat)
    (last_error : option PyExn) (api_key : option string) (st : Manager)
    (log : list Event) : Outcome :=
  match todo with
  | [] =>
      match last_error with
      | Some e => mkOutcome (Raise e) st log
      | None => mkOutcome (Raise (TypeError "exceptions must derive from BaseException")) st log
      end
  | attempt :: todo' =>
      match try_attempt env kwargs attempt api_key st with
      | (Ok response, _, st', ev) => mkOutcome (Ok response) st' (log ++ ev)
      | (Raise e, api_key', st', ev) =>
          match api_key' with
          | None => mkOutcome (Raise (UnboundLocalError "api_key")) st' (log ++ ev)
          | Some key =>
              match _handle_api_error (error_clock env attempt) key e st' with
              | (Raise e', st'') => mkOutcome (Raise e') st'' (log ++ ev)
              | (Ok _, st'') =>
                  let slept :=
                    if Nat.ltb attempt (max_retries - 1)
                    then [Sleep attempt (retry_delay * 2 ^ Z.of_nat attempt)]
                    else [] in
                  attempts_loop env kwargs todo' (Some e) (Some key) st''
                                (log ++ ev ++ slept)
              end
          end
      end
  end.

Definition chat_completion (env : Env) (kwargs : RequestSpec) (st : Manager) : Outcome :=
  attempts_loop env kwargs (seq 0 max_retries) None None st [].

(** A dispatch attempt: its number, the credential and the request sent. *)
Definition Attempt : Type := nat * string * RequestSpec.

Definition as_attempt (e : Event) : option Attempt :=
  match e with
  | Dispatch n key request => Some (n, key, request)
  | Sleep _ _ => None
  end.

(** The dispatch attempts made during a call, oldest first. *)
Definition dispatches (log : list Event) : list Attempt := omap as_attempt log.

Definition dispatch_of (env : Env) (d : Attempt) : Res Response :=
  dispatch env d.1.1 d.1.2 d.2.

(** ** [get_api_status] *)

Record KeyStatus := mkKeyStatus {
  ks_index : nat;
  ks_key_preview : string;
  ks_requests : Z;
  ks_errors : Z;
  ks_last_used : option Time;
  ks_credits_exhausted : bool;
  ks_rate_limited : bool;
  ks_in_cooldown : bool;
  ks_available : bool;
  ks_cooldown_until : option Time
}.

Record Summary := mkSummary {
  total_requests : Z;
  total_errors : Z;
  error_rate : Q;
  available_keys : Z;
  health_status : string
}.

Record Status := mkStatus {
  total_keys : nat;
  status_current_key_index : nat;
  keys_status : list KeyStatus;
  summary : Summary
}.

(** [f"{key[:10]}...{key[-4:]}"] *)
Definition key_preview (key : string) : string :=
  String.substring 0 10 key ++ "..."
  ++ String.substring (String.length key - 4) 4 key.

Definition in_cooldown (st : Manager) (key : string) : bool :=
  bool_decide (is_Some (key_cooldowns st !! key)).

(** The entry built for pool position [i]. *)
Definition key_status (st : Manager) (i : nat) (key : string) : Res KeyStatus :=
  match key_usage_stats st !! key with
  | None => Raise (KeyError key)
  | Some stats =>
      Ok (mkKeyStatus i (key_preview key) (requests stats) (errors stats)
            (last_used stats) (credits_exhausted stats) (rate_limited stats)
            (in_cooldown st key)
            (negb (credits_exhausted stats) && negb (rate_limited stats)
             && negb (in_cooldown st key))
            (key_cooldowns st !! key))
  end.

(** [for i, key in enumerate(self.api_keys)] from position [i] on. *)
Fixpoint keys_status_from (st : Manager) (i : nat) (keys : list string)
    : Res (list KeyStatus) :=
  match keys with
  | [] => Ok []
  | key :: keys' =>
      match key_status st i key with
      | Raise e => Raise e
      | Ok ks =>
          match keys_status_from st (S i) keys' with
          | Raise e => Raise e
          | Ok l => Ok (ks :: l)
          end
      end
  end.

(** [sum(stats[field] for stats in self.key_usage_stats.values())] *)
Definition sum_values (field : KeyStats -> Z) (m : gmap string KeyStats) : Z :=
  map_fold (fun _ s acc => acc + field s) 0 m.

(** [sum(1 for k in keys_status if k['available'])] *)
Definition count_available (l : list KeyStatus) : Z :=
  Z.of_nat (length (List.filter ks_available l)).

(** *** Binary floating point

    A Python [float] is an IEEE 754 binary64 number; the model represents
    it by the rational it denotes.  [round_float] is the rounding that
    Python's arithmetic applies to an exact result: to the nearest number
    with 53 significant bits, ties going to the even significand, the
    exponent of the last bit never below [-1074] (gradual underflow).  The
    upper end of the range is not part of the model: Python raises
    [OverflowError] for a quotient of [2^1024] or more, which takes more than
    [10^308] errors per request. *)

(** [2^e] as a rational. *)
Definition pow2 (e : Z) : Q := Qpower 2 e.

(** [floor (log2 |x|)], for [x] other than 0. *)
Definition Qlog2 (x : Q) : Z :=
  let k := Z.log2 (Z.abs (Qnum x)) - Z.log2 (Zpos (Qden x)) in
  if Qle_bool (pow2 k) (Qabs x) then k else k - 1.

(** The nearest integer, ties going to the even one. *)
Definition round_half_even (t : Q) : Z :=
  let f := Qfloor t in
  match (t - inject_Z f ?= 1 # 2)%Q with
  | Lt => f
  | Gt => f + 1
  | Eq => if Z.even f then f else f + 1
  end.

(** The exponent of the last bit of the float nearest to [x]. *)
Definition float_exponent (x : Q) : Z := Z.max (Qlog2 x - 52) (-1074).

Definition round_float (x : Q) : Q :=
  if Qeq_bool x 0 then 0%Q
  else (inject_Z (round_half_even (x / pow2 (float_exponent x)))
        * pow2 (float_exponent x))%Q.

(** [(total_errors / total_requests * 100) if total_requests > 0 else 0].
    The operands of [/] are integers: Python returns the float nearest to
    their exact quotient.  The product with 100 is a float multiplication,
    rounded in turn. *)
Definition compute_error_rate (total_errors total_requests : Z) : Q :=
  if 0 <? total_requests
  then round_float
         (round_float (inject_Z total_errors / inject_Z total_requests) * 100)
  else 0%Q.

Definition get_api_status (st : Manager) : Res Status :=
  match keys_status_from st 0 (api_keys st) with
  | Raise e => Raise e
  | Ok ks =>
      let total_requests := sum_values requests (key_usage_stats st) in
      let total_errors := sum_values errors (key_usage_stats st) in
      let available_keys := count_available ks in
      Ok (mkStatus (length (api_keys st)) (current_key_index st) ks
            (mkSummary total_requests total_errors
               (compute_error_rate total_errors total_requests)
               available_keys
               (if 0 <? available_keys then "healthy" else "degraded")))
  end.

(** ** [reset_key_status] *)

Definition clear_flags (s : KeyStats) : KeyStats :=
  mkStats (requests s) (errors s) (last_used s) false false.

(** [for key in self.api_keys: self.key_usage_stats[key].update(...)] *)
Fixpoint clear_all_flags (keys : list string) : M unit :=
  match keys with
  | [] => ret tt
  | key :: keys' => update_stats key clear_flags ;; clear_all_flags keys'
  end.

Definition reset_key_status (key_index : option Z) : M unit :=
  match key_index with
  | Some i =>
      do st <- get;
      if ((0 <=? i) && (i <? Z.of_nat (length (api_keys st))))%bool then
        do key <- (fun st => match api_keys st !! Z.to_nat i with
                              | Some k => (Ok k, st)
                              | None => (Raise IndexError, st)
                              end);
        update_stats key clear_flags ;;
        cooldown_del key
      else ret tt
  | None =>
      do st <- get;
      clear_all_flags (api_keys st) ;;
      modify (set_cooldowns ∅)
  end.

(** ** [__init__] and [_load_api_keys] *)

(** [if key:] on the value of [os.getenv]. *)
Definition nonempty_env (getenv : string -> option string) (name : string) : list string :=
  match getenv name with
  | Some v => if String.eqb v "" then [] else [v]
  | None => []
  end.

Definition digit (i : nat) : string :=
  String (ascii_of_nat (48 + i)) EmptyString.

Definition _load_api_keys (getenv : string -> option string) : Res (list string) :=
  let keys :=
    (nonempty_env getenv "OPENROUTER_API_KEY"
     ++ flat_map (fun i => nonempty_env getenv ("OPENROUTER_API_KEY_" ++ digit i)%string)
                 (seq 1 9))%list in
  match keys with
  | [] => Raise (ValueError "Nenhuma chave OpenRouter encontrada nas variáveis de ambiente")
  | _ => Ok keys
  end.

Definition fresh_stats : KeyStats := mkStats 0 0 None false false.

Definition __init__ (getenv : string -> option string) : Res Manager :=
  match _load_api_keys getenv with
  | Raise e => Raise e
  | Ok keys =>
      Ok (mkManager keys 0
            (foldl (fun m key => <[key := fresh_stats]> m) ∅ keys) ∅)
  end.

(** * Specification vocabulary *)

(** ** States *)

(** What [__init__] establishes and every method keeps: the pool is not
    empty, the rotation pointer is inside it, and every pool key has a
    statistics entry. *)
Definition wf (st : Manager) : Prop :=
  (current_key_index st < length (api_keys st))%nat /\
  forall k, k ∈ api_keys st -> is_Some (key_usage_stats st !! k).

(** The states the manager can be in: the one built by [__init__], and
    any state reached from it by the methods of the class. *)
Inductive reachable : Manager -> Prop :=
| reach_init getenv st :
    __init__ getenv = Ok st -> reachable st
| reach_select clock st r st' :
    reachable st -> _get_next_available_key clock st = (r, st') -> reachable st'
| reach_rotate st r st' :
    reachable st -> _rotate_to_next_key st = (r, st') -> reachable st'
| reach_error now key error st r st' :
    reachable st -> _handle_api_error now key error st = (r, st') -> reachable st'
| reach_chat env kwargs st :
    reachable st -> reachable (final (chat_completion env kwargs st))
| reach_reset key_index st r st' :
    reachable st -> reset_key_status key_index st = (r, st') -> reachable st'.

(** ** Failure classes *)

(** Length of the cooldown written for each class of error. *)
Definition cooldown_for (c : ErrorClass) : Z :=
  match c with
  | InsufficientCredits => timedelta_minutes 30
  | RateLimited => timedelta_seconds 60
  | Other => timedelta_seconds 30
  end.

(** What recording an error of class [c] does to the statistics of the key. *)
Definition apply_class (c : ErrorClass) (s : KeyStats) : KeyStats :=
  match c with
  | InsufficientCredits => mark_credits_exhausted (incr_errors s)
  | RateLimited => mark_rate_limited (incr_errors s)
  | Other => incr_errors s
  end.

(** ** Usability of a credential *)

(** The test made inline by the selection loop: no cooldown entry that is
    still running at [now], and both flags clear. *)
Definition cooldown_live (now : Time) (st : Manager) (key : string) : bool :=
  match key_cooldowns st !! key with
  | Some until => now <? until
  | None => false
  end.

(** Neither [credits_exhausted] nor [rate_limited] is set. *)
Definition flags_clear (st : Manager) (key : string) : bool :=
  match key_usage_stats st !! key with
  | Some s => negb (credits_exhausted s) && negb (rate_limited s)
  | None => false
  end.

(** The credential qualifies for selection at [now]. *)
Definition is_usable (now : Time) (st : Manager) (key : string) : bool :=
  negb (cooldown_live now st key) && flags_clear st key.

(** What the snapshot calls available: both flags clear and no cooldown
    entry at all under the key. *)
Definition reported_available (st : Manager) (key : string) : bool :=
  flags_clear st key && negb (in_cooldown st key).

(** ** The rotation and the fallback *)

(** Pool position visited by scan iteration [j]. *)
Definition slot (st : Manager) (j : nat) : nat :=
  ((current_key_index st + j) mod length (api_keys st))%nat.

(** Whether the candidate of iteration [j] qualifies at time [now]. *)
Definition candidate_usable (now : Time) (st : Manager) (j : nat) : bool :=
  match api_keys st !! slot st j with
  | Some k => is_usable now st k
  | None => false
  end.

(** One more step of the rotation: how a state [st1] that the loop
    continues from relates to the state [st] of the iteration before. *)
Record continues (st st1 : Manager) : Prop := {
  cont_keys : api_keys st1 = api_keys st;
  cont_stats : key_usage_stats st1 = key_usage_stats st;
  cont_cooldowns : key_cooldowns st1 ⊆ key_cooldowns st;
  cont_usable : forall t k, is_usable t st1 k = is_usable t st k;
  cont_index : current_key_index st1 = slot st 1
}.

(** What a run of the loop guarantees, in terms of the state [st] it
    started from. *)
Definition scan_post (clock : nat -> Time) (fuel attempts : nat)
    (st : Manager) (found : option string) (st' : Manager) : Prop :=
  api_keys st' = api_keys st /\
  key_usage_stats st' = key_usage_stats st /\
  key_cooldowns st' ⊆ key_cooldowns st /\
  wf st' /\
  match found with
  | Some k =>
      exists j, (j < fuel)%nat /\
        api_keys st !! slot st j = Some k /\
        is_usable (clock (attempts + j)%nat) st k = true /\
        (forall j', (j' < j)%nat ->
                    candidate_usable (clock (attempts + j')%nat) st j' = false) /\
        current_key_index st' = slot st j /\
        key_cooldowns st' !! k = None
  | None =>
      (forall j, (j < fuel)%nat ->
                 candidate_usable (clock (attempts + j)%nat) st j = false) /\
      current_key_index st' = slot st fuel
  end.

(** [stats[key]['errors']], read in a given dictionary. *)
Definition errs (stats : gmap string KeyStats) (key : string) : Z :=
  match stats !! key with
  | Some s => errors s
  | None => 0
  end.

(** The error count the fallback compares. *)
Definition errors_of (st : Manager) (key : string) : Z :=
  errs (key_usage_stats st) key.

(** [best], found at position [ib] of the keys [pre] already compared, is
    the first of them with the least error count. *)
Definition first_least (stats : gmap string KeyStats) (pre : list string)
    (ib : nat) (best : string) : Prop :=
  pre !! ib = Some best /\
  (forall i' k', pre !! i' = Some k' -> errs stats best <= errs stats k') /\
  (forall i' k', (i' < ib)%nat -> pre !! i' = Some k' -> errs stats best < errs stats k').

(** [key] is at the first pool position whose error count is minimal. *)
Definition least_errors_first (st : Manager) (key : string) : Prop :=
  exists i,
    api_keys st !! i = Some key /\
    (forall i' k', api_keys st !! i' = Some k' -> errors_of st key <= errors_of st k') /\
    (forall i' k', (i' < i)%nat -> api_keys st !! i' = Some k' ->
                   errors_of st key < errors_of st k').

(** Either the first candidate in rotation order that qualifies, with the
    pointer left on it and its expired cooldown entry removed, or, when no
    candidate qualifies, the first key with the least error count. *)
Definition select_post (clock : nat -> Time) (st : Manager) (key : string)
    (st' : Manager) : Prop :=
  api_keys st' = api_keys st /\
  key_usage_stats st' = key_usage_stats st /\
  key_cooldowns st' ⊆ key_cooldowns st /\
  wf st' /\
  key ∈ api_keys st /\
  ((exists j, (j < length (api_keys st))%nat /\
      api_keys st !! slot st j = Some key /\
      is_usable (clock j) st key = true /\
      (forall j', (j' < j)%nat -> candidate_usable (clock j') st j' = false) /\
      current_key_index st' = slot st j /\
      key_cooldowns st' !! key = None)
   \/
   ((forall j, (j < length (api_keys st))%nat -> candidate_usable (clock j) st j = false) /\
    least_errors_first st key /\
    current_key_index st' = current_key_index st)).

(** ** Attempts of a call *)

(** The state after the usage of [key] has been recorded. *)
Definition used_state (now : Time) (key : string) (s : KeyStats) (st1 : Manager) : Manager :=
  set_stats (<[key := record_usage now s]> (key_usage_stats st1)) st1.

(** The state after the failure handler has run on top of that. *)
Definition failed_state (env : Env) (attempt : nat) (key : string) (s : KeyStats)
    (e : PyExn) (st1 : Manager) : Manager :=
  let c := classify (lower (str_exn e)) in
  mkManager (api_keys st1) (current_key_index st1)
    (<[key := apply_class c (record_usage (usage_clock env attempt) s)]> (key_usage_stats st1))
    (<[key := error_clock env attempt + cooldown_for c]> (key_cooldowns st1)).

(** [run env todo last ds res]: with the attempt numbers [todo] still to
    try and [last] the error seen last, the loop makes the dispatch attempts
    [ds] and ends with [res].  An attempt that succeeds ends the run with
    its response; one that fails makes its error the last one and moves to
    the next number; with no number left the last error is raised. *)
Inductive run (env : Env) : list nat -> option PyExn -> list Attempt -> Res Response -> Prop :=
| run_exhausted e :
    run env [] (Some e) [] (Raise e)
| run_never_tried :
    run env [] None [] (Raise (TypeError "exceptions must derive from BaseException"))
| run_succeeded n todo last key request response :
    dispatch env n key request = Ok response ->
    run env (n :: todo) last [(n, key, request)] (Ok response)
| run_failed n todo last key request e ds res :
    dispatch env n key request = Raise e ->
    run env todo (Some e) ds res ->
    run env (n :: todo) last ((n, key, request) :: ds) res.

(** The dispatch of attempt [d] raised. *)
Definition failed (env : Env) (d : Attempt) : Prop :=
  is_raise (dispatch_of env d) = true.

(** ** The fallback chain *)

(** Position of a model in the fallback chain. *)
Definition chain_index (model : option string) : option nat :=
  match model with
  | Some m => index_of m model_fallback_chain
  | None => None
  end.

(** ** Statements of the specification that the code does not satisfy *)

(** The claim as the specification words it: the chain index of the
    degraded model never decreases from an attempt to a later one. *)
Definition model_index_monotone_in_attempt : Prop :=
  forall kwargs i n m jn jm,
    chain_index (model kwargs) = Some i ->
    n < m ->
    chain_index (model (_maybe_adjust_request kwargs n)) = Some jn ->
    chain_index (model (_maybe_adjust_request kwargs m)) = Some jm ->
    (jn <= jm)%nat.

(** The first half of the claim as the specification words it: a key
    whose cooldown entry is still running is not returned. *)
Definition cooldown_excludes_key : Prop :=
  forall st key until t key' st',
    reachable st ->
    key_cooldowns st !! key = Some until ->
    t < until ->
    _get_next_available_key (fun _ => t) st = (Ok key', st') ->
    key' <> key.

(** The claim as the specification words it: an attempt whose dispatch
    fails leaves [requests] and [last_used] of the selected key as they
    were.  One attempt is the retry loop run on a single attempt number. *)
Definition usage_recorded_only_on_success : Prop :=
  forall env kwargs attempt st key request e s s',
    reachable st ->
    let out := attempts_loop env kwargs [attempt] None None st [] in
    dispatches (events out) = [(attempt, key, request)] ->
    dispatch env attempt key request = Raise e ->
    key_usage_stats st !! key = Some s ->
    key_usage_stats (final out) !! key = Some s' ->
    requests s' = requests s /\ last_used s' = last_used s.

(** The claim as the specification words it: the rate is the ratio of the
    two totals. *)
Definition error_rate_is_ratio : Prop :=
  forall st status,
    reachable st ->
    get_api_status st = Ok status ->
    0 < total_requests (summary status) ->
    (error_rate (summary status)
     == inject_Z (total_errors (summary status))
        / inject_Z (total_requests (summary status)))%Q.

(** ** Sample pools and transports *)

(** A pool of one credential, as [__init__] builds it. *)
Definition demo_key : string := "sk-or-v1-0123456789abcdef".

Definition demo_pool : Manager :=
  mkManager [demo_key] 0 {[ demo_key := fresh_stats ]} ∅.

(** An environment that defines [OPENROUTER_API_KEY] only. *)
Definition demo_getenv (name : string) : option string :=
  if String.eqb name "OPENROUTER_API_KEY" then Some demo_key else None.

(** The pool after one failure of the other kind recorded at time 0: the
    key has a cooldown entry that runs for 30 seconds and no flag. *)
Definition cooled_pool : Manager :=
  mkManager [demo_key] 0
    {[ demo_key := mkStats 0 1 None false false ]}
    {[ demo_key := timedelta_seconds 30 ]}.

(** A transport that answers every dispatch with a rate-limit error. *)
Definition failing_env : Env :=
  mkEnv (fun _ _ => timedelta_seconds 1) (fun _ => timedelta_seconds 1)
        (fun _ => timedelta_seconds 2)
        (fun _ _ _ => Raise (TransportError "Error code: 429 - rate limit exceeded")).

(** A request for the first model of the chain. *)
Definition plain_request : RequestSpec :=
  mkRequest (Some "qwen/qwen-2.5-72b-instruct") (Some 4000) [].

(** A transport whose first dispatch fails and whose later ones succeed. *)
Definition flaky_env : Env :=
  mkEnv (fun _ _ => timedelta_seconds 1) (fun _ => timedelta_seconds 1)
        (fun _ => timedelta_seconds 2)
        (fun attempt _ _ =>
           match attempt with
           | O => Raise (TransportError "connection reset")
           | _ => Ok "response"
           end).

(** A pool of two credentials and a transport on which the first has no
    credits left while the second answers. *)
Definition other_key : string := "sk-or-v1-fedcba9876543210".

Definition two_key_pool : Manager :=
  mkManager [demo_key; other_key] 0
    {[ demo_key := fresh_stats; other_key := fresh_stats ]} ∅.

Definition credit_env : Env :=
  mkEnv (fun _ _ => timedelta_seconds 1) (fun _ => timedelta_seconds 1)
        (fun _ => timedelta_seconds 2)
        (fun _ key _ =>
           if String.eqb key demo_key
           then Raise (TransportError "Error code: 402 - Payment Required")
           else Ok "response").

(** The pool after a call whose first dispatch failed and whose second
    one succeeded: two requests, one error. *)
Definition flaky_pool : Manager := final (chat_completion flaky_env plain_request demo_pool).

(** * Further vocabulary *)

(** ** Startup *)

(** The environment variables [_load_api_keys] reads, in the order it
    reads them. *)
Definition env_names : list string :=
  "OPENROUTER_API_KEY"
  :: map (fun i => ("OPENROUTER_API_KEY_" ++ digit i)%string) (seq 1 9).

(** The variable [name] is unset or holds the empty string. *)
Definition unset_or_empty (getenv : string -> option string) (name : string) : Prop :=
  getenv name = None \/ getenv name = Some "".

(** ** How the methods move the state *)

(** What the selection of an attempt leaves: a state [st1] with the pool
    and the statistics of [st] and no cooldown entry that [st] had not, and
    a pool member [key] whose statistics in [st] are [s]. *)
Definition select_granted (st st1 : Manager) (key : string) (s : KeyStats) : Prop :=
  api_keys st1 = api_keys st /\
  key_usage_stats st1 = key_usage_stats st /\
  key_cooldowns st1 ⊆ key_cooldowns st /\
  wf st1 /\
  key ∈ api_keys st /\
  key_usage_stats st !! key = Some s.

(** The state after one attempt of [chat_completion] started in [st]:
    either the usage is recorded and the pointer advanced (the dispatch
    succeeded), or the usage and then the failure are recorded. *)
Inductive attempt_trans (st : Manager) : Manager -> Prop :=
| after_success st1 key s now :
    select_granted st st1 key s ->
    attempt_trans st
      (set_index (slot (used_state now key s st1) 1) (used_state now key s st1))
| after_failure st1 key s env attempt e :
    select_granted st st1 key s ->
    attempt_trans st (failed_state env attempt key s e st1).

(** One call of a method of the class. *)
Inductive method_step : Manager -> Manager -> Prop :=
| step_select clock st r st' :
    _get_next_available_key clock st = (r, st') -> method_step st st'
| step_rotate st r st' :
    _rotate_to_next_key st = (r, st') -> method_step st st'
| step_error now key error st r st' :
    _handle_api_error now key error st = (r, st') -> method_step st st'
| step_chat env kwargs st :
    method_step st (final (chat_completion env kwargs st))
| step_reset key_index st r st' :
    reset_key_status key_index st = (r, st') -> method_step st st'.

(** What no method changes: the pool stays the same, no key gains or
    loses a statistics entry, no counter decreases, and a cooldown entry
    appears only under a key that has statistics. *)
Definition frame (st st' : Manager) : Prop :=
  api_keys st' = api_keys st /\
  (forall k s, key_usage_stats st !! k = Some s ->
     exists s', key_usage_stats st' !! k = Some s' /\
                requests s <= requests s' /\ errors s <= errors s') /\
  (forall k, key_usage_stats st !! k = None -> key_usage_stats st' !! k = None) /\
  (forall k, is_Some (key_cooldowns st' !! k) ->
     is_Some (key_cooldowns st !! k) \/ is_Some (key_usage_stats st !! k)).

(** The two dictionaries are indexed by the pool: statistics exactly for
    the pool keys, cooldown entries only for pool keys. *)
Definition tables_match (st : Manager) : Prop :=
  (forall k, is_Some (key_usage_stats st !! k) <-> k ∈ api_keys st) /\
  (forall k, is_Some (key_cooldowns st !! k) -> k ∈ api_keys st).

(** The states reached through the public methods only: construction,
    [chat_completion] and [reset_key_status] ([get_api_status] changes
    nothing). *)
Inductive public_reachable : Manager -> Prop :=
| public_init getenv st :
    __init__ getenv = Ok st -> public_reachable st
| public_chat env kwargs st :
    public_reachable st -> public_reachable (final (chat_completion env kwargs st))
| public_reset key_index st r st' :
    public_reachable st -> reset_key_status key_index st = (r, st') ->
    public_reachable st'.

(** Every key has made at least as many requests as it has had errors. *)
Definition counters_sane (st : Manager) : Prop :=
  forall k s, key_usage_stats st !! k = Some s -> 0 <= errors s <= requests s.

(** ** Load spreading *)

(** No cooldown entry at all and no flag on any pool key: the state after
    construction or after a reset of every key. *)
Definition healthy (st : Manager) : Prop :=
  key_cooldowns st = ∅ /\
  forall k, k ∈ api_keys st -> flags_clear st k = true.

(** [n] calls of [chat_completion] one after the other, each starting in
    the state the one before left. *)
Fixpoint successive_calls (env : Env) (kwargs : RequestSpec) (n : nat) (st : Manager)
    : list Outcome :=
  match n with
  | O => []
  | S n' =>
      let out := chat_completion env kwargs st in
      out :: successive_calls env kwargs n' (final out)
  end.

(** ** The log of a call *)

(** What one dispatch attempt contributes to the log: the dispatch, and
    the backoff sleep when it failed and another attempt remains. *)
Definition event_block (env : Env) (d : Attempt) : list Event :=
  Dispatch d.1.1 d.1.2 d.2
  :: (if (is_raise (dispatch_of env d) && Nat.ltb d.1.1 (max_retries - 1))%bool
      then [Sleep d.1.1 (retry_delay * 2 ^ Z.of_nat d.1.1)]
      else []).

(** An environment defining the main key and one more, and a transport
    that always answers. *)
Definition two_key_getenv (name : string) : option string :=
  if String.eqb name "OPENROUTER_API_KEY" then Some demo_key
  else if String.eqb name "OPENROUTER_API_KEY_1" then Some other_key
  else None.

Definition answering_env : Env :=
  mkEnv (fun _ _ => timedelta_seconds 1) (fun _ => timedelta_seconds 1)
        (fun _ => timedelta_seconds 2)
        (fun _ _ _ => Ok "response").

(** ** How the analyzer reads a failed call ([document_ai_analyzer.py]) *)

(** The test of the [except] branches of [_synthesize_and_correlate] and
    [_generate_insights]:
    ["402" in str(e) or "credit" in str(e).lower()
     or "payment required" in str(e).lower()]. *)
Definition is_credit_error (e : PyExn) : bool :=
  (str_in "402" (str_exn e)
   || str_in "credit" (lower (str_exn e))
   || str_in "payment required" (lower (str_exn e)))%bool.

(** The value stored under ['error'] by the [except] branch of
    [_synthesize_and_correlate]. *)
Definition synthesis_error_reply (e : PyExn) : string :=
  if is_credit_error e
  then "Erro 402: Créditos insuficientes na API do OpenRouter para síntese. Por favor, recarregue seus créditos ou reduza o tamanho da requisição."
  else str_exn e.

(** The value stored under ['error'] by the [except] branch of
    [_generate_insights]. *)
Definition insights_error_reply (e : PyExn) : string :=
  if is_credit_error e
  then "Erro 402: Créditos insuficientes na API do OpenRouter para geração de insights. Por favor, recarregue seus créditos ou reduza o tamanho da requisição."
  else str_exn e.

(** A character that [lower] neither changes nor produces from another. *)
Definition lower_fixed (d : ascii) : Prop :=
  forall c, lower_ascii c = d <-> c = d.

(** A transport that answers every dispatch with a credit error. *)
Definition broke_env : Env :=
  mkEnv (fun _ _ => timedelta_seconds 1) (fun _ => timedelta_seconds 1)
        (fun _ => timedelta_seconds 2)
        (fun _ _ _ => Raise (TransportError "Error code: 402 - Insufficient Credits")).


(** * The Exa search client ([exa_client.py]) *)

(** A JSON document as Python holds it after [response.json()]; an
    object lists its fields in order, each key once.  Python's [None] is
    [JNull]. *)
Unset Elimination Schemes.
Inductive Json :=
| JNull
| JBool (b : bool)
| JInt (z : Z)
| JFloat (q : Q)
| JStr (s : string)
| JList (items : list Json)
| JObj (fields : list (string * Json)).
Set Elimination Schemes.

(** Truth value of a Python object in an [if]. *)
Definition truthy (v : Json) : bool :=
  match v with
  | JNull => false
  | JBool b => b
  | JInt z => negb (z =? 0)
  | JFloat q => negb (Qeq_bool q 0)
  | JStr s => negb (String.eqb s "")
  | JList items => match items with [] => false | _ => true end
  | JObj fields => match fields with [] => false | _ => true end
  end.

(** [d.get(key)] on the fields of a dictionary. *)
Fixpoint fields_get (key : string) (fields : list (string * Json)) : option Json :=
  match fields with
  | [] => None
  | (k, v) :: fields' => if String.eqb k key then Some v else fields_get key fields'
  end.

(** [len(v)]: [None] where Python raises [TypeError]. *)
Definition py_len (v : Json) : option nat :=
  match v with
  | JStr s => Some (String.length s)
  | JList items => Some (length items)
  | JObj fields => Some (length fields)
  | _ => None
  end.

Module ExaClient.

(** The attributes of the client. *)
Record t := mk {
  api_key : option string;
  base_url : string;
  headers : list (string * string);
  available : bool
}.

(** [f"Bearer {self.api_key}"] *)
Definition bearer (key : option string) : string :=
  ("Bearer " ++ match key with Some k => k | None => "None" end)%string.

Definition __init__ (getenv : string -> option string) : t :=
  let key := getenv "EXA_API_KEY" in
  mk key "https://api.exa.ai"
     [ ("accept", "application/json");
       ("content-type", "application/json");
       ("Authorization", bearer key) ]
     (match key with
      | Some k => negb (String.eqb k "") && negb (String.eqb k "sua-chave-aqui")
      | None => false
      end).

Definition is_available (self : t) : bool := available self.

(** One call of [requests.post]. *)
Record Post := mkPost {
  url : string;
  sent_headers : list (string * string);
  json : list (string * Json);
  timeout : Z
}.

(** What [requests.post], [raise_for_status] and [response.json] give
    together: the parsed document, or an exception, of which only its
    being an instance of [requests.exceptions.RequestException] matters
    to the handlers. *)
Inductive Http :=
| Parsed (data : Json)
| Raised (is_request_exception : bool).

(** What a method of the client does: it returns a document or [None],
    or lets an exception out.  The module never imports [json], so a
    handler chain that reaches [except json.JSONDecodeError] raises
    [NameError] while evaluating that clause. *)
Inductive Reply :=
| Returned (value : option Json)
| NameError.

(** The part common to the three methods, from [requests.post] to the
    [return]: the log line reads [len(data.get('results', []))]. *)
Definition request (self : t) (http : Post -> Http) (endpoint : string)
    (payload : list (string * Json)) (seconds : Z) : Reply * list Post :=
  let post := mkPost (base_url self ++ endpoint)%string (headers self) payload seconds in
  match http post with
  | Raised true => (Returned None, [post])
  | Raised false => (NameError, [post])
  | Parsed data =>
      match data with
      | JObj fields =>
          match py_len (default (JList []) (fields_get "results" fields)) with
          | Some _ => (Returned (Some data), [post])
          | None => (NameError, [post])
          end
      | _ => (NameError, [post])
      end
  end.

(** The arguments of [search]. *)
Record SearchArgs := mkSearchArgs {
  query : string;
  num_results : Z;
  include_domains : option (list string);
  exclude_domains : option (list string);
  start_crawl_date : option string;
  end_crawl_date : option string;
  start_published_date : option string;
  end_published_date : option string;
  use_autoprompt : bool;
  type : string
}.

(** [search(query, num_results=n)] with the defaults of the others. *)
Definition default_args (query : string) (n : Z) : SearchArgs :=
  mkSearchArgs query n None None None None None None true "neural".

Definition strings (l : list string) : Json := JList (map JStr l).

(** [if domains: payload[name] = domains] *)
Definition optional_list (name : string) (v : option (list string))
    : list (string * Json) :=
  match v with
  | Some (x :: l) => [(name, strings (x :: l))]
  | _ => []
  end.

(** [if date: payload[name] = date] *)
Definition optional_str (name : string) (v : option string) : list (string * Json) :=
  match v with
  | Some s => if String.eqb s "" then [] else [(name, JStr s)]
  | None => []
  end.

Definition search_payload (a : SearchArgs) : list (string * Json) :=
  [ ("query", JStr (query a));
    ("numResults", JInt (Z.min (num_results a) 100));
    ("useAutoprompt", JBool (use_autoprompt a));
    ("type", JStr (type a)) ]
  ++ optional_list "includeDomains" (include_domains a)
  ++ optional_list "excludeDomains" (exclude_domains a)
  ++ optional_str "startCrawlDate" (start_crawl_date a)
  ++ optional_str "endCrawlDate" (end_crawl_date a)
  ++ optional_str "startPublishedDate" (start_published_date a)
  ++ optional_str "endPublishedDate" (end_published_date a).

Definition search (self : t) (http : Post -> Http) (a : SearchArgs)
    : Reply * list Post :=
  if negb (available self) then (Returned None, [])
  else request self http "/search" (search_payload a) 30.

Definition get_contents (self : t) (http : Post -> Http) (ids : list Json)
    (text highlights summary : bool) : Reply * list Post :=
  if negb (available self) then (Returned None, [])
  else match ids with
       | [] => (Returned None, [])
       | _ =>
           request self http "/contents"
             [ ("ids", JList ids); ("text", JBool text);
               ("highlights", JBool highlights); ("summary", JBool summary) ] 60
       end.

Definition find_similar (self : t) (http : Post -> Http) (url : string)
    (num_results : Z) (exclude_source_domain : bool) : Reply * list Post :=
  if negb (available self) then (Returned None, [])
  else if String.eqb url "" then (Returned None, [])
  else request self http "/findSimilar"
         [ ("url", JStr url); ("numResults", JInt (Z.min num_results 100));
           ("excludeSourceDomain", JBool exclude_source_domain) ] 30.

(** [v['results'][0]] when [v.get('results')] is true; [None] where
    Python raises ([KeyError] on an object, whose keys are strings). *)
Definition first_result (fields : list (string * Json)) : option Json :=
  match fields_get "results" fields with
  | Some (JList (x :: _)) => Some x
  | Some (JStr (String c _)) => Some (JStr (String c EmptyString))
  | _ => None
  end.

(** [x.get(key, default)]; [None] where Python raises [AttributeError]. *)
Definition item_get (x : Json) (key : string) (default : Json) : option Json :=
  match x with
  | JObj fields => Some (match fields_get key fields with Some v => v | None => default end)
  | _ => None
  end.

(** [extract_content_with_exa]: the result ([JNull] for [None]) and the
    requests made.  Every exception raised inside its [try] is caught. *)
Definition extract_content_with_exa (self : t) (http : Post -> Http) (page : string)
    : Json * list Post :=
  if negb (is_available self) then (JNull, [])
  else
    match search self http (default_args ("url:" ++ page)%string 1) with
    | (Returned (Some (JObj fields1)), posts1) =>
        if truthy (JObj fields1) && truthy (default JNull (fields_get "results" fields1))
        then
          match first_result fields1 with
          | None => (JNull, posts1)
          | Some item =>
              match item_get item "id" JNull with
              | None => (JNull, posts1)
              | Some result_id =>
                  if truthy result_id then
                    match get_contents self http [result_id] true false false with
                    | (Returned (Some (JObj fields2)), posts2) =>
                        if truthy (JObj fields2)
                           && truthy (default JNull (fields_get "results" fields2))
                        then
                          match first_result fields2 with
                          | None => (JNull, (posts1 ++ posts2)%list)
                          | Some item2 =>
                              match item_get item2 "text" (JStr "") with
                              | None => (JNull, (posts1 ++ posts2)%list)
                              | Some text => (text, (posts1 ++ posts2)%list)
                              end
                          end
                        else (JNull, (posts1 ++ posts2)%list)
                    | (_, posts2) => (JNull, (posts1 ++ posts2)%list)
                    end
                  else (JNull, posts1)
              end
          end
        else (JNull, posts1)
    | (_, posts1) => (JNull, posts1)
    end.

End ExaClient.

(** Truth value of an optional list or string argument. *)
Definition given_list (v : option (list string)) : bool :=
  match v with Some (_ :: _) => true | _ => false end.

Definition given_str (v : option string) : bool :=
  match v with Some s => negb (String.eqb s "") | None => false end.

(** A transport for the client that answers every request with [data]. *)
Definition exa_answers (data : Json) : ExaClient.Post -> ExaClient.Http :=
  fun _ => ExaClient.Parsed data.

Definition exa_getenv (name : string) : option string :=
  if String.eqb name "EXA_API_KEY" then Some "exa-0123456789" else None.

(** An answer holding one result with an id and a text. *)
Definition exa_page : Json :=
  JObj [("results", JList [JObj [("id", JStr "doc-1"); ("text", JStr "hello")]])].


(** ** The models the analyzer asks for ([DocumentAIAnalyzer.__init__]) *)

Definition qwen_model : string := "qwen/qwen-2.5-72b-instruct".
Definition predictive_model : string := "anthropic/claude-3.5-sonnet".

(** * The analysis pipeline ([DocumentAIAnalyzer.analyze_documents]) *)

Module DocumentAIAnalyzer.

(** A Python dictionary of JSON-like values, fields in order. *)
Definition Dict : Type := list (string * Json).

(** ['error' in d] *)
Definition has_error (d : Dict) : bool :=
  match fields_get "error" d with Some _ => true | None => false end.

(** [bool(d)] *)
Definition nonempty (d : Dict) : bool :=
  match d with [] => false | _ => true end.

(** What [analyze_documents] hands to the code that follows the three
    phases ([_create_analysis_summary], [_save_analysis_results],
    [_update_session_status]). *)
Record Results := mkResults {
  session_id : string;
  individual_analyses : list Json;
  synthesis : Dict;
  insights : Dict;
  document_count : nat;
  status : string;
  error_message : Json
}.

(** The coroutines [analyze_documents] awaits, and the code that follows
    them, each returning or raising: [analyze_documents] is modelled for
    every behaviour they can have. *)
Record Phases := mkPhases {
  _analyze_individual_documents : list Json -> Res (list Json);
  _synthesize_and_correlate : list Json -> Res Dict;
  _generate_insights : Dict -> list Json -> Res Dict;
  save_and_report : Results -> Res unit
}.

(** The phases started by a call, in order. *)
Inductive Call :=
| Individual (extracted_content : list Json)
| Synthesis (individual_analyses : list Json)
| Insights (synthesis_result : Dict) (extracted_content : list Json)
| Save (results : Results).

(** The dictionary returned: [{'success': True, 'analysis_id': ...,
    'status': ..., 'error': ...}] or [{'success': False, 'error': ...}]. *)
Inductive Report :=
| Succeeded (analysis_id : string) (status : string) (error : Json)
| Failed (error : string).

Definition analyze_documents (p : Phases) (session_id : string)
    (extracted_content : list Json) : Report * list Call :=
  (* Fase 1 *)
  let '(individual_analyses, status1, error1) :=
    match _analyze_individual_documents p extracted_content with
    | Ok analyses => (analyses, "completed", JNull)
    | Raise e =>
        ([], "partial_error",
         JStr ("Análise individual falhou: " ++ str_exn e)%string)
    end in
  let calls1 := [Individual extracted_content] in
  (* Fase 2 *)
  let '(synthesis_result, status2, error2, calls2) :=
    if (String.eqb status1 "completed"
        || (String.eqb status1 "partial_error"
            && match individual_analyses with [] => false | _ => true end))%bool
    then
      match _synthesize_and_correlate p individual_analyses with
      | Ok d =>
          if has_error d
          then (d, "partial_error", default JNull (fields_get "error" d),
                (calls1 ++ [Synthesis individual_analyses])%list)
          else (d, status1, error1, (calls1 ++ [Synthesis individual_analyses])%list)
      | Raise e =>
          ([], "partial_error", JStr ("Síntese falhou: " ++ str_exn e)%string,
           (calls1 ++ [Synthesis individual_analyses])%list)
      end
    else ([], status1, error1, calls1) in
  (* Fase 3 *)
  let '(insights, status3, error3, calls3) :=
    if (String.eqb status2 "completed"
        || (String.eqb status2 "partial_error"
            && nonempty synthesis_result && negb (has_error synthesis_result)))%bool
    then
      match _generate_insights p synthesis_result extracted_content with
      | Ok d =>
          if has_error d
          then (d, "partial_error", default JNull (fields_get "error" d),
                (calls2 ++ [Insights synthesis_result extracted_content])%list)
          else (d, status2, error2,
                (calls2 ++ [Insights synthesis_result extracted_content])%list)
      | Raise e =>
          ([], "partial_error",
           JStr ("Geração de insights falhou: " ++ str_exn e)%string,
           (calls2 ++ [Insights synthesis_result extracted_content])%list)
      end
    else ([], status2, error2, calls2) in
  let results :=
    mkResults session_id individual_analyses synthesis_result insights
              (length extracted_content) status3 error3 in
  match save_and_report p results with
  | Ok _ => (Succeeded session_id status3 error3, (calls3 ++ [Save results])%list)
  | Raise e => (Failed (str_exn e), (calls3 ++ [Save results])%list)
  end.

End DocumentAIAnalyzer.

(** All three phases returned, and neither dictionary holds ['error']. *)
Definition phases_clean (p : DocumentAIAnalyzer.Phases) (extracted_content : list Json)
    : Prop :=
  exists analyses syn ins,
    DocumentAIAnalyzer._analyze_individual_documents p extracted_content = Ok analyses /\
    DocumentAIAnalyzer._synthesize_and_correlate p analyses = Ok syn /\
    DocumentAIAnalyzer.has_error syn = false /\
    DocumentAIAnalyzer._generate_insights p syn extracted_content = Ok ins /\
    DocumentAIAnalyzer.has_error ins = false.

(** Phases in which the synthesis comes back with an error entry. *)
Definition failing_phases : DocumentAIAnalyzer.Phases :=
  DocumentAIAnalyzer.mkPhases
    (fun _ => Ok [])
    (fun _ => Ok [("error", JStr "Erro 402")])
    (fun _ _ => Ok [])
    (fun _ => Ok tt).

(** * Properties *)

(** ** Strings *)

Lemma append_nil (t : string) : "" ++ t = t.
Proof. reflexivity. Qed.

Lemma append_cons (c : ascii) (s t : string) : String c s ++ t = String c (s ++ t).
Proof. reflexivity. Qed.

Lemma prefix_split (p s : string) :
  String.prefix p s = true <-> exists t, s = p ++ t.
Proof.
  revert s. induction p as [|c p IH]; intros s.
  - destruct s; simpl; split; eauto.
  - destruct s as [|d s]; simpl.
    + split; [discriminate | intros [t Ht]; discriminate].
    + destruct (Ascii.ascii_dec c d) as [->|Hne].
      * rewrite IH. split; intros [t Ht]; exists t.
        -- by rewrite append_cons, Ht.
        -- rewrite append_cons in Ht. congruence.
      * split; [discriminate | intros [t Ht]].
        rewrite append_cons in Ht. congruence.
Qed.

(** [str_in] is Python's substring test. *)
Lemma str_in_spec (needle hay : string) :
  str_in needle hay = true <-> exists a b, hay = a ++ needle ++ b.
Proof.
  induction hay as [|c hay IH].
  - cbn [str_in]. destruct (String.prefix needle "") eqn:Hp.
    + apply prefix_split in Hp as [t Ht]. split; [|done].
      intros _. exists "", t. done.
    + split; [discriminate|]. intros (a & b & Hab).
      destruct a; [|discriminate]. rewrite append_nil in Hab.
      assert (String.prefix needle "" = true) by (apply prefix_split; eauto).
      congruence.
  - cbn [str_in]. destruct (String.prefix needle (String c hay)) eqn:Hp.
    + apply prefix_split in Hp as [t Ht]. split; [|done].
      intros _. exists "", t. done.
    + rewrite IH. split.
      * intros (a & b & ->). exists (String c a), b. done.
      * intros (a & b & Hab). destruct a as [|c' a].
        -- rewrite append_nil in Hab.
           assert (String.prefix needle (String c hay) = true)
             by (apply prefix_split; eauto).
           congruence.
        -- rewrite append_cons in Hab. injection Hab as -> ->. eauto.
Qed.

(** ** Running the monad *)

Ltac run :=
  unfold update_stats, set_cooldown, cooldown_del, cooldown_get, stats_of,
    key_at_index, bind, ret, raise, modify, get in *; simpl in *.

Lemma update_stats_ok key f st s :
  key_usage_stats st !! key = Some s ->
  update_stats key f st = (Ok tt, set_stats (<[key := f s]> (key_usage_stats st)) st).
Proof. intros H. run. by rewrite H. Qed.

(** ** Failure recording *)

(** Closed form of [_handle_api_error] on a key that has statistics. *)
Lemma handle_api_error_ok now key error st s :
  key_usage_stats st !! key = Some s ->
  let c := classify (lower (str_exn error)) in
  _handle_api_error now key error st =
    (Ok tt,
     mkManager (api_keys st) (current_key_index st)
       (<[key := apply_class c s]> (key_usage_stats st))
       (<[key := now + cooldown_for c]> (key_cooldowns st))).
Proof.
  intros Hs c. unfold _handle_api_error. fold c.
  unfold bind at 1. rewrite (update_stats_ok _ _ _ _ Hs).
  destruct c; simpl.
  - unfold bind. erewrite update_stats_ok by (simpl; apply lookup_insert_eq).
    unfold set_cooldown, modify, set_cooldowns, set_stats; simpl.
    by rewrite insert_insert_eq.
  - unfold bind. erewrite update_stats_ok by (simpl; apply lookup_insert_eq).
    unfold set_cooldown, modify, set_cooldowns, set_stats; simpl.
    by rewrite insert_insert_eq.
  - reflexivity.
Qed.

(** C4.  Recording a failure at time [now] on a credential that has
    statistics raises nothing, adds exactly one to its [errors] counter and
    leaves [requests] and [last_used] alone.  The cooldown entry becomes
    [now] + 30 minutes with [credits_exhausted] set for a credit error,
    [now] + 60 seconds with [rate_limited] set for a rate-limit error, and
    [now] + 30 seconds with neither flag touched for any other error. *)
Theorem handle_api_error_policy now key error st s :
  key_usage_stats st !! key = Some s ->
  exists st' s',
    _handle_api_error now key error st = (Ok tt, st') /\
    key_usage_stats st' !! key = Some s' /\
    errors s' = errors s + 1 /\
    requests s' = requests s /\ last_used s' = last_used s /\
    match classify (lower (str_exn error)) with
    | InsufficientCredits =>
        key_cooldowns st' !! key = Some (now + timedelta_minutes 30) /\
        credits_exhausted s' = true /\ rate_limited s' = rate_limited s
    | RateLimited =>
        key_cooldowns st' !! key = Some (now + timedelta_seconds 60) /\
        rate_limited s' = true /\ credits_exhausted s' = credits_exhausted s
    | Other =>
        key_cooldowns st' !! key = Some (now + timedelta_seconds 30) /\
        credits_exhausted s' = credits_exhausted s /\
        rate_limited s' = rate_limited s
    end.
Proof.
  intros Hs. eexists _, _. split; [apply (handle_api_error_ok _ _ _ _ _ Hs)|].
  simpl. split; [apply lookup_insert_eq|].
  destruct (classify _); simpl; rewrite lookup_insert_eq; repeat split.
Qed.

Lemma handle_api_error_policy_witness :
  exists st' s',
    _handle_api_error 1000 demo_key (TransportError "Error code: 429") demo_pool
      = (Ok tt, st') /\
    key_usage_stats st' !! demo_key = Some s' /\
    errors s' = 1 /\
    key_cooldowns st' !! demo_key = Some (1000 + timedelta_seconds 60) /\
    rate_limited s' = true.
Proof.
  destruct (handle_api_error_policy 1000 demo_key (TransportError "Error code: 429")
              demo_pool fresh_stats)
    as (st' & s' & H1 & H2 & H3 & _ & _ & H4).
  - reflexivity.
  - exists st', s'. vm_compute in H4. destruct H4 as (H4 & H5 & _).
    repeat split; assumption.
Defined.

(** C10.  The credit test comes first: an error whose lowercased text
    carries a credit signal and a rate-limit signal is handled as a credit
    error.  [credits_exhausted] is set, the cooldown is 30 minutes and
    [rate_limited] keeps its value. *)
Theorem credit_signal_takes_precedence now key error st s :
  let error_str := lower (str_exn error) in
  key_usage_stats st !! key = Some s ->
  (str_in "402" error_str || str_in "payment required" error_str
   || str_in "credit" error_str)%bool = true ->
  (str_in "429" error_str || str_in "rate limit" error_str)%bool = true ->
  classify error_str = InsufficientCredits /\
  exists st' s',
    _handle_api_error now key error st = (Ok tt, st') /\
    key_usage_stats st' !! key = Some s' /\
    credits_exhausted s' = true /\
    rate_limited s' = rate_limited s /\
    key_cooldowns st' !! key = Some (now + timedelta_minutes 30).
Proof.
  intros error_str Hs Hcredit _.
  assert (Hc : classify error_str = InsufficientCredits)
    by (unfold classify; by rewrite Hcredit).
  split; [exact Hc|].
  eexists _, _. split; [apply (handle_api_error_ok _ _ _ _ _ Hs)|].
  fold error_str. rewrite Hc. simpl. rewrite !lookup_insert_eq. auto.
Qed.

Lemma credit_signal_takes_precedence_witness :
  exists st' s',
    _handle_api_error 0 demo_key
      (TransportError "402 Payment Required (429 Rate Limit reached)") demo_pool
      = (Ok tt, st') /\
    key_usage_stats st' !! demo_key = Some s' /\
    credits_exhausted s' = true /\
    rate_limited s' = false /\
    key_cooldowns st' !! demo_key = Some (0 + timedelta_minutes 30).
Proof.
  destruct (credit_signal_takes_precedence 0 demo_key
              (TransportError "402 Payment Required (429 Rate Limit reached)")
              demo_pool fresh_stats)
    as (_ & st' & s' & H); [reflexivity | reflexivity | reflexivity |].
  exists st', s'. exact H.
Defined.

(** ** Request degradation: the output-token budget *)

Lemma adjust_max_tokens_le v attempt :
  exists w, adjust_max_tokens (Some v) attempt = Some w /\ w <= v.
Proof.
  unfold adjust_max_tokens.
  repeat match goal with |- context [if ?b then _ else _] => destruct b end;
    eexists; (split; [reflexivity | lia]).
Qed.

Lemma adjust_max_tokens_mono v n m w1 w2 :
  n <= m ->
  adjust_max_tokens (Some v) n = Some w1 ->
  adjust_max_tokens (Some v) m = Some w2 ->
  w2 <= w1.
Proof.
  unfold adjust_max_tokens. intros Hnm.
  repeat match goal with
         | |- context [if ?b then _ else _] => destruct b eqn:?
         end;
    intros [= <-] [= <-]; lia.
Qed.

(** C5.  With an original budget [v], the budget of the degraded request
    is [v] at attempt 0, [min v 2048] at attempt 1, [min v 1024] at attempt
    2 and [min v 512] from attempt 3 on; it never exceeds [v], and a later
    attempt never has a larger budget than an earlier one. *)
Theorem max_tokens_degradation kwargs v :
  max_tokens kwargs = Some v ->
  let budget attempt := max_tokens (_maybe_adjust_request kwargs attempt) in
  budget 0 = Some v /\
  budget 1 = Some (Z.min v 2048) /\
  budget 2 = Some (Z.min v 1024) /\
  (forall attempt, 3 <= attempt -> budget attempt = Some (Z.min v 512)) /\
  (forall attempt, exists w, budget attempt = Some w /\ w <= v) /\
  (forall n m w1 w2, n <= m -> budget n = Some w1 -> budget m = Some w2 -> w2 <= w1).
Proof.
  intros Hv budget. subst budget. cbn [_maybe_adjust_request max_tokens].
  rewrite Hv. repeat split.
  - unfold adjust_max_tokens. destruct (v =? 0); reflexivity.
  - unfold adjust_max_tokens. destruct (v =? 0) eqn:E; [|reflexivity].
    apply Z.eqb_eq in E. subst. reflexivity.
  - unfold adjust_max_tokens. destruct (v =? 0) eqn:E; [|reflexivity].
    apply Z.eqb_eq in E. subst. reflexivity.
  - intros attempt Ha. unfold adjust_max_tokens.
    destruct (v =? 0) eqn:E; [apply Z.eqb_eq in E; subst; reflexivity|].
    destruct (attempt =? 1) eqn:E1; [lia|].
    destruct (attempt =? 2) eqn:E2; [lia|].
    destruct (3 <=? attempt) eqn:E3; [reflexivity | lia].
  - intros attempt. apply adjust_max_tokens_le.
  - intros n m w1 w2. apply adjust_max_tokens_mono.
Qed.

Lemma max_tokens_degradation_witness :
  let kwargs := mkRequest (Some "openai/gpt-4o") (Some 4000) [] in
  max_tokens (_maybe_adjust_request kwargs 0) = Some 4000 /\
  max_tokens (_maybe_adjust_request kwargs 1) = Some 2048 /\
  max_tokens (_maybe_adjust_request kwargs 2) = Some 1024 /\
  max_tokens (_maybe_adjust_request kwargs 7) = Some 512.
Proof.
  intros kwargs.
  destruct (max_tokens_degradation kwargs 4000) as (H0 & H1 & H2 & H3 & _);
    [reflexivity|].
  split; [exact H0 | split; [exact H1 | split; [exact H2 | apply H3; lia]]].
Defined.

(** ** Request degradation: the model *)

Lemma index_of_lookup x l i :
  index_of x l = Some i -> l !! i = Some x.
Proof.
  revert i. induction l as [|y l IH]; intros i; simpl; [discriminate|].
  destruct (String.eqb x y) eqn:E.
  - apply String.eqb_eq in E. intros [= <-]. by subst.
  - destruct (index_of x l); simpl; [|discriminate].
    intros [= <-]. simpl. by apply IH.
Qed.

Lemma index_of_NoDup x (l : list string) i :
  NoDup l -> l !! i = Some x -> index_of x l = Some i.
Proof.
  intros Hnd. revert i. induction Hnd as [|y l Hy Hnd IH]; intros i; [done|].
  destruct i as [|i]; simpl.
  - intros [= ->]. by rewrite String.eqb_refl.
  - intros Hi. destruct (String.eqb x y) eqn:E.
    + apply String.eqb_eq in E. subst.
      exfalso. apply Hy. eapply list_elem_of_lookup_2. exact Hi.
    + by rewrite (IH _ Hi).
Qed.

Lemma model_fallback_chain_NoDup : NoDup model_fallback_chain.
Proof.
  unfold model_fallback_chain.
  repeat (apply NoDup_cons; split;
          [rewrite ?elem_of_cons, elem_of_nil; intros H;
           repeat (destruct H as [H|H]; [discriminate|]); exact H|]).
  apply NoDup_nil_2.
Qed.

(** Closed form of the model step for a model found in the chain. *)
Lemma adjust_model_in_chain chain m i attempt :
  NoDup chain ->
  index_of m chain = Some i ->
  exists m',
    adjust_model chain (Some m) attempt = Some m' /\
    index_of m' chain =
      Some (if ((attempt <=? 2) && Nat.ltb (i + 1) (length chain))%bool
            then (i + 1)%nat else i).
Proof.
  intros Hnd Hi. unfold adjust_model. rewrite Hi.
  destruct ((attempt <=? 2) && Nat.ltb (i + 1) (length chain))%bool eqn:E.
  - apply andb_true_iff in E as [_ E]. apply Nat.ltb_lt in E.
    destruct (lookup_lt_is_Some_2 chain (i + 1)%nat E) as [m' Hm'].
    exists m'. split; [exact Hm'|]. by apply index_of_NoDup.
  - eauto.
Qed.

(** C6, as stated, fails: the request is degraded afresh from the
    caller's arguments at each attempt and the step down the chain is
    guarded by [attempt <= 2], so attempt 3 is back on the requested model
    while attempt 2 was one rung below it. *)
Lemma model_index_not_monotone : ~ model_index_monotone_in_attempt.
Proof.
  intros H.
  specialize (H (mkRequest (Some "qwen/qwen-2.5-72b-instruct") (Some 4000) [])
                O 2 3 1%nat O eq_refl ltac:(lia) eq_refl eq_refl).
  lia.
Qed.

(** C6, amended.  For a request whose model sits at index [i] of the
    fallback chain, the degraded model is again in the chain, at index
    [i + 1] when [attempt <= 2] and the chain has an entry there and at
    index [i] otherwise.  Hence every attempt is at most one rung below the
    requested model, and over the attempts up to 2 the index never
    decreases from an attempt to a later one. *)
Theorem model_step_within_retry_window kwargs i :
  chain_index (model kwargs) = Some i ->
  let rung attempt := chain_index (model (_maybe_adjust_request kwargs attempt)) in
  (forall attempt,
     rung attempt =
       Some (if ((attempt <=? 2) && Nat.ltb (i + 1) (length model_fallback_chain))%bool
             then (i + 1)%nat else i)) /\
  (forall attempt j, rung attempt = Some j -> (i <= j <= i + 1)%nat) /\
  (forall n m jn jm,
     n < m -> m <= 2 -> rung n = Some jn -> rung m = Some jm -> (jn <= jm)%nat) /\
  (forall attempt, 3 <= attempt -> rung attempt = Some i).
Proof.
  intros Hi rung.
  assert (Hrung : forall attempt,
     rung attempt =
       Some (if ((attempt <=? 2) && Nat.ltb (i + 1) (length model_fallback_chain))%bool
             then (i + 1)%nat else i)).
  { intros attempt. subst rung. cbn [_maybe_adjust_request model].
    destruct (model kwargs) as [m|] eqn:Hm; [|discriminate]. simpl in Hi.
    destruct (adjust_model_in_chain _ m i attempt model_fallback_chain_NoDup Hi)
      as (m' & -> & Hm').
    exact Hm'. }
  repeat split.
  - exact Hrung.
  - rewrite Hrung in H. injection H as <-.
    destruct (_ && _)%bool; lia.
  - rewrite Hrung in H. injection H as <-.
    destruct (_ && _)%bool; lia.
  - intros n m jn jm Hnm Hm. rewrite !Hrung. intros [= <-] [= <-].
    assert (En : (n <=? 2) = true) by (apply Z.leb_le; lia).
    assert (Em : (m <=? 2) = true) by (apply Z.leb_le; lia).
    rewrite En, Em. simpl. destruct (Nat.ltb _ _); lia.
  - intros attempt Ha. rewrite Hrung.
    assert (E : (attempt <=? 2) = false) by (apply Z.leb_gt; lia).
    by rewrite E.
Qed.

Lemma model_step_within_retry_window_witness :
  let kwargs := mkRequest (Some "qwen/qwen-2.5-32b-instruct") None [] in
  chain_index (model (_maybe_adjust_request kwargs 0)) = Some 2%nat /\
  chain_index (model (_maybe_adjust_request kwargs 2)) = Some 2%nat /\
  chain_index (model (_maybe_adjust_request kwargs 3)) = Some 1%nat.
Proof.
  intros kwargs.
  destruct (model_step_within_retry_window kwargs 1%nat eq_refl) as (H & _ & _ & H3).
  split; [exact (H 0) | split; [exact (H 2) | apply H3; lia]].
Defined.

(** ** Well-formed and reachable states *)

Lemma wf_nonempty st : wf st -> api_keys st <> [].
Proof. intros [Hi _] E. rewrite E in Hi. simpl in Hi. lia. Qed.

(** ** The selection loop *)

Lemma scan_S clock fuel attempts st :
  scan clock (S fuel) attempts st =
    match api_keys st !! current_key_index st with
    | None => (Raise IndexError, st)
    | Some key =>
        match key_usage_stats st !! key with
        | None => (Raise (KeyError key), st)
        | Some stats =>
            let next := (_rotate_to_next_key ;; scan clock fuel (S attempts)) in
            let check_flags :=
              if (negb (credits_exhausted stats) && negb (rate_limited stats))%bool
              then ret (Some key) else next in
            match key_cooldowns st !! key with
            | Some until =>
                if clock attempts <? until then next st
                else check_flags (set_cooldowns (delete key (key_cooldowns st)) st)
            | None => check_flags st
            end
        end
    end.
Proof.
  cbn [scan]. unfold bind at 1, key_at_index.
  destruct (api_keys st !! current_key_index st) as [key|]; [|done].
  unfold bind at 1, stats_of.
  destruct (key_usage_stats st !! key) as [stats|]; [|done].
  unfold bind at 1, cooldown_get. cbn zeta.
  destruct (key_cooldowns st !! key) as [until|]; [|done].
  destruct (clock attempts <? until); [done|].
  unfold bind at 1, cooldown_del, modify. done.
Qed.

Lemma rotate_ok st :
  wf st ->
  _rotate_to_next_key st = (Ok tt, set_index (slot st 1) st).
Proof.
  intros [Hi _]. unfold _rotate_to_next_key, slot.
  destruct (length (api_keys st)) eqn:E; [lia | done].
Qed.

Lemma slot_lt st j : wf st -> (slot st j < length (api_keys st))%nat.
Proof. intros [Hi _]. unfold slot. apply Nat.mod_upper_bound. lia. Qed.

Lemma slot_0 st : wf st -> slot st 0 = current_key_index st.
Proof.
  intros [Hi _]. unfold slot. rewrite Nat.add_0_r. by apply Nat.mod_small.
Qed.

Lemma continues_wf st st1 : wf st -> continues st st1 -> wf st1.
Proof.
  intros Hwf [Hk Hs _ _ Hi]. split.
  - rewrite Hi, Hk. by apply slot_lt.
  - intros k. rewrite Hk, Hs. apply Hwf.
Qed.

Lemma continues_slot st st1 j : continues st st1 -> slot st1 j = slot st (S j).
Proof.
  intros [Hk _ _ _ Hi]. unfold slot in *. rewrite Hi, Hk.
  rewrite Nat.Div0.add_mod_idemp_l. f_equal. lia.
Qed.

Lemma continues_candidate st st1 t j :
  continues st st1 -> candidate_usable t st1 j = candidate_usable t st (S j).
Proof.
  intros H. unfold candidate_usable.
  rewrite (continues_slot _ _ _ H), (cont_keys _ _ H).
  destruct (api_keys st !! slot st (S j)); [apply (cont_usable _ _ H) | done].
Qed.

Lemma scan_post_continue clock fuel attempts st st1 found st' :
  continues st st1 ->
  candidate_usable (clock attempts) st 0 = false ->
  scan_post clock fuel (S attempts) st1 found st' ->
  scan_post clock (S fuel) attempts st found st'.
Proof.
  intros Hc H0 (Hk & Hs & Hcd & Hwf & Hf).
  assert (Hprefix : forall j n,
    (forall j', (j' < n)%nat ->
                candidate_usable (clock (S attempts + j')%nat) st1 j' = false) ->
    (j < S n)%nat -> candidate_usable (clock (attempts + j)%nat) st j = false).
  { intros j n Hall Hj. destruct j as [|j].
    - by rewrite Nat.add_0_r.
    - rewrite <- (continues_candidate _ _ _ _ Hc).
      replace (attempts + S j)%nat with (S attempts + j)%nat by lia.
      apply Hall. lia. }
  repeat split.
  - by rewrite Hk, (cont_keys _ _ Hc).
  - by rewrite Hs, (cont_stats _ _ Hc).
  - etrans; [exact Hcd | exact (cont_cooldowns _ _ Hc)].
  - apply Hwf.
  - apply Hwf.
  - destruct found as [k|].
    + destruct Hf as (j & Hj & Hl & Hu & Hbefore & Hidx & Hnone).
      exists (S j). repeat split.
      * lia.
      * by rewrite <- (continues_slot _ _ _ Hc), <- (cont_keys _ _ Hc).
      * rewrite <- (cont_usable _ _ Hc).
        by replace (attempts + S j)%nat with (S attempts + j)%nat by lia.
      * intros j' Hj'. apply (Hprefix j' j); [exact Hbefore | lia].
      * by rewrite Hidx, (continues_slot _ _ _ Hc).
      * exact Hnone.
    + destruct Hf as (Hall & Hidx). split.
      * intros j Hj. by apply (Hprefix j fuel).
      * by rewrite Hidx, (continues_slot _ _ _ Hc).
Qed.

Lemma continues_rotate st : wf st -> continues st (set_index (slot st 1) st).
Proof. intros Hwf. by split. Qed.

Lemma continues_expired_flagged st key s :
  wf st ->
  key_usage_stats st !! key = Some s ->
  (negb (credits_exhausted s) && negb (rate_limited s))%bool = false ->
  let st_d := set_cooldowns (delete key (key_cooldowns st)) st in
  continues st (set_index (slot st_d 1) st_d).
Proof.
  intros Hwf Hs Hflag st_d. split; try done.
  - simpl. apply delete_subseteq.
  - intros t k. unfold is_usable, cooldown_live, flags_clear. simpl.
    destruct (decide (k = key)) as [->|Hne].
    + rewrite Hs, Hflag. by rewrite !andb_false_r.
    + by rewrite lookup_delete_ne.
Qed.

Lemma wf_set_cooldowns st m : wf st -> wf (set_cooldowns m st).
Proof. intros Hwf. exact Hwf. Qed.

(** The loop never raises on a well-formed state, and returns the first
    candidate in rotation order that qualifies at the time it is looked
    at, or [None] when no candidate does. *)
Lemma scan_spec clock fuel : forall attempts st,
  wf st ->
  exists found st',
    scan clock fuel attempts st = (Ok found, st') /\
    scan_post clock fuel attempts st found st'.
Proof.
  induction fuel as [|fuel IH]; intros attempts st Hwf.
  - exists None, st. split; [done|].
    repeat split; try done; try apply Hwf.
    + intros j Hj. lia.
    + by rewrite slot_0.
  - rewrite scan_S.
    pose proof Hwf as [Hidx Hstats].
    destruct (lookup_lt_is_Some_2 _ _ Hidx) as [key Hkey]. rewrite Hkey.
    destruct (Hstats key) as [s Hs];
      [by eapply list_elem_of_lookup_2|]. rewrite Hs. cbn zeta.
    assert (Hcontinue : forall st1,
      continues st st1 ->
      candidate_usable (clock attempts) st 0 = false ->
      exists found st',
        scan clock fuel (S attempts) st1 = (Ok found, st') /\
        scan_post clock (S fuel) attempts st found st').
    { intros st1 Hc H0.
      destruct (IH (S attempts) st1 (continues_wf _ _ Hwf Hc))
        as (found & st' & Hrun & Hpost).
      exists found, st'. split; [exact Hrun|].
      by eapply scan_post_continue. }
    assert (Hcand : forall t,
      candidate_usable t st 0 = is_usable t st key).
    { intros t. unfold candidate_usable. by rewrite slot_0, Hkey. }
    destruct (key_cooldowns st !! key) as [until|] eqn:Hcd.
    + destruct (clock attempts <? until) eqn:Hlive.
      * unfold bind. rewrite (rotate_ok _ Hwf).
        apply Hcontinue; [by apply continues_rotate|].
        rewrite Hcand. unfold is_usable, cooldown_live. by rewrite Hcd, Hlive.
      * destruct (negb (credits_exhausted s) && negb (rate_limited s))%bool eqn:Hflag.
        -- eexists _, _. split; [reflexivity|].
           repeat split; try done; try apply Hwf.
           ++ simpl. apply delete_subseteq.
           ++ exists O. repeat split.
              ** lia.
              ** by rewrite slot_0.
              ** rewrite Nat.add_0_r. unfold is_usable, cooldown_live, flags_clear.
                 by rewrite Hcd, Hlive, Hs, Hflag.
              ** intros j' Hj'. lia.
              ** simpl. by rewrite slot_0.
              ** simpl. apply lookup_delete_eq.
        -- unfold bind. rewrite (rotate_ok _ (wf_set_cooldowns _ _ Hwf)).
           apply Hcontinue; [by eapply continues_expired_flagged|].
           rewrite Hcand. unfold is_usable, flags_clear.
           by rewrite Hs, Hflag, andb_false_r.
    + destruct (negb (credits_exhausted s) && negb (rate_limited s))%bool eqn:Hflag.
      * eexists _, _. split; [reflexivity|].
        repeat split; try done; try apply Hwf.
        exists O. repeat split.
        -- lia.
        -- by rewrite slot_0.
        -- rewrite Nat.add_0_r. unfold is_usable, cooldown_live, flags_clear.
           by rewrite Hcd, Hs, Hflag.
        -- intros j' Hj'. lia.
        -- by rewrite slot_0.
        -- exact Hcd.
      * unfold bind. rewrite (rotate_ok _ Hwf).
        apply Hcontinue; [by apply continues_rotate|].
        rewrite Hcand. unfold is_usable, flags_clear.
        by rewrite Hs, Hflag, andb_false_r.
Qed.

(** ** The least-errors fallback *)

Local Open Scope list_scope.
Local Open Scope Z_scope.

Lemma min_errors_from_spec stats : forall l pre ib best,
  (forall k, k ∈ l -> is_Some (stats !! k)) ->
  first_least stats pre ib best ->
  exists k i,
    min_errors_from stats best (errs stats best) l = Ok k /\
    first_least stats (pre ++ l) i k.
Proof.
  induction l as [|k l IH]; intros pre ib best Hall Hbest.
  - exists best, ib. rewrite app_nil_r. done.
  - cbn [min_errors_from].
    destruct (Hall k) as [s Hs]; [apply list_elem_of_here|]. rewrite Hs.
    assert (Hall' : forall k', k' ∈ l -> is_Some (stats !! k'))
      by (intros k' Hk'; apply Hall; by apply list_elem_of_further).
    assert (Hk : errs stats k = errors s) by (unfold errs; by rewrite Hs).
    destruct Hbest as (Hib & Hmin & Hfirst).
    replace (pre ++ k :: l) with ((pre ++ [k]) ++ l) by (by rewrite <- app_assoc).
    destruct (errors s <? errs stats best) eqn:Hlt.
    + apply Z.ltb_lt in Hlt. rewrite <- Hk.
      apply (IH (pre ++ [k]) (length pre) k Hall').
      repeat split.
      * by rewrite lookup_app_r, Nat.sub_diag.
      * intros i' k' Hi'. apply lookup_app_Some in Hi' as [Hi'|[_ Hi']].
        -- specialize (Hmin _ _ Hi'). lia.
        -- apply list_lookup_singleton_Some in Hi' as [_ <-]. lia.
      * intros i' k' Hlen Hi'. rewrite lookup_app_l in Hi' by exact Hlen.
        specialize (Hmin _ _ Hi'). lia.
    + apply Z.ltb_ge in Hlt.
      apply (IH (pre ++ [k]) ib best Hall').
      repeat split.
      * rewrite lookup_app_l; [done|]. by eapply lookup_lt_Some.
      * intros i' k' Hi'. apply lookup_app_Some in Hi' as [Hi'|[_ Hi']].
        -- by eapply Hmin.
        -- apply list_lookup_singleton_Some in Hi' as [_ <-]. lia.
      * intros i' k' Hlen Hi'.
        assert (Hpre : (i' < length pre)%nat).
        { apply lookup_lt_Some in Hib. lia. }
        rewrite lookup_app_l in Hi' by exact Hpre. by eapply Hfirst.
Qed.

Lemma least_errors_first_iff st key :
  least_errors_first st key <-> exists i, first_least (key_usage_stats st) (api_keys st) i key.
Proof. reflexivity. Qed.

Lemma min_errors_key_spec st :
  wf st ->
  exists k, min_errors_key st = (Ok k, st) /\ least_errors_first st k.
Proof.
  intros Hwf. unfold min_errors_key.
  pose proof (wf_nonempty _ Hwf) as Hne. destruct Hwf as [_ Hstats].
  destruct (api_keys st) as [|k0 l] eqn:E; [done|].
  destruct (Hstats k0) as [s Hs]; [apply list_elem_of_here|]. rewrite Hs.
  destruct (min_errors_from_spec (key_usage_stats st) l [k0] O k0) as (k & i & Hk & Hleast).
  - intros k Hk. apply Hstats. by apply list_elem_of_further.
  - split; [done|]. split; [|intros; lia].
    intros i' k' Hi'. apply list_lookup_singleton_Some in Hi' as [_ <-]. lia.
  - exists k. unfold errs in Hk at 1. rewrite Hs in Hk. rewrite Hk. split; [done|].
    apply least_errors_first_iff. rewrite E. by exists i.
Qed.

(** ** [_get_next_available_key]: what it returns *)

Lemma slot_full st : wf st -> slot st (length (api_keys st)) = current_key_index st.
Proof.
  intros [Hi _]. unfold slot.
  replace (current_key_index st + length (api_keys st))%nat
    with (current_key_index st + 1 * length (api_keys st))%nat by lia.
  rewrite Nat.Div0.mod_add. by apply Nat.mod_small.
Qed.

Lemma select_spec clock st :
  wf st ->
  exists key st',
    _get_next_available_key clock st = (Ok key, st') /\
    select_post clock st key st'.
Proof.
  intros Hwf. unfold _get_next_available_key, bind at 1, get.
  destruct (scan_spec clock (length (api_keys st)) O st Hwf)
    as (found & st' & Hrun & Hk & Hs & Hcd & Hwf' & Hf).
  unfold bind. rewrite Hrun. destruct found as [key|].
  - exists key, st'. split; [done|].
    destruct Hf as (j & Hj & Hl & Hu & Hbefore & Hidx & Hnone).
    repeat split; try done; try apply Hwf'.
    + by eapply list_elem_of_lookup_2.
    + left. exists j. done.
  - destruct (min_errors_key_spec st' Hwf') as (key & Hmin & Hleast).
    exists key, st'. split; [done|].
    destruct Hf as (Hall & Hidx).
    assert (Hleast' : least_errors_first st key).
    { destruct Hleast as (i & H1 & H2 & H3). exists i.
      unfold errors_of in *. rewrite Hk, Hs in *. done. }
    repeat split; try done; try apply Hwf'.
    + destruct Hleast' as (i & H1 & _). by eapply list_elem_of_lookup_2.
    + right. repeat split; [exact Hall | exact Hleast' |].
      by rewrite Hidx, slot_full.
Qed.

(** ** The methods keep states well formed *)

Lemma wf_insert_stats st key v cds :
  wf st ->
  wf (mkManager (api_keys st) (current_key_index st)
        (<[key := v]> (key_usage_stats st)) cds).
Proof.
  intros [Hi Hs]. split; [exact Hi|]. intros k Hk. simpl.
  destruct (decide (key = k)) as [->|Hne].
  - rewrite lookup_insert_eq. eauto.
  - rewrite lookup_insert_ne by done. by apply Hs.
Qed.

Lemma wf_update_stats key f st r st' :
  wf st -> update_stats key f st = (r, st') -> wf st'.
Proof.
  intros Hwf. unfold update_stats, bind, stats_of, modify.
  destruct (key_usage_stats st !! key); intros [= <- <-]; [|exact Hwf].
  by apply wf_insert_stats.
Qed.

Lemma wf_rotate st r st' :
  wf st -> _rotate_to_next_key st = (r, st') -> wf st'.
Proof.
  intros Hwf. rewrite (rotate_ok _ Hwf). intros [= <- <-].
  destruct Hwf as [Hi Hs]. split; [|exact Hs]. simpl.
  apply Nat.mod_upper_bound. lia.
Qed.

Lemma wf_handle_api_error now key error st r st' :
  wf st -> _handle_api_error now key error st = (r, st') -> wf st'.
Proof.
  intros Hwf. destruct (key_usage_stats st !! key) as [s|] eqn:Hs.
  - rewrite (handle_api_error_ok _ _ _ _ _ Hs). intros [= <- <-].
    by apply wf_insert_stats.
  - unfold _handle_api_error, bind at 1, update_stats, bind, stats_of.
    rewrite Hs. by intros [= <- <-].
Qed.

Lemma wf_select clock st r st' :
  wf st -> _get_next_available_key clock st = (r, st') -> wf st'.
Proof.
  intros Hwf. destruct (select_spec clock st Hwf) as (key & st1 & -> & Hpost).
  intros [= <- <-]. apply Hpost.
Qed.

Lemma wf_clear_all_flags keys : forall st r st',
  wf st -> clear_all_flags keys st = (r, st') -> wf st'.
Proof.
  induction keys as [|key keys IH]; intros st r st' Hwf; simpl.
  - by intros [= <- <-].
  - unfold bind at 1. destruct (update_stats key clear_flags st) as [[[]|e] st1] eqn:E.
    + apply IH. by eapply wf_update_stats.
    + intros [= <- <-]. by eapply wf_update_stats.
Qed.

Lemma wf_reset key_index st r st' :
  wf st -> reset_key_status key_index st = (r, st') -> wf st'.
Proof.
  intros Hwf. unfold reset_key_status. destruct key_index as [i|].
  - unfold bind at 1, get.
    destruct ((0 <=? i) && (i <? Z.of_nat (length (api_keys st))))%bool.
    + unfold bind at 1. destruct (api_keys st !! Z.to_nat i) as [key|].
      * unfold bind at 1.
        destruct (update_stats key clear_flags st) as [[[]|e] st1] eqn:E.
        -- unfold cooldown_del, modify. intros [= <- <-].
           apply wf_set_cooldowns. by eapply wf_update_stats.
        -- intros [= <- <-]. by eapply wf_update_stats.
      * by intros [= <- <-].
    + by intros [= <- <-].
  - unfold bind at 1, get. unfold bind at 1.
    destruct (clear_all_flags (api_keys st) st) as [[[]|e] st1] eqn:E.
    + unfold modify. intros [= <- <-].
      apply wf_set_cooldowns. by eapply wf_clear_all_flags.
    + intros [= <- <-]. by eapply wf_clear_all_flags.
Qed.

Lemma foldl_fresh_stats (keys : list string) : forall (m : gmap string KeyStats) k,
  k ∈ keys \/ is_Some (m !! k) ->
  is_Some (foldl (fun m key => <[key := fresh_stats]> m) m keys !! k).
Proof.
  induction keys as [|key keys IH]; intros m k; simpl.
  - intros [H|H]; [by apply elem_of_nil in H | exact H].
  - intros [H|H]; apply IH.
    + apply elem_of_cons in H as [->|H]; [right | by left].
      rewrite lookup_insert_eq. eauto.
    + right. destruct (decide (key = k)) as [->|Hne].
      * rewrite lookup_insert_eq. eauto.
      * by rewrite lookup_insert_ne.
Qed.

Lemma wf_init getenv st : __init__ getenv = Ok st -> wf st.
Proof.
  unfold __init__. destruct (_load_api_keys getenv) as [keys|e] eqn:E; [|done].
  intros [= <-]. split; simpl.
  - unfold _load_api_keys in E.
    destruct (_ ++ _) as [|k l]; [done|]. injection E as <-. simpl. lia.
  - intros k Hk. apply foldl_fresh_stats. by left.
Qed.

(** ** One attempt of [chat_completion] *)

Lemma try_attempt_spec env kwargs attempt api_key st :
  wf st ->
  exists key st1 s,
    _get_next_available_key (select_clock env attempt) st = (Ok key, st1) /\
    select_post (select_clock env attempt) st key st1 /\
    key_usage_stats st !! key = Some s /\
    let request := _maybe_adjust_request kwargs (Z.of_nat attempt) in
    let st2 := used_state (usage_clock env attempt) key s st1 in
    try_attempt env kwargs attempt api_key st =
      match dispatch env attempt key request with
      | Raise e => (Raise e, Some key, st2, [Dispatch attempt key request])
      | Ok response =>
          (Ok response, Some key, set_index (slot st2 1) st2, [Dispatch attempt key request])
      end.
Proof.
  intros Hwf.
  destruct (select_spec (select_clock env attempt) st Hwf) as (key & st1 & Hsel & Hpost).
  pose proof Hpost as (Hk & Hs & _ & Hwf1 & Hin & _).
  destruct (proj2 Hwf key Hin) as [s Hlook].
  exists key, st1, s. repeat split; try done; try apply Hpost.
  unfold try_attempt. rewrite Hsel.
  assert (Hlook1 : key_usage_stats st1 !! key = Some s) by (by rewrite Hs).
  rewrite (update_stats_ok _ _ _ _ Hlook1).
  destruct (dispatch env attempt key _) as [response|e]; [|done].
  fold (used_state (usage_clock env attempt) key s st1).
  rewrite rotate_ok; [done|]. by apply wf_insert_stats.
Qed.

(** One iteration of the retry loop, handler included, on a well-formed
    state. *)
Lemma attempts_loop_step env kwargs attempt todo last api_key st log :
  wf st ->
  exists key st1 s,
    select_post (select_clock env attempt) st key st1 /\
    _get_next_available_key (select_clock env attempt) st = (Ok key, st1) /\
    key_usage_stats st !! key = Some s /\
    let request := _maybe_adjust_request kwargs (Z.of_nat attempt) in
    let st2 := used_state (usage_clock env attempt) key s st1 in
    attempts_loop env kwargs (attempt :: todo) last api_key st log =
      match dispatch env attempt key request with
      | Ok response =>
          mkOutcome (Ok response) (set_index (slot st2 1) st2)
                    (log ++ [Dispatch attempt key request])
      | Raise e =>
          attempts_loop env kwargs todo (Some e) (Some key)
            (failed_state env attempt key s e st1)
            (log ++ [Dispatch attempt key request]
                 ++ (if Nat.ltb attempt (max_retries - 1)
                     then [Sleep attempt (retry_delay * 2 ^ Z.of_nat attempt)]
                     else []))
      end.
Proof.
  intros Hwf.
  destruct (try_attempt_spec env kwargs attempt api_key st Hwf)
    as (key & st1 & s & Hsel & Hpost & Hs & Htry).
  exists key, st1, s. repeat split; try done; try apply Hpost.
  cbn [attempts_loop]. cbv zeta in Htry. rewrite Htry.
  destruct (dispatch env attempt key _) as [response|e]; [done|].
  erewrite handle_api_error_ok by (simpl; apply lookup_insert_eq).
  cbv zeta. unfold failed_state, used_state. simpl.
  by rewrite insert_insert_eq.
Qed.

(** ** The retry loop as a state machine *)

Lemma dispatches_app l1 l2 : dispatches (l1 ++ l2) = dispatches l1 ++ dispatches l2.
Proof. apply omap_app. Qed.

Lemma failed_state_wf env attempt key s e st1 :
  wf st1 -> wf (failed_state env attempt key s e st1).
Proof. intros H. by apply wf_insert_stats. Qed.

(** The loop follows the state machine, keeps the state well formed and
    only dispatches with pool members. *)
Lemma attempts_loop_spec env kwargs : forall todo last api_key st log,
  wf st ->
  let out := attempts_loop env kwargs todo last api_key st log in
  wf (final out) /\
  api_keys (final out) = api_keys st /\
  exists ds,
    dispatches (events out) = dispatches log ++ ds /\
    Forall (fun d : Attempt => d.1.2 ∈ api_keys st) ds /\
    run env todo last ds (result out).
Proof.
  induction todo as [|attempt todo IH]; intros last api_key st log Hwf.
  - simpl. destruct last as [e|]; simpl; (split; [done|]); (split; [done|]);
      exists []; rewrite app_nil_r; repeat split; constructor.
  - destruct (attempts_loop_step env kwargs attempt todo last api_key st log Hwf)
      as (key & st1 & s & Hpost & _ & Hs & Hloop).
    cbv zeta in Hloop. cbv zeta. rewrite Hloop. clear Hloop.
    destruct Hpost as (Hk & _ & _ & Hwf1 & Hin & _).
    destruct (dispatch env attempt key _) as [response|e] eqn:Hd.
    + simpl. split; [|split; [done|]].
      * assert (Hwf2 : wf (used_state (usage_clock env attempt) key s st1))
          by (by apply wf_insert_stats).
        eapply wf_rotate; [exact Hwf2 | by apply rotate_ok].
      * eexists [_]. rewrite dispatches_app. simpl. repeat split.
        -- by apply Forall_singleton.
        -- by constructor.
    + match goal with
      | |- context [attempts_loop env kwargs todo ?l ?k ?s ?g] =>
          destruct (IH l k s g (failed_state_wf env attempt key _ e _ Hwf1))
            as (Hwf' & Hkeys & ds & Hds & Hall & Hrun)
      end.
      split; [exact Hwf'|]. split; [by rewrite Hkeys|].
      exists ((attempt, key, _maybe_adjust_request kwargs (Z.of_nat attempt)) :: ds).
      repeat split.
      * rewrite Hds, !dispatches_app.
        destruct (Nat.ltb attempt (max_retries - 1)); simpl;
          by rewrite <- app_assoc.
      * apply Forall_cons. split; [done|]. simpl in Hall. by rewrite Hk in Hall.
      * by econstructor.
Qed.

Lemma wf_chat_completion env kwargs st :
  wf st -> wf (final (chat_completion env kwargs st)).
Proof. intros Hwf. by apply attempts_loop_spec. Qed.

(** Every reachable state is well formed. *)
Lemma reachable_wf st : reachable st -> wf st.
Proof.
  induction 1.
  - by eapply wf_init.
  - by eapply wf_select.
  - by eapply wf_rotate.
  - by eapply wf_handle_api_error.
  - by apply wf_chat_completion.
  - by eapply wf_reset.
Qed.

(** ** The sample pools are reachable *)

Lemma demo_pool_init : __init__ demo_getenv = Ok demo_pool.
Proof. vm_compute. reflexivity. Qed.

Lemma demo_pool_reachable : reachable demo_pool.
Proof. eapply reach_init. exact demo_pool_init. Qed.

Lemma cooled_pool_reachable : reachable cooled_pool.
Proof.
  apply (reach_error 0 demo_key (TransportError "connection reset") demo_pool (Ok tt)).
  - exact demo_pool_reachable.
  - vm_compute. reflexivity.
Qed.

Lemma flaky_pool_reachable : reachable flaky_pool.
Proof. apply reach_chat. exact demo_pool_reachable. Qed.

(** ** Exhaustion of the retry budget *)

Lemma run_inv env todo last_error ds res :
  run env todo last_error ds res ->
  match res with
  | Ok response =>
      exists ds' d, ds = ds' ++ [d] /\ Forall (failed env) ds' /\
                    dispatch_of env d = Ok response
  | Raise e =>
      Forall (failed env) ds /\
      map (fun d : Attempt => d.1.1) ds = todo /\
      match last ds with
      | Some d => dispatch_of env d = Raise e
      | None => last_error = Some e \/ last_error = None
      end
  end.
Proof.
  induction 1 as [e | | n todo last_error key request response Hd
                  | n todo last_error key request e ds res Hd Hrun IH].
  - repeat split; [constructor | by left].
  - repeat split; [constructor | by right].
  - exists [], (n, key, request). repeat split; [constructor | exact Hd].
  - assert (Hfail : failed env (n, key, request))
      by (unfold failed, dispatch_of; simpl; by rewrite Hd).
    destruct res as [response|e'].
    + destruct IH as (ds' & d & -> & Hall & Hok).
      exists ((n, key, request) :: ds'), d. repeat split; [|exact Hok].
      by apply Forall_cons.
    + destruct IH as (Hall & Hmap & Hlast). repeat split.
      * by apply Forall_cons.
      * simpl. by rewrite Hmap.
      * destruct ds as [|d ds]; simpl.
        -- destruct Hlast as [[= ->]|[=]]. exact Hd.
        -- destruct (last (d :: ds)) eqn:E; [exact Hlast|].
           by apply last_None in E.
Qed.

Lemma failed_not_ok env d response :
  failed env d -> dispatch_of env d = Ok response -> False.
Proof. unfold failed. intros H E. by rewrite E in H. Qed.

(** C1.  On a reachable state [chat_completion] raises exactly when it
    made three dispatch attempts and all three failed; the error raised is
    the one of the third attempt; a dispatch that succeeds gives the result
    of the call.  With a pool of one credential whose dispatches always
    fail there are exactly three dispatch attempts and the call raises. *)
Theorem chat_completion_retries env kwargs st :
  reachable st ->
  let out := chat_completion env kwargs st in
  let ds := dispatches (events out) in
  (is_raise (result out) = true <-> length ds = 3%nat /\ Forall (failed env) ds) /\
  (forall e, result out = Raise e ->
     exists d, last ds = Some d /\ d.1.1 = 2%nat /\ dispatch_of env d = Raise e) /\
  (forall d response,
     d ∈ ds -> dispatch_of env d = Ok response -> result out = Ok response) /\
  (forall key,
     api_keys st = [key] ->
     (forall n request, is_raise (dispatch env n key request) = true) ->
     length ds = 3%nat /\ is_raise (result out) = true).
Proof.
  intros Hreach out ds.
  destruct (attempts_loop_spec env kwargs (seq 0 max_retries) None None st []
              (reachable_wf _ Hreach)) as (_ & _ & ds0 & Hds & Hpool & Hrun).
  fold (chat_completion env kwargs st) in Hds, Hrun. fold out in Hds, Hrun.
  simpl in Hds. fold ds in Hds. subst ds0.
  apply run_inv in Hrun.
  assert (Hraise : is_raise (result out) = true ->
                   length ds = 3%nat /\ Forall (failed env) ds).
  { destruct (result out) as [response|e]; [discriminate|]. intros _.
    destruct Hrun as (Hall & Hmap & _). split; [|exact Hall].
    apply (f_equal length) in Hmap. by rewrite length_map in Hmap. }
  assert (Hok : forall d response,
            d ∈ ds -> dispatch_of env d = Ok response -> result out = Ok response).
  { intros d response Hin Hd. destruct (result out) as [response'|e].
    - destruct Hrun as (ds' & d' & Hsplit & Hall & Hd').
      rewrite Hsplit in Hin. apply elem_of_app in Hin as [Hin|Hin].
      + rewrite Forall_forall in Hall. destruct (failed_not_ok _ _ _ (Hall _ Hin) Hd).
      + apply list_elem_of_singleton in Hin as ->. congruence.
    - destruct Hrun as (Hall & _). rewrite Forall_forall in Hall.
      destruct (failed_not_ok _ _ _ (Hall _ Hin) Hd). }
  assert (Hall_failed : Forall (failed env) ds -> is_raise (result out) = true).
  { intros Hall. destruct (result out) as [response|e]; [|done].
    destruct Hrun as (ds' & d & Hsplit & _ & Hd).
    rewrite Forall_forall in Hall.
    destruct (failed_not_ok env d response); [|exact Hd].
    apply Hall. rewrite Hsplit. apply elem_of_app. right. apply list_elem_of_here. }
  split; [|split; [|split]].
  - split; [exact Hraise | intros [_ Hall]; by apply Hall_failed].
  - intros e He. rewrite He in Hrun. destruct Hrun as (_ & Hmap & Hlast).
    destruct ds as [|d0 [|d1 [|d2 [|d3 ds]]]]; try discriminate.
    exists d2. simpl in *. repeat split; [congruence | exact Hlast].
  - exact Hok.
  - intros key Hkeys Hperm.
    assert (Hall : Forall (failed env) ds).
    { rewrite Hkeys in Hpool. eapply Forall_impl; [exact Hpool|].
      intros [[n k] r] Hk. simpl in Hk. apply list_elem_of_singleton in Hk as ->.
      apply Hperm. }
    pose proof (Hall_failed Hall) as Hr. split; [|exact Hr]. by apply Hraise.
Qed.

Lemma chat_completion_retries_witness :
  length (dispatches (events (chat_completion failing_env plain_request demo_pool))) = 3%nat /\
  is_raise (result (chat_completion failing_env plain_request demo_pool)) = true.
Proof.
  destruct (chat_completion_retries failing_env plain_request demo_pool
              demo_pool_reachable) as (_ & _ & _ & Hsingle).
  apply (Hsingle demo_key eq_refl). intros n request. reflexivity.
Defined.

(** The scenarios of the specification, run on the model. *)

Example scenario_two_keys :
  let out := chat_completion credit_env plain_request two_key_pool in
  result out = Ok "response" /\
  map (fun d : Attempt => (d.1.1, d.1.2)) (dispatches (events out))
    = [(0%nat, demo_key); (1%nat, other_key)] /\
  (credits_exhausted <$> key_usage_stats (final out) !! demo_key) = Some true /\
  key_cooldowns (final out) !! demo_key
    = Some (timedelta_seconds 2 + timedelta_minutes 30) /\
  (requests <$> key_usage_stats (final out) !! other_key) = Some 1.
Proof. vm_compute. repeat split. Qed.

Example scenario_rate_limited_three_times :
  let out := chat_completion failing_env plain_request demo_pool in
  is_raise (result out) = true /\
  length (dispatches (events out)) = 3%nat /\
  key_usage_stats (final out) !! demo_key
    = Some (mkStats 3 3 (Some (timedelta_seconds 1)) false true).
Proof. vm_compute. repeat split. Qed.

Example scenario_unknown_model :
  model (_maybe_adjust_request (mkRequest (Some "openai/gpt-4o") None []) 1)
    = Some "qwen/qwen-2.5-72b-instruct".
Proof. reflexivity. Qed.

(** ** Selection never fails *)

(** C2.  On a reachable state, whose pool is never empty, the selection
    raises nothing and returns a member of the pool.  When no candidate of
    the scan qualifies at the time it is examined, the key returned is the
    one at the first pool position holding the least error count. *)
Theorem select_key_total clock st :
  reachable st ->
  api_keys st <> [] /\
  exists key st',
    _get_next_available_key clock st = (Ok key, st') /\
    key ∈ api_keys st /\
    ((forall j, (j < length (api_keys st))%nat ->
                candidate_usable (clock j) st j = false) ->
     least_errors_first st key).
Proof.
  intros Hreach. pose proof (reachable_wf _ Hreach) as Hwf.
  split; [by apply wf_nonempty|].
  destruct (select_spec clock st Hwf) as (key & st' & Hsel & Hpost).
  exists key, st'. split; [exact Hsel|].
  destruct Hpost as (_ & _ & _ & _ & Hin & Hcases). split; [exact Hin|].
  intros Hnone. destruct Hcases as [(j & Hj & Hl & Hu & _)|(_ & Hleast & _)];
    [|exact Hleast].
  specialize (Hnone j Hj). unfold candidate_usable in Hnone.
  rewrite Hl in Hnone. congruence.
Qed.

Lemma select_key_total_witness :
  exists st',
    _get_next_available_key (fun _ => timedelta_seconds 1) cooled_pool = (Ok demo_key, st') /\
    least_errors_first cooled_pool demo_key.
Proof.
  destruct (select_key_total (fun _ => timedelta_seconds 1) cooled_pool
              cooled_pool_reachable) as (_ & key & st' & Hsel & Hin & Hleast).
  assert (key = demo_key) as ->.
  { apply list_elem_of_singleton in Hin. exact Hin. }
  exists st'. split; [exact Hsel|].
  apply Hleast. intros j Hj. simpl in Hj.
  assert (j = O) as -> by lia. reflexivity.
Defined.

(** ** Cooldowns and selection *)

(** C3, as stated, fails: when no key qualifies the fallback returns the
    key with the least errors without looking at cooldowns.  A pool of one
    key that is cooling down returns that key. *)
Lemma cooldown_does_not_exclude_key : ~ cooldown_excludes_key.
Proof.
  intros H.
  apply (H cooled_pool demo_key (timedelta_seconds 30) (timedelta_seconds 1)
           demo_key cooled_pool cooled_pool_reachable);
    [reflexivity | reflexivity | vm_compute; reflexivity | reflexivity].
Qed.

Lemma slot_onto st i :
  wf st -> (i < length (api_keys st))%nat ->
  exists j, (j < length (api_keys st))%nat /\ slot st j = i.
Proof.
  intros [Hi _] Hlt. set (n := length (api_keys st)) in *.
  exists ((i + n - current_key_index st) mod n)%nat. split.
  - apply Nat.mod_upper_bound. lia.
  - unfold slot. fold n. rewrite Nat.Div0.add_mod_idemp_r.
    replace (current_key_index st + (i + n - current_key_index st))%nat
      with (i + 1 * n)%nat by lia.
    rewrite Nat.Div0.mod_add. by apply Nat.mod_small.
Qed.

(** C3, amended.  Let [key] have a cooldown entry expiring at [until].
    While every clock reading of the call is before [until], the selection
    returns [key] only through the fallback: no candidate qualified and
    [key] is the first key with the least error count.  Once the readings
    are at or after [until] and both flags of [key] are clear, [key]
    qualifies: the selection returns it when the pointer is on it, removing
    the entry, and with [key] in the pool the key returned always
    qualifies. *)
Theorem cooldown_respected_by_scan clock st key until :
  reachable st ->
  key_cooldowns st !! key = Some until ->
  ((forall j, clock j < until) ->
   forall st',
     _get_next_available_key clock st = (Ok key, st') ->
     (forall j, (j < length (api_keys st))%nat ->
                candidate_usable (clock j) st j = false) /\
     least_errors_first st key) /\
  ((forall j, until <= clock j) ->
   flags_clear st key = true ->
   (forall j, is_usable (clock j) st key = true) /\
   (api_keys st !! current_key_index st = Some key ->
    exists st', _get_next_available_key clock st = (Ok key, st') /\
                key_cooldowns st' !! key = None) /\
   (key ∈ api_keys st ->
    exists key' st' j, _get_next_available_key clock st = (Ok key', st') /\
                       is_usable (clock j) st key' = true)).
Proof.
  intros Hreach Hcd. pose proof (reachable_wf _ Hreach) as Hwf.
  destruct (select_spec clock st Hwf) as (key' & st1 & Hsel & Hpost).
  destruct Hpost as (_ & _ & _ & _ & _ & Hcases).
  split.
  - intros Hbefore st' Hsel'. rewrite Hsel in Hsel'. injection Hsel' as -> ->.
    destruct Hcases as [(j & _ & _ & Hu & _)|(Hnone & Hleast & _)]; [|done].
    unfold is_usable, cooldown_live in Hu. rewrite Hcd in Hu.
    specialize (Hbefore j). apply Z.ltb_lt in Hbefore. by rewrite Hbefore in Hu.
  - intros Hafter Hflags.
    assert (Husable : forall j, is_usable (clock j) st key = true).
    { intros j. unfold is_usable, cooldown_live. rewrite Hcd, Hflags.
      specialize (Hafter j). apply Z.ltb_ge in Hafter. by rewrite Hafter. }
    split; [exact Husable|]. split.
    + intros Hptr.
      assert (H0 : candidate_usable (clock 0%nat) st 0 = true).
      { unfold candidate_usable. rewrite slot_0, Hptr by done. apply Husable. }
      destruct Hcases as [(j & _ & Hl & _ & Hfirst & _ & Hnone)|(Hnone & _)].
      * destruct j as [|j].
        -- rewrite slot_0, Hptr in Hl by done. injection Hl as <-.
           by exists st1.
        -- rewrite Hfirst in H0 by lia. discriminate.
      * rewrite Hnone in H0; [discriminate|].
        destruct Hwf as [Hi _]. lia.
    + intros Hin. exists key', st1.
      destruct Hcases as [(j & _ & _ & Hu & _)|(Hnone & _)]; [by exists j|].
      apply list_elem_of_lookup_1 in Hin as [i Hi].
      destruct (slot_onto st i Hwf (lookup_lt_Some _ _ _ Hi)) as (j & Hj & Hslot).
      specialize (Hnone j Hj). unfold candidate_usable in Hnone.
      rewrite Hslot, Hi, Husable in Hnone. discriminate.
Qed.

Lemma cooldown_respected_by_scan_witness :
  (forall st',
     _get_next_available_key (fun _ => timedelta_seconds 1) cooled_pool = (Ok demo_key, st') ->
     least_errors_first cooled_pool demo_key) /\
  (exists st',
     _get_next_available_key (fun _ => timedelta_seconds 30) cooled_pool = (Ok demo_key, st') /\
     key_cooldowns st' !! demo_key = None).
Proof.
  split.
  - intros st' Hsel.
    destruct (cooldown_respected_by_scan (fun _ => timedelta_seconds 1) cooled_pool
                demo_key (timedelta_seconds 30) cooled_pool_reachable eq_refl)
      as (Hbefore & _).
    apply (Hbefore (fun _ => eq_refl) st' Hsel).
  - destruct (cooldown_respected_by_scan (fun _ => timedelta_seconds 30) cooled_pool
                demo_key (timedelta_seconds 30) cooled_pool_reachable eq_refl)
      as (_ & Hafter).
    destruct (Hafter (fun _ => ltac:(vm_compute; discriminate)) eq_refl)
      as (_ & Hptr & _).
    apply Hptr. reflexivity.
Defined.

(** ** Usage accounting of an attempt *)

(** C7, as stated, fails: [requests] and [last_used] are written before
    the transport is called, so a failed dispatch has been counted too. *)
Lemma usage_recorded_on_failure_too : ~ usage_recorded_only_on_success.
Proof.
  intros H.
  destruct (H failing_env plain_request O demo_pool demo_key
              (_maybe_adjust_request plain_request 0)
              (TransportError "Error code: 429 - rate limit exceeded")
              fresh_stats (mkStats 1 1 (Some (timedelta_seconds 1)) false true)
              demo_pool_reachable) as [Hreq _];
    try (vm_compute; reflexivity).
  discriminate Hreq.
Qed.

(** C7, amended.  Every attempt dispatches once, with a pool member,
    after adding one to the [requests] of that key and setting its
    [last_used] to the time of the attempt, whether the dispatch then
    succeeds or fails.  A successful dispatch changes nothing else in the
    statistics of the key; a failed one also adds one to [errors], sets the
    flag of its error class and writes the cooldown entry.  The statistics
    of the other keys are untouched. *)
Theorem usage_recorded_before_dispatch env kwargs attempt last_error api_key st log :
  reachable st ->
  let out := attempts_loop env kwargs [attempt] last_error api_key st log in
  exists key request s s',
    dispatches (events out) = dispatches log ++ [(attempt, key, request)] /\
    key ∈ api_keys st /\
    key_usage_stats st !! key = Some s /\
    key_usage_stats (final out) !! key = Some s' /\
    requests s' = requests s + 1 /\
    last_used s' = Some (usage_clock env attempt) /\
    (forall k, k <> key -> key_usage_stats (final out) !! k = key_usage_stats st !! k) /\
    match dispatch env attempt key request with
    | Ok response =>
        result out = Ok response /\
        s' = record_usage (usage_clock env attempt) s
    | Raise e =>
        let c := classify (lower (str_exn e)) in
        result out = Raise e /\
        s' = apply_class c (record_usage (usage_clock env attempt) s) /\
        errors s' = errors s + 1 /\
        key_cooldowns (final out) !! key = Some (error_clock env attempt + cooldown_for c)
    end.
Proof.
  intros Hreach out. subst out.
  destruct (attempts_loop_step env kwargs attempt [] last_error api_key st log
              (reachable_wf _ Hreach))
    as (key & st1 & s & Hpost & _ & Hs & Hloop).
  cbv zeta in Hloop. rewrite Hloop. clear Hloop.
  destruct Hpost as (_ & Hstats & _ & _ & Hin & _).
  exists key, (_maybe_adjust_request kwargs (Z.of_nat attempt)), s.
  destruct (dispatch env attempt key _) as [response|e] eqn:Hd.
  - exists (record_usage (usage_clock env attempt) s). simpl.
    rewrite dispatches_app, lookup_insert_eq. repeat split; try done.
    intros k Hne. by rewrite lookup_insert_ne, Hstats.
  - exists (apply_class (classify (lower (str_exn e)))
                        (record_usage (usage_clock env attempt) s)).
    cbn [attempts_loop]. simpl.
    rewrite !dispatches_app, !lookup_insert_eq.
    repeat split; try done.
    + by destruct (Nat.ltb attempt _).
    + by destruct (classify _).
    + by destruct (classify _).
    + intros k Hne. by rewrite lookup_insert_ne, Hstats.
    + by destruct (classify _).
Qed.

Lemma usage_recorded_before_dispatch_witness :
  exists s',
    key_usage_stats (final (attempts_loop failing_env plain_request [O] None None
                              demo_pool [])) !! demo_key = Some s' /\
    requests s' = 1 /\ errors s' = 1 /\
    last_used s' = Some (timedelta_seconds 1).
Proof.
  destruct (usage_recorded_before_dispatch failing_env plain_request O None None
              demo_pool [] demo_pool_reachable)
    as (key & request & s & s' & _ & Hin & Hs & Hs' & Hreq & Hlast & _ & Hcase).
  apply list_elem_of_singleton in Hin. subst key.
  injection Hs as <-.
  exists s'. split; [exact Hs'|]. split; [exact Hreq|]. split; [|exact Hlast].
  destruct Hcase as (_ & _ & Herr & _). exact Herr.
Defined.

(** ** The status snapshot *)

Lemma keys_status_from_ok st : forall keys i,
  (forall k, k ∈ keys -> is_Some (key_usage_stats st !! k)) ->
  exists l,
    keys_status_from st i keys = Ok l /\
    map ks_available l = map (reported_available st) keys.
Proof.
  induction keys as [|key keys IH]; intros i Hall.
  - by exists [].
  - destruct (Hall key) as [s Hs]; [apply list_elem_of_here|].
    destruct (IH (S i)) as (l & Hl & Hmap).
    { intros k Hk. apply Hall. by apply list_elem_of_further. }
    cbn [keys_status_from]. unfold key_status. rewrite Hs, Hl.
    eexists. split; [reflexivity|]. simpl. rewrite Hmap. f_equal.
    unfold reported_available, flags_clear. by rewrite Hs.
Qed.

Lemma filter_length_map {A B} (f : A -> bool) (g : B -> bool) (l : list A) :
  forall l' : list B,
    map f l = map g l' ->
    length (List.filter f l) = length (List.filter g l').
Proof.
  induction l as [|x l IH]; intros [|y l'] H; try discriminate; [done|].
  simpl in *. injection H as Hxy Hrest. rewrite Hxy.
  destruct (g y); simpl; by rewrite (IH _ Hrest).
Qed.

(** The snapshot of a well-formed state: it is produced, its count of
    available keys is the number of pool positions that are
    [reported_available], and it is healthy exactly when that count is
    positive. *)
Lemma get_api_status_ok st :
  wf st ->
  exists status,
    get_api_status st = Ok status /\
    available_keys (summary status)
      = Z.of_nat (length (List.filter (reported_available st) (api_keys st))) /\
    (health_status (summary status) = "healthy" <-> 0 < available_keys (summary status)) /\
    (health_status (summary status) = "degraded" <-> available_keys (summary status) <= 0).
Proof.
  intros [_ Hstats]. unfold get_api_status.
  destruct (keys_status_from_ok st (api_keys st) O Hstats) as (l & -> & Hmap).
  eexists. split; [reflexivity|]. simpl. split.
  - unfold count_available. f_equal. by apply filter_length_map.
  - destruct (0 <? count_available l) eqn:E.
    + apply Z.ltb_lt in E. split; split; try done; lia.
    + apply Z.ltb_ge in E. split; split; try done; lia.
Qed.

(** When no cooldown entry has expired at [now], the snapshot's count is
    the number of pool positions whose key qualifies at [now]. *)
Lemma status_counts_usable_without_stale_entry st now :
  wf st ->
  (forall k until, key_cooldowns st !! k = Some until -> now < until) ->
  exists status,
    get_api_status st = Ok status /\
    available_keys (summary status)
      = Z.of_nat (length (List.filter (is_usable now st) (api_keys st))).
Proof.
  intros Hwf Hlive.
  destruct (get_api_status_ok st Hwf) as (status & Hst & Hcount & _).
  exists status. split; [exact Hst|]. rewrite Hcount. f_equal.
  apply filter_length_map. apply map_ext. intros k.
  unfold reported_available, is_usable, in_cooldown, cooldown_live.
  destruct (key_cooldowns st !! k) as [until|] eqn:E; simpl.
  - apply Hlive in E. apply Z.ltb_lt in E. rewrite E. simpl.
    by rewrite andb_false_r.
  - by rewrite andb_true_r.
Qed.

(** C8 at its failing input.  In [cooled_pool] the only key has no flag
    and a cooldown entry that expired at 30 seconds.  At 31 seconds the key
    qualifies for selection, and the selection does return it from the
    scan, yet the snapshot counts no available key and reports the pool as
    degraded: it tests the presence of the entry, not its expiry. *)
Lemma status_counts_expired_cooldown :
  is_usable (timedelta_seconds 31) cooled_pool demo_key = true /\
  fst (_get_next_available_key (fun _ => timedelta_seconds 31) cooled_pool) = Ok demo_key /\
  exists status,
    get_api_status cooled_pool = Ok status /\
    available_keys (summary status) = 0 /\
    health_status (summary status) = "degraded".
Proof.
  split; [reflexivity|]. split; [reflexivity|].
  eexists. split; [reflexivity|]. split; reflexivity.
Qed.

(** ** Rounding to a float *)

Lemma pow2_pos e : (0 < pow2 e)%Q.
Proof. apply Qpower_0_lt. reflexivity. Qed.

Lemma pow2_plus a b : (pow2 (a + b) == pow2 a * pow2 b)%Q.
Proof. apply Qpower_plus. discriminate. Qed.

Lemma pow2_nonneg_exp n : 0 <= n -> (pow2 n == inject_Z (2 ^ n))%Q.
Proof. intros Hn. unfold pow2. by rewrite Zpower_Qpower. Qed.

Lemma pow2_le a b : a <= b -> (pow2 a <= pow2 b)%Q.
Proof. intros H. apply Qpower_le_compat_l; [exact H | discriminate]. Qed.

Lemma pow2_S a : (pow2 (a + 1) == 2 * pow2 a)%Q.
Proof. rewrite pow2_plus. unfold pow2 at 2. rewrite Qpower_1_r. ring. Qed.

(** [Qlog2] is the integer part of the binary logarithm. *)
Lemma Qlog2_spec x :
  ~ (x == 0)%Q -> (pow2 (Qlog2 x) <= Qabs x < pow2 (Qlog2 x + 1))%Q.
Proof.
  intros Hx. unfold Qlog2.
  set (n := Z.abs (Qnum x)). set (d := Zpos (Qden x)).
  assert (Hn : 0 < n).
  { unfold n. destruct x as [[|p|p] q]; simpl; try lia. by destruct Hx. }
  assert (Hd : 0 < d) by (unfold d; lia).
  assert (Habs : (Qabs x == inject_Z n / inject_Z d)%Q).
  { destruct x as [xn xd]. unfold n, d. simpl. apply Qmake_Qdiv. }
  destruct (Z.log2_spec n Hn) as [Ha1 Ha2].
  destruct (Z.log2_spec d Hd) as [Hb1 Hb2].
  pose proof (Z.log2_nonneg n) as Ha0. pose proof (Z.log2_nonneg d) as Hb0.
  set (a := Z.log2 n) in *. set (b := Z.log2 d) in *.
  assert (Hk : forall c, (pow2 (a - b + c) == pow2 a * pow2 c / pow2 b)%Q).
  { intros c. replace (a - b + c) with (a + c + - b) by lia.
    rewrite !pow2_plus. unfold pow2 at 3. rewrite Qpower_opp. fold (pow2 b).
    field. pose proof (pow2_pos b). lra. }
  assert (HA : (pow2 a <= inject_Z n < 2 * pow2 a)%Q).
  { rewrite <- pow2_S, !pow2_nonneg_exp by lia.
    rewrite <- Zle_Qle, <- Zlt_Qlt. replace (a + 1) with (Z.succ a) by lia. lia. }
  assert (HB : (pow2 b <= inject_Z d < 2 * pow2 b)%Q).
  { rewrite <- pow2_S, !pow2_nonneg_exp by lia.
    rewrite <- Zle_Qle, <- Zlt_Qlt. replace (b + 1) with (Z.succ b) by lia. lia. }
  pose proof (pow2_pos a) as Hpa. pose proof (pow2_pos b) as Hpb.
  assert (HD : (0 < inject_Z d)%Q) by lra.
  destruct (Qle_bool (pow2 (a - b)) (Qabs x)) eqn:E.
  - apply Qle_bool_iff in E. split; [exact E|].
    rewrite Habs, (Hk 1). unfold pow2 at 2. rewrite Qpower_1_r.
    apply Qlt_shift_div_r; [exact HD|].
    assert (Heq : (pow2 a * 2 / pow2 b * inject_Z d
                   == (2 * pow2 a) * (inject_Z d / pow2 b))%Q) by (field; lra).
    rewrite Heq.
    assert (H1 : (1 <= inject_Z d / pow2 b)%Q)
      by (apply Qle_shift_div_l; [exact Hpb | lra]).
    nra.
  - assert (E' : (Qabs x < pow2 (a - b))%Q).
    { apply Qnot_le_lt. intros H. apply Qle_bool_iff in H. congruence. }
    split.
    + replace (a - b - 1) with (a - b + -1) by lia.
      rewrite Habs, (Hk (-1)).
      assert (Hm : (pow2 (-1) == 1 # 2)%Q) by reflexivity. rewrite Hm.
      apply Qle_shift_div_l; [exact HD|].
      assert (Heq : (pow2 a * (1 # 2) / pow2 b * inject_Z d
                     == pow2 a * (inject_Z d / (2 * pow2 b)))%Q) by (field; lra).
      rewrite Heq.
      assert (H1 : (inject_Z d / (2 * pow2 b) <= 1)%Q)
        by (apply Qle_shift_div_r; lra).
      assert (H2 : (0 <= inject_Z d / (2 * pow2 b))%Q)
        by (apply Qle_shift_div_l; lra).
      nra.
    + replace (a - b - 1 + 1) with (a - b) by lia. exact E'.
Qed.

(** [round_half_even] moves its argument by at most one half, and never
    across an integer. *)
Lemma round_half_even_error t :
  (Qabs (inject_Z (round_half_even t) - t) <= 1 # 2)%Q.
Proof.
  unfold round_half_even.
  pose proof (Qfloor_le t) as H1. pose proof (Qlt_floor t) as H2.
  rewrite inject_Z_plus in H2. change (inject_Z 1) with 1%Q in H2.
  apply Qabs_Qle_condition.
  destruct (Qcompare_spec (t - inject_Z (Qfloor t)) (1 # 2)) as [E|E|E].
  - destruct (Z.even (Qfloor t)); rewrite ?inject_Z_plus;
      change (inject_Z 1) with 1%Q; lra.
  - lra.
  - rewrite inject_Z_plus. change (inject_Z 1) with 1%Q. lra.
Qed.

Lemma round_half_even_le t N : (t <= inject_Z N)%Q -> round_half_even t <= N.
Proof.
  intros H. unfold round_half_even.
  pose proof (Qfloor_le t) as H1.
  assert (Hf : Qfloor t <= N).
  { rewrite Zle_Qle. lra. }
  destruct (Z.eq_dec (Qfloor t) N) as [->|Hne].
  - destruct (Qcompare_spec (t - inject_Z N) (1 # 2)) as [E|E|E]; [lra|lia|lra].
  - destruct (t - inject_Z (Qfloor t) ?= 1 # 2)%Q; [destruct (Z.even _)| |]; lia.
Qed.

Lemma round_half_even_nonneg t : (0 <= t)%Q -> 0 <= round_half_even t.
Proof.
  intros H. unfold round_half_even.
  assert (Hf : 0 <= Qfloor t).
  { change 0 with (Qfloor 0). by apply Qfloor_resp_le. }
  destruct (t - inject_Z (Qfloor t) ?= 1 # 2)%Q; [destruct (Z.even _)| |]; lia.
Qed.

(** The rounding error: half a unit in the last place, that is a
    relative [2^-53] for a result in the normal range and [2^-1075] below
    it. *)
Lemma round_float_error x :
  (Qabs (round_float x - x) <= Qabs x * pow2 (-53) + pow2 (-1075))%Q.
Proof.
  unfold round_float.
  pose proof (pow2_pos (-53)) as Hu. pose proof (pow2_pos (-1075)) as Heta.
  pose proof (Qabs_nonneg x) as Hx0.
  destruct (Qeq_bool x 0) eqn:E0.
  - apply Qeq_bool_iff in E0.
    assert (H : (Qabs (0 - x) == 0)%Q) by (rewrite E0; reflexivity).
    rewrite H. nra.
  - assert (Hx : ~ (x == 0)%Q).
    { intros H. apply Qeq_bool_iff in H. congruence. }
    set (e := float_exponent x).
    pose proof (pow2_pos e) as Hs.
    pose proof (round_half_even_error (x / pow2 e)) as Hr.
    set (m := inject_Z (round_half_even (x / pow2 e))) in *.
    assert (Heq : (m * pow2 e - x == (m - x / pow2 e) * pow2 e)%Q)
      by (field; lra).
    rewrite Heq, Qabs_Qmult, (Qabs_pos (pow2 e)) by lra.
    assert (Hhalf : (pow2 e * (1 # 2) <= Qabs x * pow2 (-53) + pow2 (-1075))%Q).
    { unfold e, float_exponent.
      destruct (Z.max_spec (Qlog2 x - 52) (-1074)) as [[_ ->]|[_ ->]].
      - assert (H : (pow2 (-1074) * (1 # 2) == pow2 (-1075))%Q).
        { change (1 # 2)%Q with (pow2 (-1)). by rewrite <- pow2_plus. }
        rewrite H. nra.
      - destruct (Qlog2_spec x Hx) as [Hlow _].
        assert (H : (pow2 (Qlog2 x - 52) * (1 # 2)
                     == pow2 (Qlog2 x) * pow2 (-53))%Q).
        { change (1 # 2)%Q with (pow2 (-1)). rewrite <- !pow2_plus.
          by replace (Qlog2 x - 52 + -1) with (Qlog2 x + -53) by lia. }
        rewrite H. nra. }
    pose proof (Qabs_nonneg (m - x / pow2 e)) as Hm0.
    nra.
Qed.

(** A value between 0 and an integer below [2^53] is rounded to a value
    between the same bounds. *)
Lemma round_float_bounded x A :
  A < 2 ^ 53 -> (0 <= x <= inject_Z A)%Q -> (0 <= round_float x <= inject_Z A)%Q.
Proof.
  intros HA [Hx0 HxA]. unfold round_float.
  destruct (Qeq_bool x 0) eqn:E0; [lra|].
  assert (Hx : ~ (x == 0)%Q).
  { intros H. apply Qeq_bool_iff in H. congruence. }
  set (e := float_exponent x).
  pose proof (pow2_pos e) as Hs.
  assert (He : e <= 0).
  { unfold e, float_exponent.
    destruct (Qlog2_spec x Hx) as [Hlow _]. rewrite Qabs_pos in Hlow by exact Hx0.
    assert (Hlt : (pow2 (Qlog2 x) < pow2 53)%Q).
    { rewrite (pow2_nonneg_exp 53) by lia.
      apply Qle_lt_trans with (inject_Z A); [lra|]. by rewrite <- Zlt_Qlt. }
    apply Qpower_lt_compat_l_inv in Hlt; [lia | reflexivity]. }
  assert (Hinv : (/ pow2 e == inject_Z (2 ^ (- e)))%Q).
  { rewrite <- pow2_nonneg_exp by lia. unfold pow2. by rewrite Qpower_opp. }
  assert (Ht0 : (0 <= x / pow2 e)%Q).
  { apply Qle_shift_div_l; [exact Hs | lra]. }
  assert (HtA : (x / pow2 e <= inject_Z (A * 2 ^ (- e)))%Q).
  { rewrite inject_Z_mult, <- Hinv. unfold Qdiv.
    apply Qmult_le_compat_r; [exact HxA|]. apply Qinv_le_0_compat. lra. }
  apply round_half_even_nonneg in Ht0. apply round_half_even_le in HtA.
  rewrite Zle_Qle in Ht0, HtA. rewrite inject_Z_mult, <- Hinv in HtA.
  change (inject_Z 0) with 0%Q in Ht0.
  set (m := inject_Z (round_half_even (x / pow2 e))) in *.
  split; [nra|].
  assert (H : (inject_Z A == inject_Z A * / pow2 e * pow2 e)%Q) by (field; lra).
  rewrite H. apply Qmult_le_compat_r; [exact HtA | lra].
Qed.

(** Two roundings in a row: a quotient, then its product with 100. *)
Lemma percent_rounding (u eta x q r : Q) :
  (0 <= u <= 1)%Q -> (0 <= eta)%Q ->
  (Qabs (q - x) <= Qabs x * u + eta)%Q ->
  (Qabs (r - q * 100) <= Qabs (q * 100) * u + eta)%Q ->
  (Qabs (r - x * 100) <= Qabs (x * 100) * (3 * u) + 201 * eta)%Q.
Proof.
  intros Hu Heta Hq Hr.
  rewrite Qabs_Qmult in *. change (Qabs 100) with 100%Q in *.
  pose proof (Qabs_triangle (q - x) x) as Htri.
  assert (E : (q - x + x == q)%Q) by ring. rewrite E in Htri. clear E.
  pose proof (Qabs_nonneg x) as Hx0. pose proof (Qabs_nonneg q) as Hq0.
  set (X := Qabs x) in *. set (B := Qabs q) in *.
  assert (HB : (B <= X + X * u + eta)%Q) by lra.
  assert (HXu : (0 <= X * u)%Q) by (apply Qmult_le_0_compat; lra).
  assert (H1 : (X * u * u <= X * u)%Q) by nra.
  assert (H2 : (eta * u <= eta)%Q) by nra.
  assert (H3 : (B * u <= (X + X * u + eta) * u)%Q)
    by (apply Qmult_le_compat_r; lra).
  assert (HBu : (B * u <= 2 * (X * u) + eta)%Q).
  { apply Qle_trans with ((X + X * u + eta) * u)%Q; [exact H3|].
    assert (E : ((X + X * u + eta) * u == X * u + X * u * u + eta * u)%Q) by ring.
    rewrite E. lra. }
  clear Htri HB H1 H2 H3.
  apply Qabs_Qle_condition in Hq, Hr. apply Qabs_Qle_condition.
  set (Xu := (X * u)%Q) in *. set (Bu := (B * u)%Q) in *.
  assert (E1 : (X * 100 * (3 * u) == 300 * Xu)%Q) by (unfold Xu; ring).
  assert (E2 : (B * 100 * u == 100 * Bu)%Q) by (unfold Bu; ring).
  rewrite E1. rewrite E2 in Hr. lra.
Qed.

Lemma pow2_neg_51 : (3 * pow2 (-53) <= pow2 (-51))%Q.
Proof. vm_compute. discriminate. Qed.

Lemma pow2_neg_1067 : (201 * pow2 (-1075) <= pow2 (-1067))%Q.
Proof. vm_compute. discriminate. Qed.

(** The rate against the exact percentage. *)
Lemma compute_error_rate_error e r :
  0 < r ->
  (Qabs (compute_error_rate e r - inject_Z e / inject_Z r * 100)
   <= Qabs (inject_Z e / inject_Z r * 100) * pow2 (-51) + pow2 (-1067))%Q.
Proof.
  intros Hr. unfold compute_error_rate. apply Z.ltb_lt in Hr. rewrite Hr.
  set (x := (inject_Z e / inject_Z r)%Q).
  pose proof (percent_rounding (pow2 (-53)) (pow2 (-1075)) x (round_float x)
                (round_float (round_float x * 100))) as H.
  pose proof (Qabs_nonneg (x * 100)) as HP.
  pose proof pow2_neg_51. pose proof pow2_neg_1067.
  pose proof (pow2_pos (-53)). pose proof (pow2_pos (-1075)).
  assert (Hu1 : (pow2 (-53) <= 1)%Q) by (vm_compute; discriminate).
  specialize (H ltac:(lra) ltac:(lra) (round_float_error _) (round_float_error _)).
  eapply Qle_trans; [exact H|].
  assert (Hrel : (Qabs (x * 100) * (3 * pow2 (-53)) <= Qabs (x * 100) * pow2 (-51))%Q).
  { rewrite !(Qmult_comm (Qabs (x * 100))). apply Qmult_le_compat_r; lra. }
  lra.
Qed.

(** Values of the rate as Python prints them: [50.0] for 1 error in 2
    requests, [33.33333333333333] for 1 in 3, and [7.000000000000001] for 7
    in 100, which is not the exact percentage 7. *)
Lemma compute_error_rate_samples :
  (compute_error_rate 1 2 == 50)%Q /\
  (compute_error_rate 1 3 == 2345624805922133 # 70368744177664)%Q /\
  (compute_error_rate 7 100 == 7881299347898369 # 1125899906842624)%Q /\
  ~ (compute_error_rate 7 100 == 7)%Q.
Proof.
  split; [vm_compute; reflexivity|]. split; [vm_compute; reflexivity|].
  split; [vm_compute; reflexivity|]. vm_compute. discriminate.
Qed.

(** Values of the rounding: a quotient with 53 significant bits, a tie at
    [2^53 + 1] going to the even significand, and two ties below the
    smallest normal number. *)
Lemma round_float_samples :
  (round_float (1 # 3) == 6004799503160661 # 18014398509481984)%Q /\
  (round_float 9007199254740993 == 9007199254740992)%Q /\
  (round_float (3 * pow2 (-1075)) == pow2 (-1073))%Q /\
  (round_float (pow2 (-1075)) == 0)%Q.
Proof. repeat split; vm_compute; reflexivity. Qed.

(** ** The error rate *)

(** C9, as stated, fails: the rate is a percentage.  With one error in
    two requests it is 50, not 1/2 (both values are exact in binary floating
    point). *)
Lemma error_rate_is_not_ratio : ~ error_rate_is_ratio.
Proof.
  intros H.
  destruct (get_api_status flaky_pool) as [status|e] eqn:E; [|discriminate E].
  specialize (H flaky_pool status flaky_pool_reachable E).
  vm_compute in E. injection E as <-.
  specialize (H eq_refl). vm_compute in H. discriminate H.
Qed.

(** C9, amended.  The totals of the snapshot are the sums of the
    per-credential counters.  When the total of requests is positive the
    rate is the percentage of errors as Python's floats compute it: the
    quotient of the two totals rounded to the nearest float, times 100,
    rounded again.  It lies within [|P| * 2^-51 + 2^-1067] of the exact
    percentage [P = 100 * total_errors / total_requests]. *)
Theorem error_rate_is_percentage st status :
  get_api_status st = Ok status ->
  0 < total_requests (summary status) ->
  total_requests (summary status) = sum_values requests (key_usage_stats st) /\
  total_errors (summary status) = sum_values errors (key_usage_stats st) /\
  error_rate (summary status)
  = round_float
      (round_float (inject_Z (total_errors (summary status))
                    / inject_Z (total_requests (summary status))) * 100) /\
  (Qabs (error_rate (summary status)
         - inject_Z (total_errors (summary status))
           / inject_Z (total_requests (summary status)) * 100)
   <= Qabs (inject_Z (total_errors (summary status))
            / inject_Z (total_requests (summary status)) * 100) * pow2 (-51)
      + pow2 (-1067))%Q.
Proof.
  unfold get_api_status.
  destruct (keys_status_from st 0 (api_keys st)) as [l|e]; [|discriminate].
  intros [= <-]. cbn [summary total_requests total_errors error_rate]. intros Hpos.
  split; [reflexivity|]. split; [reflexivity|]. split.
  - unfold compute_error_rate. apply Z.ltb_lt in Hpos. by rewrite Hpos.
  - by apply compute_error_rate_error.
Qed.

Lemma error_rate_is_percentage_witness :
  exists status,
    get_api_status flaky_pool = Ok status /\
    total_requests (summary status) = 2 /\
    total_errors (summary status) = 1 /\
    (error_rate (summary status) == 50)%Q.
Proof.
  destruct (get_api_status flaky_pool) as [status|e] eqn:E; [|discriminate E].
  exists status. split; [reflexivity|].
  assert (Hreq : total_requests (summary status) = 2)
    by (vm_compute in E; injection E as <-; reflexivity).
  assert (Herr : total_errors (summary status) = 1)
    by (vm_compute in E; injection E as <-; reflexivity).
  destruct (error_rate_is_percentage flaky_pool status E) as (_ & _ & Hrate & _).
  - rewrite Hreq. reflexivity.
  - split; [exact Hreq|]. split; [exact Herr|].
    rewrite Hrate, Hreq, Herr. vm_compute. reflexivity.
Defined.

(** * Further properties of the manager *)

(** ** Startup: [_load_api_keys] and [__init__] *)

Lemma nonempty_env_elem getenv name k :
  k ∈ nonempty_env getenv name <-> getenv name = Some k /\ k <> "".
Proof.
  unfold nonempty_env. destruct (getenv name) as [v|].
  - destruct (String.eqb v "") eqn:E.
    + apply String.eqb_eq in E. subst. rewrite elem_of_nil. split; [done|].
      intros [[= <-] H]. done.
    + apply String.eqb_neq in E. rewrite list_elem_of_singleton. split.
      * intros ->. done.
      * intros [[= ->] _]. done.
  - rewrite elem_of_nil. split; [done | intros [[=] _]].
Qed.

Lemma nonempty_env_nil getenv name :
  nonempty_env getenv name = [] <-> unset_or_empty getenv name.
Proof.
  unfold nonempty_env, unset_or_empty. destruct (getenv name) as [v|].
  - destruct (String.eqb v "") eqn:E.
    + apply String.eqb_eq in E. subst. split; [by right | done].
    + apply String.eqb_neq in E. split; [done|]. intros [[=]|[= ->]]. done.
  - split; [by left | done].
Qed.

Lemma nonempty_env_length getenv name : (length (nonempty_env getenv name) <= 1)%nat.
Proof.
  unfold nonempty_env. destruct (getenv name) as [v|]; [|simpl; lia].
  destruct (String.eqb v ""); simpl; lia.
Qed.

Lemma flat_map_length_le {A B} (f : A -> list B) (l : list A) :
  (forall x, (length (f x) <= 1)%nat) -> (length (flat_map f l) <= length l)%nat.
Proof.
  intros Hf. induction l as [|x l IH]; simpl; [lia|].
  rewrite length_app. specialize (Hf x). lia.
Qed.

Lemma flat_map_nil_iff {A B} (f : A -> list B) (l : list A) :
  flat_map f l = [] <-> forall x, x ∈ l -> f x = [].
Proof.
  induction l as [|x l IH]; simpl.
  - split; [intros _ y Hy; by apply elem_of_nil in Hy | done].
  - split.
    + intros H. apply app_eq_nil in H as [Hx Hl]. intros y Hy.
      apply elem_of_cons in Hy as [->|Hy]; [done|]. by apply IH.
    + intros H. rewrite (H x) by apply list_elem_of_here. simpl.
      apply IH. intros y Hy. apply H. by apply list_elem_of_further.
Qed.

(** The keys loaded are the non-empty values of the ten variables, in
    the order of [env_names]. *)
Lemma load_api_keys_unfold getenv :
  _load_api_keys getenv =
    match flat_map (nonempty_env getenv) env_names with
    | [] => Raise (ValueError "Nenhuma chave OpenRouter encontrada nas variáveis de ambiente")
    | keys => Ok keys
    end.
Proof.
  unfold _load_api_keys, env_names. simpl. rewrite app_nil_r.
  by destruct (_ ++ _)%list.
Qed.

Lemma foldl_fresh_lookup (keys : list string) : forall (m : gmap string KeyStats) k,
  foldl (fun m key => <[key := fresh_stats]> m) m keys !! k
  = if decide (k ∈ keys) then Some fresh_stats else m !! k.
Proof.
  induction keys as [|key keys IH]; intros m k; simpl.
  - destruct (decide (k ∈ [])) as [H|_]; [by apply elem_of_nil in H | done].
  - rewrite IH. destruct (decide (k ∈ keys)) as [Hin|Hnotin].
    + rewrite decide_True by (by apply list_elem_of_further). done.
    + destruct (decide (k = key)) as [->|Hne].
      * rewrite decide_True by apply list_elem_of_here. apply lookup_insert_eq.
      * rewrite decide_False.
        -- by rewrite lookup_insert_ne.
        -- intros H. apply elem_of_cons in H as [?|?]; done.
Qed.

(** X1.  Construction fails, with [ValueError], exactly when none of the
    ten environment variables holds a non-empty value; the pool is never
    built empty. *)
Theorem init_fails_without_keys getenv :
  (forall name, name ∈ env_names -> unset_or_empty getenv name) <->
  is_raise (__init__ getenv) = true.
Proof.
  unfold __init__. rewrite load_api_keys_unfold.
  split.
  - intros Hall.
    assert (E : flat_map (nonempty_env getenv) env_names = []).
    { apply flat_map_nil_iff. intros name Hname.
      apply nonempty_env_nil. by apply Hall. }
    by rewrite E.
  - intros Hraise name Hname. apply nonempty_env_nil.
    destruct (flat_map (nonempty_env getenv) env_names) as [|k l] eqn:E;
      [|discriminate].
    by apply (proj1 (flat_map_nil_iff _ _) E).
Qed.

Lemma init_fails_without_keys_witness :
  is_raise (__init__ (fun _ => Some "")) = true.
Proof.
  apply (proj1 (init_fails_without_keys (fun _ => Some ""))).
  intros name _. by right.
Defined.

Lemma init_ok getenv st :
  __init__ getenv = Ok st ->
  let keys := flat_map (nonempty_env getenv) env_names in
  keys <> [] /\
  st = mkManager keys 0 (foldl (fun m key => <[key := fresh_stats]> m) ∅ keys) ∅.
Proof.
  intros H keys. subst keys. unfold __init__ in H.
  rewrite load_api_keys_unfold in H.
  destruct (flat_map (nonempty_env getenv) env_names) as [|k0 l]; [done|].
  by injection H as <-.
Qed.

(** X2.  When construction succeeds the pool holds between 1 and 10
    keys: exactly the non-empty values of the variables, none of them
    empty.  The pointer is 0, no key has a cooldown entry, every pool key
    has zeroed statistics, no other key has statistics, and every pool key
    qualifies for selection at any time. *)
Theorem init_state_fresh getenv st :
  __init__ getenv = Ok st ->
  (1 <= length (api_keys st) <= 10)%nat /\
  (forall k, k ∈ api_keys st <->
             k <> "" /\ exists name, name ∈ env_names /\ getenv name = Some k) /\
  current_key_index st = O /\
  key_cooldowns st = ∅ /\
  (forall k, key_usage_stats st !! k
             = if decide (k ∈ api_keys st) then Some fresh_stats else None) /\
  (forall t k, k ∈ api_keys st -> is_usable t st k = true).
Proof.
  intros Hinit. destruct (init_ok _ _ Hinit) as [Hnonempty ->].
  cbn [api_keys current_key_index key_cooldowns key_usage_stats].
  assert (Hstats : forall k,
    foldl (fun m key => <[key := fresh_stats]> m) (∅ : gmap string KeyStats)
          (flat_map (nonempty_env getenv) env_names) !! k
    = if decide (k ∈ flat_map (nonempty_env getenv) env_names)
      then Some fresh_stats else None).
  { intros k. by rewrite foldl_fresh_lookup, lookup_empty. }
  split.
  { split.
    - destruct (flat_map (nonempty_env getenv) env_names); [done | simpl; lia].
    - transitivity (length env_names); [|simpl; lia].
      apply flat_map_length_le. apply nonempty_env_length. }
  split.
  { intros k. rewrite list_elem_of_In, in_flat_map. split.
    - intros (name & Hname & Hk).
      apply list_elem_of_In, nonempty_env_elem in Hk as [Hk Hne].
      split; [exact Hne|]. exists name. by rewrite list_elem_of_In.
    - intros (Hne & name & Hname & Hk). exists name.
      rewrite <- !list_elem_of_In. split; [exact Hname|].
      by apply nonempty_env_elem. }
  split; [reflexivity|]. split; [reflexivity|]. split; [exact Hstats|].
  intros t k Hk. unfold is_usable, cooldown_live, flags_clear. simpl.
  rewrite lookup_empty, Hstats, decide_True by exact Hk. done.
Qed.

Lemma init_state_fresh_witness :
  api_keys demo_pool = [demo_key] /\
  key_usage_stats demo_pool !! demo_key = Some fresh_stats.
Proof.
  destruct (init_state_fresh demo_getenv demo_pool demo_pool_init)
    as (_ & _ & _ & _ & Hstats & _).
  split; [reflexivity|]. rewrite Hstats. reflexivity.
Defined.

(** ** Operator reset: [reset_key_status] *)

Lemma clear_flags_idem s : clear_flags (clear_flags s) = clear_flags s.
Proof. reflexivity. Qed.

Lemma clear_all_flags_spec keys : forall st,
  (forall k, k ∈ keys -> is_Some (key_usage_stats st !! k)) ->
  exists st',
    clear_all_flags keys st = (Ok tt, st') /\
    api_keys st' = api_keys st /\
    current_key_index st' = current_key_index st /\
    key_cooldowns st' = key_cooldowns st /\
    forall k, key_usage_stats st' !! k
              = if decide (k ∈ keys) then clear_flags <$> key_usage_stats st !! k
                else key_usage_stats st !! k.
Proof.
  induction keys as [|key keys IH]; intros st Hall.
  - exists st. split; [done|]. split; [done|]. split; [done|]. split; [done|].
    intros k.
    destruct (decide (k ∈ [])) as [H|_]; [by apply elem_of_nil in H | done].
  - destruct (Hall key) as [s Hs]; [apply list_elem_of_here|].
    cbn [clear_all_flags]. unfold bind at 1. rewrite (update_stats_ok _ _ _ _ Hs).
    destruct (IH (set_stats (<[key := clear_flags s]> (key_usage_stats st)) st))
      as (st' & Hrun & Hk & Hi & Hc & Hlook).
    { intros k Hk. simpl. destruct (decide (key = k)) as [->|Hne].
      - rewrite lookup_insert_eq. eauto.
      - rewrite lookup_insert_ne by done. apply Hall. by apply list_elem_of_further. }
    exists st'. split; [exact Hrun|]. repeat split; try done.
    intros k. rewrite Hlook. simpl.
    destruct (decide (k = key)) as [->|Hne].
    + destruct (decide (key ∈ key :: keys)) as [_|Hn];
        [|exfalso; apply Hn, list_elem_of_here].
      rewrite lookup_insert_eq, Hs.
      by destruct (decide (key ∈ keys)).
    + rewrite lookup_insert_ne by done.
      destruct (decide (k ∈ keys)) as [Hin|Hnotin];
        destruct (decide (k ∈ key :: keys)) as [Hin'|Hnotin']; try done.
      * exfalso. apply Hnotin'. by apply list_elem_of_further.
      * exfalso. apply elem_of_cons in Hin' as [?|?]; done.
Qed.

Lemma filter_all_true {A} (f : A -> bool) (l : list A) :
  (forall x, x ∈ l -> f x = true) -> List.filter f l = l.
Proof.
  induction l as [|x l IH]; intros H; simpl; [done|].
  rewrite (H x) by apply list_elem_of_here. f_equal. apply IH.
  intros y Hy. apply H. by apply list_elem_of_further.
Qed.

(** X3.  Resetting every key never raises on a well-formed state.  It
    clears both flags of every pool key and empties the cooldowns while
    keeping the counters, [last_used], the pool and the pointer; afterwards
    every pool key qualifies at any time and the snapshot counts the whole
    pool as available and reports it healthy. *)
Theorem reset_all_restores_pool st :
  wf st ->
  exists st',
    reset_key_status None st = (Ok tt, st') /\
    api_keys st' = api_keys st /\
    current_key_index st' = current_key_index st /\
    key_cooldowns st' = ∅ /\
    (forall k, k ∈ api_keys st ->
       key_usage_stats st' !! k = clear_flags <$> key_usage_stats st !! k) /\
    (forall k, k ∉ api_keys st ->
       key_usage_stats st' !! k = key_usage_stats st !! k) /\
    (forall t k, k ∈ api_keys st -> is_usable t st' k = true) /\
    exists status,
      get_api_status st' = Ok status /\
      available_keys (summary status) = Z.of_nat (length (api_keys st)) /\
      health_status (summary status) = "healthy".
Proof.
  intros Hwf. pose proof Hwf as [Hidx Hstats].
  destruct (clear_all_flags_spec (api_keys st) st Hstats)
    as (st1 & Hrun & Hk & Hi & Hc & Hlook).
  exists (set_cooldowns ∅ st1).
  assert (Hreset : reset_key_status None st = (Ok tt, set_cooldowns ∅ st1)).
  { unfold reset_key_status, bind at 1, get. unfold bind. by rewrite Hrun. }
  assert (Hin : forall k, k ∈ api_keys st ->
            key_usage_stats st1 !! k = clear_flags <$> key_usage_stats st !! k).
  { intros k Hin. by rewrite Hlook, decide_True. }
  assert (Husable : forall t k, k ∈ api_keys st ->
            is_usable t (set_cooldowns ∅ st1) k = true).
  { intros t k Hkin. unfold is_usable, cooldown_live, flags_clear. simpl.
    rewrite lookup_empty, (Hin k Hkin).
    destruct (Hstats k Hkin) as [s ->]. done. }
  split; [exact Hreset|]. split; [exact Hk|]. split; [exact Hi|].
  split; [reflexivity|]. split; [exact Hin|].
  split. { intros k Hnotin. simpl. by rewrite Hlook, decide_False. }
  split; [exact Husable|].
  assert (Hwf' : wf (set_cooldowns ∅ st1)) by (by eapply wf_reset).
  destruct (get_api_status_ok _ Hwf') as (status & Hst & Hcount & Hhealthy & _).
  exists status. split; [exact Hst|].
  assert (Hall : available_keys (summary status) = Z.of_nat (length (api_keys st))).
  { rewrite Hcount. simpl. rewrite Hk. f_equal. f_equal.
    apply filter_all_true. intros k Hkin.
    specialize (Husable 0 k Hkin).
    unfold is_usable, cooldown_live in Husable. simpl in Husable.
    unfold reported_available, in_cooldown. simpl.
    rewrite lookup_empty in *. simpl in *. by rewrite andb_true_r. }
  split; [exact Hall|]. apply Hhealthy. rewrite Hall.
  destruct (api_keys st); simpl in *; lia.
Qed.

Lemma reset_all_restores_pool_witness :
  exists st',
    reset_key_status None cooled_pool = (Ok tt, st') /\
    is_usable 0 st' demo_key = true.
Proof.
  destruct (reset_all_restores_pool cooled_pool (reachable_wf _ cooled_pool_reachable))
    as (st' & Hrun & _ & _ & _ & _ & _ & Husable & _).
  exists st'. split; [exact Hrun|]. apply Husable. apply list_elem_of_here.
Defined.

(** X4.  Resetting by index: for an index inside the pool it clears both
    flags of the key at that position and removes its cooldown entry, so
    the key qualifies again at any time, and it leaves the counters of that
    key, the statistics and cooldown entries of every other key, the pool
    and the pointer as they were; for an index outside the pool, negative
    ones included, it changes nothing and raises nothing. *)
Theorem reset_one_key st i :
  wf st ->
  (forall key, 0 <= i -> api_keys st !! Z.to_nat i = Some key ->
     exists s st',
       key_usage_stats st !! key = Some s /\
       reset_key_status (Some i) st = (Ok tt, st') /\
       key_usage_stats st' !! key = Some (clear_flags s) /\
       key_cooldowns st' !! key = None /\
       (forall t, is_usable t st' key = true) /\
       (forall k, k <> key ->
          key_usage_stats st' !! k = key_usage_stats st !! k /\
          key_cooldowns st' !! k = key_cooldowns st !! k) /\
       api_keys st' = api_keys st /\
       current_key_index st' = current_key_index st) /\
  (i < 0 \/ Z.of_nat (length (api_keys st)) <= i ->
   reset_key_status (Some i) st = (Ok tt, st)).
Proof.
  intros Hwf. split.
  - intros key Hi Hkey.
    destruct (proj2 Hwf key) as [s Hs]; [by eapply list_elem_of_lookup_2|].
    exists s, (mkManager (api_keys st) (current_key_index st)
                 (<[key := clear_flags s]> (key_usage_stats st))
                 (delete key (key_cooldowns st))).
    split; [exact Hs|]. split.
    + unfold reset_key_status, bind at 1, get.
      apply lookup_lt_Some in Hkey as Hlt.
      assert (Hrange : ((0 <=? i) && (i <? Z.of_nat (length (api_keys st))))%bool = true).
      { apply andb_true_iff. split; [apply Z.leb_le | apply Z.ltb_lt]; lia. }
      rewrite Hrange. unfold bind at 1. rewrite Hkey.
      unfold bind at 1. rewrite (update_stats_ok _ _ _ _ Hs). reflexivity.
    + simpl. rewrite lookup_insert_eq, lookup_delete_eq.
      split; [done|]. split; [done|]. split.
      * intros t. unfold is_usable, cooldown_live, flags_clear. simpl.
        by rewrite lookup_delete_eq, lookup_insert_eq.
      * split; [|done]. intros k Hne.
        by rewrite lookup_insert_ne, lookup_delete_ne.
  - intros Hout. unfold reset_key_status, bind at 1, get.
    assert (Hrange : ((0 <=? i) && (i <? Z.of_nat (length (api_keys st))))%bool = false).
    { apply andb_false_iff. destruct Hout; [left; apply Z.leb_gt | right; apply Z.ltb_ge]; lia. }
    by rewrite Hrange.
Qed.

Lemma reset_one_key_witness :
  exists st',
    reset_key_status (Some 0) cooled_pool = (Ok tt, st') /\
    key_cooldowns st' !! demo_key = None /\
    reset_key_status (Some (-1)) cooled_pool = (Ok tt, cooled_pool).
Proof.
  destruct (reset_one_key cooled_pool 0 (reachable_wf _ cooled_pool_reachable))
    as (Hin & _).
  destruct (Hin demo_key ltac:(lia) eq_refl) as (s & st' & _ & Hrun & _ & Hcd & _).
  exists st'. split; [exact Hrun|]. split; [exact Hcd|].
  apply (reset_one_key cooled_pool (-1) (reachable_wf _ cooled_pool_reachable)).
  left. lia.
Defined.

(** ** What the methods keep *)

Lemma frame_refl st : frame st st.
Proof.
  split; [done|]. split; [|split; [done | by left]].
  intros k s Hs. exists s. split; [done | lia].
Qed.

Lemma frame_trans st1 st2 st3 : frame st1 st2 -> frame st2 st3 -> frame st1 st3.
Proof.
  intros (Hk1 & Hc1 & Hn1 & Hd1) (Hk2 & Hc2 & Hn2 & Hd2).
  split; [congruence|]. split; [|split].
  - intros k s Hs. destruct (Hc1 k s Hs) as (s' & Hs' & ? & ?).
    destruct (Hc2 k s' Hs') as (s'' & Hs'' & ? & ?).
    exists s''. split; [done | lia].
  - intros k Hk. by apply Hn2, Hn1.
  - intros k Hk. destruct (Hd2 k Hk) as [H|H].
    + by apply Hd1.
    + right. destruct (key_usage_stats st1 !! k) eqn:E; [eauto|].
      rewrite (Hn1 k E) in H. by destruct H.
Qed.

(** Writing new statistics that do not lower the counters under a key
    that has some, and any cooldowns that are new only under that key. *)
Lemma frame_insert st key s s' idx cds :
  key_usage_stats st !! key = Some s ->
  requests s <= requests s' -> errors s <= errors s' ->
  (forall k, is_Some (cds !! k) -> is_Some (key_cooldowns st !! k) \/ k = key) ->
  frame st (mkManager (api_keys st) idx (<[key := s']> (key_usage_stats st)) cds).
Proof.
  intros Hs Hr He Hcd. split; [done|]. split; [|split]; simpl.
  - intros k s0 Hk. destruct (decide (key = k)) as [->|Hne].
    + rewrite lookup_insert_eq. exists s'. split; [done|]. 
      rewrite Hs in Hk. injection Hk as <-. lia.
    + rewrite lookup_insert_ne by done. exists s0. split; [done | lia].
  - intros k Hk. destruct (decide (key = k)) as [->|Hne]; [congruence|].
    by rewrite lookup_insert_ne.
  - intros k Hk. destruct (Hcd k Hk) as [H| ->]; [by left | right; eauto].
Qed.

Lemma subseteq_is_Some (m1 m2 : gmap string Time) k :
  m1 ⊆ m2 -> is_Some (m1 !! k) -> is_Some (m2 !! k).
Proof.
  intros Hsub [t Ht]. exists t. by eapply lookup_weaken.
Qed.

Lemma attempt_trans_frame st st' : attempt_trans st st' -> frame st st'.
Proof.
  intros [st1 key s now (Hk & Hs & Hcd & _ & _ & Hlook)
         | st1 key s env attempt e (Hk & Hs & Hcd & _ & _ & Hlook)].
  - unfold used_state, set_index, set_stats. simpl. rewrite Hk, Hs.
    apply (frame_insert st key s); simpl; try done; try lia.
    intros k Hsome. left. by eapply subseteq_is_Some.
  - unfold failed_state. rewrite Hk, Hs.
    apply (frame_insert st key s); try done.
    + destruct (classify _); simpl; lia.
    + destruct (classify _); simpl; lia.
    + intros k Hsome. destruct (decide (key = k)) as [->|Hne]; [by right|].
      rewrite lookup_insert_ne in Hsome by done. left.
      by eapply subseteq_is_Some.
Qed.

Lemma attempt_trans_wf st st' : wf st -> attempt_trans st st' -> wf st'.
Proof.
  intros Hwf [st1 key s now (_ & _ & _ & Hwf1 & _)
             | st1 key s env attempt e (_ & _ & _ & Hwf1 & _)].
  - assert (Hwf2 : wf (used_state now key s st1)) by (by apply wf_insert_stats).
    eapply wf_rotate; [exact Hwf2 | by apply rotate_ok].
  - by apply failed_state_wf.
Qed.

(** A call of the retry loop is a sequence of attempts. *)
Lemma attempts_loop_trans env kwargs : forall todo last_error api_key st log,
  wf st ->
  rtc attempt_trans st (final (attempts_loop env kwargs todo last_error api_key st log)).
Proof.
  induction todo as [|attempt todo IH]; intros last_error api_key st log Hwf.
  - simpl. destruct last_error; apply rtc_refl.
  - destruct (attempts_loop_step env kwargs attempt todo last_error api_key st log Hwf)
      as (key & st1 & s & Hpost & _ & Hs & Hloop).
    cbv zeta in Hloop. rewrite Hloop. clear Hloop.
    assert (Hgrant : select_granted st st1 key s).
    { destruct Hpost as (Hk & Hst & Hcd & Hwf1 & Hin & _).
      exact (conj Hk (conj Hst (conj Hcd (conj Hwf1 (conj Hin Hs))))). }
    destruct (dispatch env attempt key _) as [response|e].
    + simpl. apply rtc_once. by apply after_success.
    + eapply rtc_l; [by apply (after_failure st st1 key s env attempt e)|].
      apply IH. apply failed_state_wf. apply Hgrant.
Qed.

Lemma rtc_attempt_frame st st' :
  wf st -> rtc attempt_trans st st' -> frame st st' /\ wf st'.
Proof.
  intros Hwf Hrtc. induction Hrtc as [st|st st1 st2 Hstep _ IH].
  - split; [apply frame_refl | done].
  - destruct (IH (attempt_trans_wf _ _ Hwf Hstep)) as [Hf Hwf2].
    split; [|done]. eapply frame_trans; [by apply attempt_trans_frame | done].
Qed.

Lemma chat_completion_frame env kwargs st :
  wf st -> frame st (final (chat_completion env kwargs st)).
Proof.
  intros Hwf. apply rtc_attempt_frame; [done|]. by apply attempts_loop_trans.
Qed.

Lemma select_frame clock st r st' :
  wf st -> _get_next_available_key clock st = (r, st') -> frame st st'.
Proof.
  intros Hwf. destruct (select_spec clock st Hwf) as (key & st1 & -> & Hpost).
  intros [= <- <-]. destruct Hpost as (Hk & Hs & Hcd & _).
  split; [done|]. rewrite Hs. split; [|split; [done|]].
  - intros k s Hl. exists s. split; [done | lia].
  - intros k Hsome. left. by eapply subseteq_is_Some.
Qed.

Lemma rotate_frame st r st' :
  wf st -> _rotate_to_next_key st = (r, st') -> frame st st'.
Proof.
  intros Hwf. rewrite (rotate_ok _ Hwf). intros [= <- <-].
  split; [done|]. split; [|split; [done | by left]].
  intros k s Hs. exists s. split; [done | lia].
Qed.

Lemma handle_api_error_frame now key error st r st' :
  _handle_api_error now key error st = (r, st') -> frame st st'.
Proof.
  destruct (key_usage_stats st !! key) as [s|] eqn:Hs.
  - rewrite (handle_api_error_ok _ _ _ _ _ Hs). intros [= <- <-].
    apply (frame_insert st key s); try done.
    + destruct (classify _); simpl; lia.
    + destruct (classify _); simpl; lia.
    + intros k Hsome. destruct (decide (key = k)) as [->|Hne]; [by right|].
      rewrite lookup_insert_ne in Hsome by done. by left.
  - unfold _handle_api_error, bind at 1, update_stats, bind, stats_of.
    rewrite Hs. intros [= <- <-]. apply frame_refl.
Qed.

Lemma update_clear_flags_frame key st r st' :
  update_stats key clear_flags st = (r, st') -> frame st st'.
Proof.
  unfold update_stats, bind, stats_of, modify.
  destruct (key_usage_stats st !! key) as [s|] eqn:Hs; intros [= <- <-].
  - apply (frame_insert st key s); simpl; try done; try lia. by left.
  - apply frame_refl.
Qed.

Lemma clear_all_flags_frame keys : forall st r st',
  clear_all_flags keys st = (r, st') -> frame st st'.
Proof.
  induction keys as [|key keys IH]; intros st r st'; simpl.
  - intros [= <- <-]. apply frame_refl.
  - unfold bind at 1. destruct (update_stats key clear_flags st) as [[[]|e] st1] eqn:E.
    + intros H. eapply frame_trans; [by eapply update_clear_flags_frame | by eapply IH].
    + intros [= <- <-]. by eapply update_clear_flags_frame.
Qed.

Lemma drop_cooldowns_frame st cds :
  (forall k, is_Some (cds !! k) -> is_Some (key_cooldowns st !! k)) ->
  frame st (set_cooldowns cds st).
Proof.
  intros H. split; [done|]. split; [|split; [done|]].
  - intros k s Hs. exists s. split; [done | lia].
  - intros k Hk. left. by apply H.
Qed.

Lemma reset_frame key_index st r st' :
  reset_key_status key_index st = (r, st') -> frame st st'.
Proof.
  unfold reset_key_status. destruct key_index as [i|].
  - unfold bind at 1, get.
    destruct ((0 <=? i) && (i <? Z.of_nat (length (api_keys st))))%bool;
      [|intros [= <- <-]; apply frame_refl].
    unfold bind at 1. destruct (api_keys st !! Z.to_nat i) as [key|];
      [|intros [= <- <-]; apply frame_refl].
    unfold bind at 1.
    destruct (update_stats key clear_flags st) as [[[]|e] st1] eqn:E.
    + unfold cooldown_del, modify. intros [= <- <-].
      eapply frame_trans; [by eapply update_clear_flags_frame|].
      apply drop_cooldowns_frame. intros k [t Ht].
      destruct (decide (key = k)) as [->|Hne].
      * by rewrite lookup_delete_eq in Ht.
      * rewrite lookup_delete_ne in Ht by done. eauto.
    + intros [= <- <-]. by eapply update_clear_flags_frame.
  - unfold bind at 1, get. unfold bind at 1.
    destruct (clear_all_flags (api_keys st) st) as [[[]|e] st1] eqn:E.
    + unfold modify. intros [= <- <-].
      eapply frame_trans; [by eapply clear_all_flags_frame|].
      apply drop_cooldowns_frame. intros k [t Ht]. by rewrite lookup_empty in Ht.
    + intros [= <- <-]. by eapply clear_all_flags_frame.
Qed.

(** X5.  No method called on a reachable state changes the pool, gives a
    statistics entry to a new key or removes one, lowers a [requests] or
    [errors] counter, or writes a cooldown entry under a key without
    statistics. *)
Theorem methods_keep_pool_and_counters st st' :
  reachable st -> method_step st st' -> frame st st'.
Proof.
  intros Hreach Hstep. pose proof (reachable_wf _ Hreach) as Hwf.
  destruct Hstep.
  - by eapply select_frame.
  - by eapply rotate_frame.
  - by eapply handle_api_error_frame.
  - by apply chat_completion_frame.
  - by eapply reset_frame.
Qed.

Lemma methods_keep_pool_and_counters_witness :
  api_keys flaky_pool = api_keys demo_pool /\
  exists s', key_usage_stats flaky_pool !! demo_key = Some s' /\
             0 <= requests s' /\ 0 <= errors s'.
Proof.
  destruct (methods_keep_pool_and_counters demo_pool flaky_pool demo_pool_reachable
              (step_chat flaky_env plain_request demo_pool))
    as (Hk & Hc & _).
  split; [exact Hk|].
  destruct (Hc demo_key fresh_stats eq_refl) as (s' & Hs' & Hr & He).
  exists s'. split; [exact Hs'|]. split; assumption.
Defined.

Lemma frame_tables st st' : frame st st' -> tables_match st -> tables_match st'.
Proof.
  intros (Hk & Hc & Hn & Hd) [Hs Hcd]. split.
  - intros k. rewrite Hk, <- Hs. split.
    + intros Hsome. destruct (key_usage_stats st !! k) eqn:E; [eauto|].
      rewrite (Hn k E) in Hsome. by destruct Hsome.
    + intros [s E]. destruct (Hc k s E) as (s' & -> & _). eauto.
  - intros k Hsome. rewrite Hk. destruct (Hd k Hsome) as [H|H].
    + by apply Hcd.
    + by apply Hs.
Qed.

(** X6.  In every reachable state the two dictionaries are indexed by
    the pool: a key has statistics exactly when it is in the pool, and
    only pool keys have a cooldown entry. *)
Theorem reachable_tables_match st : reachable st -> tables_match st.
Proof.
  induction 1 as [getenv st Hinit| | | | |].
  - destruct (init_ok _ _ Hinit) as [_ ->]. split; simpl.
    + intros k. rewrite foldl_fresh_lookup, lookup_empty.
      destruct (decide (k ∈ _)) as [Hin|Hnotin]; split; intros H;
        try done; try (by eauto); by destruct H.
    + intros k [t Ht]. by rewrite lookup_empty in Ht.
  - eapply frame_tables; [|done]. eapply select_frame; [by apply reachable_wf | done].
  - eapply frame_tables; [|done]. eapply rotate_frame; [by apply reachable_wf | done].
  - eapply frame_tables; [|done]. by eapply handle_api_error_frame.
  - eapply frame_tables; [|done]. apply chat_completion_frame. by apply reachable_wf.
  - eapply frame_tables; [|done]. by eapply reset_frame.
Qed.

Lemma reachable_tables_match_witness :
  is_Some (key_cooldowns cooled_pool !! demo_key) /\
  demo_key ∈ api_keys cooled_pool.
Proof.
  assert (H : is_Some (key_cooldowns cooled_pool !! demo_key)).
  { eexists. vm_compute. reflexivity. }
  split; [exact H|].
  apply (reachable_tables_match cooled_pool cooled_pool_reachable). exact H.
Defined.

(** ** Errors never outnumber requests *)

Lemma sum_values_empty (f : KeyStats -> Z) : sum_values f ∅ = 0.
Proof. unfold sum_values. apply map_fold_empty. Qed.

Lemma sum_values_insert (f : KeyStats -> Z) (m : gmap string KeyStats) k s :
  m !! k = None -> sum_values f (<[k := s]> m) = sum_values f m + f s.
Proof.
  intros Hk. unfold sum_values. rewrite map_fold_insert_L; [done| |done].
  intros. lia.
Qed.

Lemma sum_values_le (f g : KeyStats -> Z) (m : gmap string KeyStats) :
  (forall k s, m !! k = Some s -> f s <= g s) ->
  sum_values f m <= sum_values g m.
Proof.
  induction m as [|k s m Hk IH] using map_ind; intros H.
  - by rewrite !sum_values_empty.
  - rewrite !sum_values_insert by done.
    assert (f s <= g s) by (apply (H k); apply lookup_insert_eq).
    assert (sum_values f m <= sum_values g m).
    { apply IH. intros k' s' Hk'. apply (H k').
      rewrite lookup_insert_ne; [done|]. intros ->. congruence. }
    lia.
Qed.

Lemma sum_values_nonneg (f : KeyStats -> Z) (m : gmap string KeyStats) :
  (forall k s, m !! k = Some s -> 0 <= f s) -> 0 <= sum_values f m.
Proof.
  induction m as [|k s m Hk IH] using map_ind; intros H.
  - by rewrite sum_values_empty.
  - rewrite sum_values_insert by done.
    assert (0 <= f s) by (apply (H k); apply lookup_insert_eq).
    assert (0 <= sum_values f m).
    { apply IH. intros k' s' Hk'. apply (H k').
      rewrite lookup_insert_ne; [done|]. intros ->. congruence. }
    lia.
Qed.

Lemma counters_sane_insert st key s' idx cds :
  counters_sane st ->
  0 <= errors s' <= requests s' ->
  counters_sane (mkManager (api_keys st) idx (<[key := s']> (key_usage_stats st)) cds).
Proof.
  intros Hsane Hs' k s. simpl. destruct (decide (key = k)) as [->|Hne].
  - rewrite lookup_insert_eq. by intros [= <-].
  - rewrite lookup_insert_ne by done. apply Hsane.
Qed.

Lemma attempt_trans_sane st st' :
  counters_sane st -> attempt_trans st st' -> counters_sane st'.
Proof.
  intros Hsane [st1 key s now (Hk & Hs & _ & _ & _ & Hlook)
               | st1 key s env attempt e (Hk & Hs & _ & _ & _ & Hlook)];
    pose proof (Hsane key s Hlook) as Hks.
  - unfold used_state, set_index, set_stats. simpl. rewrite Hk, Hs.
    apply (counters_sane_insert st); [done|]. simpl. lia.
  - unfold failed_state. rewrite Hk, Hs.
    apply (counters_sane_insert st); [done|].
    destruct (classify _); simpl; lia.
Qed.

Lemma update_clear_flags_sane key st r st' :
  counters_sane st -> update_stats key clear_flags st = (r, st') -> counters_sane st'.
Proof.
  intros Hsane. unfold update_stats, bind, stats_of, modify.
  destruct (key_usage_stats st !! key) as [s|] eqn:Hs; intros [= <- <-]; [|done].
  apply (counters_sane_insert st); [done|]. simpl. by apply (Hsane key).
Qed.

Lemma clear_all_flags_sane keys : forall st r st',
  counters_sane st -> clear_all_flags keys st = (r, st') -> counters_sane st'.
Proof.
  induction keys as [|key keys IH]; intros st r st' Hsane; simpl.
  - by intros [= <- <-].
  - unfold bind at 1. destruct (update_stats key clear_flags st) as [[[]|e] st1] eqn:E.
    + apply IH. by eapply update_clear_flags_sane.
    + intros [= <- <-]. by eapply update_clear_flags_sane.
Qed.

Lemma reset_sane key_index st r st' :
  counters_sane st -> reset_key_status key_index st = (r, st') -> counters_sane st'.
Proof.
  intros Hsane. unfold reset_key_status. destruct key_index as [i|].
  - unfold bind at 1, get.
    destruct ((0 <=? i) && (i <? Z.of_nat (length (api_keys st))))%bool;
      [|by intros [= <- <-]].
    unfold bind at 1. destruct (api_keys st !! Z.to_nat i) as [key|];
      [|by intros [= <- <-]].
    unfold bind at 1.
    destruct (update_stats key clear_flags st) as [[[]|e] st1] eqn:E.
    + unfold cooldown_del, modify. intros [= <- <-].
      assert (H1 : counters_sane st1) by (by eapply update_clear_flags_sane).
      exact H1.
    + intros [= <- <-]. by eapply update_clear_flags_sane.
  - unfold bind at 1, get. unfold bind at 1.
    destruct (clear_all_flags (api_keys st) st) as [[[]|e] st1] eqn:E.
    + unfold modify. intros [= <- <-].
      assert (H1 : counters_sane st1) by (by eapply clear_all_flags_sane).
      exact H1.
    + intros [= <- <-]. by eapply clear_all_flags_sane.
Qed.

Lemma public_reachable_reachable st : public_reachable st -> reachable st.
Proof.
  induction 1.
  - by eapply reach_init.
  - by apply reach_chat.
  - by eapply reach_reset.
Qed.

Lemma public_reachable_sane st : public_reachable st -> counters_sane st.
Proof.
  induction 1 as [getenv st Hinit | env kwargs st Hreach IH | key_index st r st' Hreach IH Hreset].
  - destruct (init_ok _ _ Hinit) as [_ ->]. intros k s. simpl.
    rewrite foldl_fresh_lookup, lookup_empty.
    destruct (decide (k ∈ _)); [|done]. intros [= <-]. simpl. lia.
  - pose proof (reachable_wf _ (public_reachable_reachable _ Hreach)) as Hwf.
    pose proof (attempts_loop_trans env kwargs (seq 0 max_retries) None None st [] Hwf)
      as Hrtc.
    fold (chat_completion env kwargs st) in Hrtc.
    clear Hwf Hreach. induction Hrtc as [|st st1 st2 Hstep _ IH2]; [done|].
    apply IH2. by eapply attempt_trans_sane.
  - by eapply reset_sane.
Qed.

(** X7.  In a state reached through the public methods (construction,
    [chat_completion], [reset_key_status]) no key has more errors than
    requests, so the snapshot's total of errors is between 0 and its total
    of requests and its error rate is between 0 and 100. *)
Theorem error_rate_within_percent st status :
  public_reachable st ->
  get_api_status st = Ok status ->
  counters_sane st /\
  0 <= total_errors (summary status) <= total_requests (summary status) /\
  (0 <= error_rate (summary status) <= 100)%Q.
Proof.
  intros Hreach Hstatus. pose proof (public_reachable_sane _ Hreach) as Hsane.
  split; [exact Hsane|].
  unfold get_api_status in Hstatus.
  destruct (keys_status_from st 0 (api_keys st)) as [l|e]; [|discriminate].
  injection Hstatus as <-. simpl.
  assert (H0 : 0 <= sum_values errors (key_usage_stats st)).
  { apply sum_values_nonneg. intros k s Hs. by apply (Hsane k). }
  assert (H1 : sum_values errors (key_usage_stats st)
               <= sum_values requests (key_usage_stats st)).
  { apply sum_values_le. intros k s Hs. by apply (Hsane k). }
  split; [lia|].
  unfold compute_error_rate.
  destruct (0 <? sum_values requests (key_usage_stats st)) eqn:Hpos;
    [|split; discriminate].
  apply Z.ltb_lt in Hpos.
  set (e := sum_values errors (key_usage_stats st)) in *.
  set (r := sum_values requests (key_usage_stats st)) in *.
  assert (Hr : (0 < inject_Z r)%Q).
  { change 0%Q with (inject_Z 0). by rewrite <- Zlt_Qlt. }
  assert (Hq : (0 <= inject_Z e / inject_Z r <= inject_Z 1)%Q).
  { split.
    - apply Qle_shift_div_l; [exact Hr|]. rewrite Qmult_0_l.
      change 0%Q with (inject_Z 0). by rewrite <- Zle_Qle.
    - apply Qle_shift_div_r; [exact Hr|]. change (inject_Z 1) with 1%Q.
      rewrite Qmult_1_l. by rewrite <- Zle_Qle. }
  apply (round_float_bounded _ 1) in Hq; [|reflexivity].
  change (inject_Z 1) with 1%Q in Hq.
  apply (round_float_bounded _ 100); [reflexivity|].
  change (inject_Z 100) with 100%Q. lra.
Qed.

Lemma flaky_pool_public : public_reachable flaky_pool.
Proof. apply public_chat. eapply public_init. exact demo_pool_init. Qed.

Lemma error_rate_within_percent_witness :
  exists status,
    get_api_status flaky_pool = Ok status /\
    (0 <= error_rate (summary status) <= 100)%Q.
Proof.
  destruct (get_api_status flaky_pool) as [status|e] eqn:E; [|discriminate E].
  exists status. split; [reflexivity|].
  apply (error_rate_within_percent flaky_pool status flaky_pool_public E).
Defined.

(** ** The log of a call: requests sent and backoff *)

Lemma attempts_loop_log env kwargs : forall todo last_error api_key st log,
  wf st ->
  let out := attempts_loop env kwargs todo last_error api_key st log in
  exists ds,
    events out = log ++ flat_map (event_block env) ds /\
    map (fun d : Attempt => d.1.1) ds `prefix_of` todo /\
    (todo <> [] -> ds <> []) /\
    Forall (fun d : Attempt =>
              d.2 = _maybe_adjust_request kwargs (Z.of_nat d.1.1) /\
              d.1.2 ∈ api_keys st) ds.
Proof.
  induction todo as [|attempt todo IH]; intros last_error api_key st log Hwf.
  - exists []. simpl. destruct last_error; simpl; rewrite app_nil_r; by repeat split.
  - destruct (attempts_loop_step env kwargs attempt todo last_error api_key st log Hwf)
      as (key & st1 & s & Hpost & _ & Hs & Hloop).
    cbv zeta in Hloop. cbv zeta. rewrite Hloop. clear Hloop.
    destruct Hpost as (Hk & _ & _ & Hwf1 & Hin & _).
    set (request := _maybe_adjust_request kwargs (Z.of_nat attempt)).
    destruct (dispatch env attempt key request) as [response|e] eqn:Hd.
    + exists [(attempt, key, request)]. simpl.
      unfold event_block, dispatch_of. simpl. rewrite Hd. simpl.
      split; [done|]. split; [by apply prefix_cons, prefix_nil|].
      split; [done|]. by apply Forall_singleton.
    + match goal with
      | |- context [attempts_loop env kwargs todo ?l ?k ?s0 ?g] =>
          destruct (IH l k s0 g (failed_state_wf env attempt key s e _ Hwf1))
            as (ds & Hev & Hpre & _ & Hall)
      end.
      exists ((attempt, key, request) :: ds). split; [|split; [|split]].
      * rewrite Hev. simpl. unfold event_block at 2, dispatch_of. simpl.
        rewrite Hd. simpl. rewrite <- !app_assoc. simpl.
        by destruct (Nat.ltb attempt _).
      * simpl. by apply prefix_cons.
      * done.
      * apply Forall_cons. split; [done|]. simpl in Hall. by rewrite Hk in Hall.
Qed.

Lemma prefix_of_seq_map (l : list nat) n m :
  l `prefix_of` seq n m -> l = seq n (length l) /\ (length l <= m)%nat.
Proof.
  revert n l. induction m as [|m IH]; intros n l Hpre.
  - apply prefix_nil_inv in Hpre. by subst.
  - destruct l as [|x l]; [simpl; split; [done | lia]|].
    simpl in Hpre. apply prefix_cons_inv_1 in Hpre as Hx.
    apply prefix_cons_inv_2 in Hpre. subst x.
    destruct (IH _ _ Hpre) as [Hl Hlen]. simpl. split; [by rewrite <- Hl | lia].
Qed.

(** X8.  The log of a call on a reachable state is made of one block per
    dispatch attempt, in order: the dispatch, followed by a sleep of base
    delay [2 * 2^n] seconds when attempt [n] failed and [n < 2], so that no
    sleep follows a success or the last attempt.  There are between one and
    three attempts, numbered 0, 1, 2; attempt [n] sends the caller's request
    degraded for [n], with a key of the pool. *)
Theorem call_log_shape env kwargs st :
  reachable st ->
  let out := chat_completion env kwargs st in
  let ds := dispatches (events out) in
  events out = flat_map (event_block env) ds /\
  (1 <= length ds <= 3)%nat /\
  map (fun d : Attempt => d.1.1) ds = seq 0 (length ds) /\
  Forall (fun d : Attempt =>
            d.2 = _maybe_adjust_request kwargs (Z.of_nat d.1.1) /\
            d.1.2 ∈ api_keys st) ds.
Proof.
  intros Hreach out ds.
  destruct (attempts_loop_log env kwargs (seq 0 max_retries) None None st []
              (reachable_wf _ Hreach)) as (ds0 & Hev & Hpre & Hne & Hall).
  fold (chat_completion env kwargs st) in Hev. fold out in Hev. simpl in Hev.
  assert (Hds : ds = ds0).
  { subst ds. rewrite Hev. clear. induction ds0 as [|d ds0 IH]; [done|].
    simpl. destruct (_ && _)%bool; simpl; by rewrite IH; destruct d as [[? ?] ?]. }
  rewrite Hds. split; [exact Hev|].
  apply prefix_of_seq_map in Hpre as [Hseq Hlen]. rewrite length_map in Hseq, Hlen.
  split; [|split; [exact Hseq | exact Hall]].
  split; [|exact Hlen].
  destruct ds0; [by destruct Hne | simpl; lia].
Qed.

Lemma call_log_shape_witness :
  events (chat_completion failing_env plain_request demo_pool)
  = [ Dispatch 0 demo_key (_maybe_adjust_request plain_request 0); Sleep 0 2;
      Dispatch 1 demo_key (_maybe_adjust_request plain_request 1); Sleep 1 4;
      Dispatch 2 demo_key (_maybe_adjust_request plain_request 2) ].
Proof.
  destruct (call_log_shape failing_env plain_request demo_pool demo_pool_reachable)
    as (Hev & _).
  rewrite Hev. reflexivity.
Defined.

(** ** Selection rests on the key it grants; rotation follows success *)

Lemma select_at_pointer clock st key s :
  wf st ->
  api_keys st !! current_key_index st = Some key ->
  key_usage_stats st !! key = Some s ->
  key_cooldowns st !! key = None ->
  (negb (credits_exhausted s) && negb (rate_limited s))%bool = true ->
  _get_next_available_key clock st = (Ok key, st).
Proof.
  intros Hwf Hkey Hs Hcd Hflags.
  assert (Hscan : scan clock (length (api_keys st)) 0 st = (Ok (Some key), st)).
  { destruct (length (api_keys st)) as [|n] eqn:Hlen.
    - destruct Hwf as [Hi _]. lia.
    - rewrite scan_S, Hkey, Hs. cbn zeta. unfold Time in *.
      by rewrite Hcd, Hflags. }
  unfold _get_next_available_key, bind at 1, get. unfold bind. by rewrite Hscan.
Qed.



Lemma healthy_select clock st :
  wf st -> healthy st ->
  exists key,
    api_keys st !! current_key_index st = Some key /\
    _get_next_available_key clock st = (Ok key, st).
Proof.
  intros Hwf [Hcd Hflags]. pose proof Hwf as [Hidx Hstats].
  destruct (lookup_lt_is_Some_2 _ _ Hidx) as [key Hkey].
  assert (Hin : key ∈ api_keys st) by (by eapply list_elem_of_lookup_2).
  exists key. split; [exact Hkey|].
  specialize (Hflags key Hin). unfold flags_clear in Hflags.
  destruct (key_usage_stats st !! key) as [s|] eqn:Hs; [|discriminate].
  apply (select_at_pointer clock st key s); try done.
  by rewrite Hcd, lookup_empty.
Qed.

(** A call on a healthy pool whose first dispatch succeeds. *)
Lemma healthy_call env kwargs st :
  wf st -> healthy st ->
  (forall n key request, is_raise (dispatch env n key request) = false) ->
  let out := chat_completion env kwargs st in
  exists key,
    api_keys st !! current_key_index st = Some key /\
    dispatches (events out) = [(O, key, _maybe_adjust_request kwargs 0)] /\
    is_raise (result out) = false /\
    wf (final out) /\ healthy (final out) /\
    api_keys (final out) = api_keys st /\
    current_key_index (final out) = slot st 1.
Proof.
  intros Hwf Hhealthy Hok out. subst out.
  destruct (healthy_select (select_clock env 0) st Hwf Hhealthy) as (key & Hkey & Hsel).
  exists key. split; [exact Hkey|].
  unfold chat_completion. change (seq 0 max_retries) with [0; 1; 2]%nat.
  destruct (attempts_loop_step env kwargs O [1; 2]%nat None None st [] Hwf)
    as (key0 & st1 & s & _ & Hsel0 & Hs & Hloop).
  rewrite Hsel in Hsel0. injection Hsel0 as <- <-.
  cbv zeta in Hloop. rewrite Hloop. clear Hloop.
  specialize (Hok O key (_maybe_adjust_request kwargs (Z.of_nat 0))).
  destruct (dispatch env 0 key _) as [response|e]; [|discriminate].
  simpl. split; [done|]. split; [done|].
  assert (Hwf2 : wf (used_state (usage_clock env 0) key s st)) by (by apply wf_insert_stats).
  split; [eapply wf_rotate; [exact Hwf2 | by apply rotate_ok]|].
  split; [|done].
  destruct Hhealthy as [Hcd Hflags]. split; [exact Hcd|].
  intros k Hk. specialize (Hflags k Hk). unfold flags_clear in *. simpl.
  destruct (decide (key = k)) as [<-|Hne].
  - rewrite lookup_insert_eq. by rewrite Hs in Hflags.
  - by rewrite lookup_insert_ne.
Qed.

(** X10.  Round robin.  On a healthy pool and a transport that answers,
    successive calls each make a single dispatch, and the [j]-th call uses
    the key [j] positions after the pointer (cyclically): over as many
    calls as the pool has positions, every position serves exactly one
    call. *)
Theorem healthy_pool_round_robin env kwargs : forall n st j out,
  reachable st ->
  healthy st ->
  (forall a key request, is_raise (dispatch env a key request) = false) ->
  successive_calls env kwargs n st !! j = Some out ->
  exists key,
    api_keys st !! slot st j = Some key /\
    dispatches (events out) = [(O, key, _maybe_adjust_request kwargs 0)] /\
    is_raise (result out) = false.
Proof.
  intros n st j out Hreach. pose proof (reachable_wf _ Hreach) as Hwf. clear Hreach.
  revert st j out Hwf.
  induction n as [|n IH]; intros st j out Hwf Hhealthy Hok Hj; [done|].
  destruct (healthy_call env kwargs st Hwf Hhealthy Hok)
    as (key & Hkey & Hds & Hres & Hwf' & Hhealthy' & Hk & Hidx).
  destruct j as [|j]; simpl in Hj.
  - injection Hj as <-. exists key. by rewrite slot_0.
  - destruct (IH _ j out Hwf' Hhealthy' Hok Hj) as (key' & Hkey' & Hrest).
    exists key'. split; [|exact Hrest].
    rewrite Hk in Hkey'. rewrite <- Hkey'. f_equal.
    unfold slot. rewrite Hk, Hidx. unfold slot.
    rewrite Nat.Div0.add_mod_idemp_l. f_equal. lia.
Qed.

Lemma two_key_pool_reachable : reachable two_key_pool.
Proof. apply (reach_init two_key_getenv). vm_compute. reflexivity. Qed.

Lemma two_key_pool_healthy : healthy two_key_pool.
Proof.
  split; [reflexivity|]. intros k Hk.
  apply elem_of_cons in Hk as [->|Hk]; [reflexivity|].
  apply list_elem_of_singleton in Hk as ->. reflexivity.
Qed.

Lemma healthy_pool_round_robin_witness :
  exists out,
    successive_calls answering_env plain_request 2 two_key_pool !! 1%nat = Some out /\
    dispatches (events out) = [(O, other_key, _maybe_adjust_request plain_request 0)].
Proof.
  destruct (successive_calls answering_env plain_request 2 two_key_pool !! 1%nat)
    as [out|] eqn:E; [|discriminate E].
  exists out. split; [reflexivity|].
  destruct (healthy_pool_round_robin answering_env plain_request 2 two_key_pool 1 out
              two_key_pool_reachable two_key_pool_healthy (fun _ _ _ => eq_refl) E)
    as (key & Hkey & Hds & _).
  injection Hkey as <-. exact Hds.
Defined.

(** ** The key preview of the snapshot *)

Lemma string_length_append (s t : string) :
  String.length (s ++ t)%string = (String.length s + String.length t)%nat.
Proof.
  induction s as [|c s IH]; [done|].
  rewrite append_cons. simpl. by rewrite IH.
Qed.

Lemma substring_length_le n m (s : string) :
  (String.length (String.substring n m s) <= m)%nat.
Proof.
  revert n m. induction s as [|c s IH]; intros n m.
  - destruct n, m; simpl; lia.
  - destruct n as [|n]; simpl.
    + destruct m as [|m]; simpl; [lia|]. specialize (IH O m). lia.
    + apply IH.
Qed.

Lemma substring_whole m (s : string) :
  (String.length s <= m)%nat -> String.substring 0 m s = s.
Proof.
  revert m. induction s as [|c s IH]; intros m Hm.
  - by destruct m.
  - destruct m as [|m]; simpl in *; [lia|]. rewrite IH; [done | lia].
Qed.

Lemma substring_exact n m (s : string) :
  (n + m <= String.length s)%nat -> String.length (String.substring n m s) = m.
Proof.
  revert n m. induction s as [|c s IH]; intros n m Hm.
  - simpl in Hm. assert (n = O) by lia. assert (m = O) by lia. by subst.
  - destruct n as [|n]; simpl in *.
    + destruct m as [|m]; simpl; [done|]. rewrite (IH O m); [done | lia].
    + apply IH. lia.
Qed.

(** X11.  The masked preview of a key is at most 17 characters long and
    exactly 17 for a key of 14 characters or more; but it does not mask a
    short key: for a key of at most 10 characters the preview begins with
    the whole key. *)
Theorem key_preview_mask key :
  (String.length (key_preview key) <= 17)%nat /\
  ((14 <= String.length key)%nat -> String.length (key_preview key) = 17%nat) /\
  ((String.length key <= 10)%nat ->
   exists tail, key_preview key = (key ++ "..." ++ tail)%string).
Proof.
  unfold key_preview. split; [|split].
  - rewrite !string_length_append.
    pose proof (substring_length_le 0 10 key).
    pose proof (substring_length_le (String.length key - 4) 4 key).
    simpl. lia.
  - intros Hlen. rewrite !string_length_append, !substring_exact by lia.
    reflexivity.
  - intros Hlen. rewrite substring_whole by exact Hlen. eauto.
Qed.

Lemma key_preview_mask_witness :
  exists tail, key_preview "sk-12" = ("sk-12" ++ "..." ++ tail)%string.
Proof.
  apply (key_preview_mask "sk-12"). simpl. lia.
Defined.

(** ** Which model a retry asks for *)

(** X12.  From attempt 1 on the degraded request always names a model of
    the fallback chain, whatever the caller asked for.  A model outside the
    chain (or none) is passed through unchanged at attempt 0 and replaced
    by the first model of the chain from attempt 1 on. *)
Theorem retry_model_in_chain kwargs attempt :
  (1 <= attempt ->
   exists m, model (_maybe_adjust_request kwargs attempt) = Some m /\
             m ∈ model_fallback_chain) /\
  (chain_index (model kwargs) = None ->
   (attempt <= 0 -> model (_maybe_adjust_request kwargs attempt) = model kwargs) /\
   (1 <= attempt ->
    model (_maybe_adjust_request kwargs attempt) = Some "qwen/qwen-2.5-72b-instruct")).
Proof.
  assert (Hout : chain_index (model kwargs) = None ->
    model (_maybe_adjust_request kwargs attempt)
    = if 1 <=? attempt then Some "qwen/qwen-2.5-72b-instruct" else model kwargs).
  { intros Hnone. cbn [_maybe_adjust_request model]. unfold adjust_model.
    unfold chain_index in Hnone. rewrite Hnone. by destruct (1 <=? attempt). }
  split.
  - intros Ha. destruct (chain_index (model kwargs)) as [i|] eqn:Hi.
    + destruct (model kwargs) as [m|] eqn:Hm; [|discriminate]. simpl in Hi.
      destruct (adjust_model_in_chain _ m i attempt model_fallback_chain_NoDup Hi)
        as (m' & Hm' & Hidx).
      exists m'. cbn [_maybe_adjust_request model]. rewrite Hm. split; [exact Hm'|].
      apply index_of_lookup in Hidx. by eapply list_elem_of_lookup_2.
    + rewrite (Hout eq_refl). apply Z.leb_le in Ha. rewrite Ha.
      eexists. split; [reflexivity|]. apply list_elem_of_here.
  - intros Hnone. rewrite (Hout Hnone). split; intros Ha.
    + assert (E : (1 <=? attempt) = false) by (apply Z.leb_gt; lia). by rewrite E.
    + apply Z.leb_le in Ha. by rewrite Ha.
Qed.

Lemma retry_model_in_chain_witness :
  model (_maybe_adjust_request (mkRequest (Some "anthropic/claude-3.5-sonnet") None []) 0)
    = Some "anthropic/claude-3.5-sonnet" /\
  model (_maybe_adjust_request (mkRequest (Some "anthropic/claude-3.5-sonnet") None []) 1)
    = Some "qwen/qwen-2.5-72b-instruct".
Proof.
  destruct (retry_model_in_chain
              (mkRequest (Some "anthropic/claude-3.5-sonnet") None []) 0) as (_ & H0).
  destruct (retry_model_in_chain
              (mkRequest (Some "anthropic/claude-3.5-sonnet") None []) 1) as (_ & H1).
  split.
  - apply (H0 eq_refl). lia.
  - apply (H1 eq_refl). lia.
Defined.

(** ** The analyzer and the manager agree on credit errors *)

Lemma lower_fixed_digit d :
  (48 <= nat_of_ascii d <= 57)%nat -> lower_fixed d.
Proof.
  intros Hd c. split.
  - intros <-. revert Hd.
    destruct c as [[] [] [] [] [] [] [] []]; vm_compute; intros [H1 H2];
      first [reflexivity | exfalso; lia].
  - intros ->. revert Hd.
    destruct d as [[] [] [] [] [] [] [] []]; vm_compute; intros [H1 H2];
      first [reflexivity | exfalso; lia].
Qed.

Lemma prefix_lower (needle s : string) :
  Forall lower_fixed (list_ascii_of_string needle) ->
  String.prefix needle (lower s) = String.prefix needle s.
Proof.
  revert s. induction needle as [|d needle IH]; intros s Hfix.
  - by destruct s.
  - apply Forall_cons in Hfix as [Hd Hfix]. destruct s as [|c s]; [done|].
    cbn [lower String.prefix].
    destruct (Ascii.ascii_dec d (lower_ascii c)) as [E1|E1];
      destruct (Ascii.ascii_dec d c) as [E2|E2].
    + by apply IH.
    + exfalso. apply E2. symmetry. by apply Hd.
    + exfalso. apply E1. symmetry. by apply Hd.
    + done.
Qed.

Lemma str_in_lower (needle s : string) :
  Forall lower_fixed (list_ascii_of_string needle) ->
  str_in needle (lower s) = str_in needle s.
Proof.
  intros Hfix. induction s as [|c s IH].
  - cbn [lower str_in]. done.
  - pose proof (prefix_lower needle (String c s) Hfix) as Hp.
    cbn [lower] in Hp. cbn [lower str_in]. by rewrite Hp, IH.
Qed.

Lemma str_in_402_lower s : str_in "402" (lower s) = str_in "402" s.
Proof.
  apply str_in_lower. simpl.
  repeat (apply Forall_cons; split; [apply lower_fixed_digit; vm_compute; lia|]).
  apply Forall_nil_2.
Qed.

Lemma is_credit_error_classify e :
  is_credit_error e = true <-> classify (lower (str_exn e)) = InsufficientCredits.
Proof.
  unfold is_credit_error, classify. rewrite str_in_402_lower.
  set (a := str_in "402" (str_exn e)).
  set (b := str_in "credit" (lower (str_exn e))).
  set (c := str_in "payment required" (lower (str_exn e))).
  destruct a, b, c; simpl; split; try done;
    by destruct (_ || _)%bool.
Qed.

(** The state a call that raises leaves behind. *)
Lemma attempts_loop_raise_final env kwargs : forall todo last_error api_key st log e,
  wf st ->
  todo <> [] ->
  let out := attempts_loop env kwargs todo last_error api_key st log in
  result out = Raise e ->
  exists attempt key request s st1,
    last (dispatches (events out)) = Some (attempt, key, request) /\
    key_usage_stats st1 !! key = Some s /\
    final out = failed_state env attempt key s e st1.
Proof.
  induction todo as [|attempt todo IH]; intros last_error api_key st log e Hwf Hne;
    [done|].
  destruct (attempts_loop_step env kwargs attempt todo last_error api_key st log Hwf)
    as (key & st1 & s & Hpost & _ & Hs & Hloop).
  cbv zeta in Hloop. cbv zeta. rewrite Hloop. clear Hloop.
  destruct Hpost as (_ & Hstats & _ & Hwf1 & _).
  destruct (dispatch env attempt key _) as [response|e0]; [discriminate|].
  destruct todo as [|attempt' todo].
  - simpl. intros [= <-].
    exists attempt, key, (_maybe_adjust_request kwargs (Z.of_nat attempt)), s, st1.
    split; [|split; [by rewrite Hstats | done]].
    rewrite !dispatches_app. simpl.
    destruct (Nat.ltb attempt _); simpl; rewrite ?app_nil_r; apply last_snoc.
  - apply IH; [by apply failed_state_wf | done].
Qed.

(** X13.  The analyzer reports its credit message exactly for the errors
    that the manager handles as credit errors.  Hence, when a call on a
    reachable state raises an error that the analyzer reports as a credit
    error, the key of the last dispatch attempt is left flagged
    [credits_exhausted], with a cooldown of 30 minutes from the time the
    failure was recorded. *)
Theorem credit_report_matches_manager env kwargs st e :
  reachable st ->
  result (chat_completion env kwargs st) = Raise e ->
  (is_credit_error e = true <-> classify (lower (str_exn e)) = InsufficientCredits) /\
  (is_credit_error e = true ->
   exists attempt key request s',
     last (dispatches (events (chat_completion env kwargs st)))
       = Some (attempt, key, request) /\
     key_usage_stats (final (chat_completion env kwargs st)) !! key = Some s' /\
     credits_exhausted s' = true /\
     key_cooldowns (final (chat_completion env kwargs st)) !! key
       = Some (error_clock env attempt + timedelta_minutes 30)).
Proof.
  intros Hreach Hraise. split; [apply is_credit_error_classify|].
  intros Hcredit. apply is_credit_error_classify in Hcredit.
  destruct (attempts_loop_raise_final env kwargs (seq 0 max_retries) None None st [] e
              (reachable_wf _ Hreach)) as (attempt & key & request & s & st1 & Hlast & _ & Hfinal);
    [done | exact Hraise |].
  fold (chat_completion env kwargs st) in Hlast, Hfinal.
  exists attempt, key, request.
  rewrite Hfinal. unfold failed_state. rewrite Hcredit. simpl.
  rewrite !lookup_insert_eq. eauto.
Qed.

Lemma credit_report_matches_manager_witness :
  synthesis_error_reply (TransportError "Error code: 402 - Insufficient Credits")
    <> "Error code: 402 - Insufficient Credits" /\
  exists s',
    key_usage_stats (final (chat_completion broke_env plain_request demo_pool)) !! demo_key
      = Some s' /\
    credits_exhausted s' = true.
Proof.
  split; [discriminate|].
  destruct (credit_report_matches_manager broke_env plain_request demo_pool
              (TransportError "Error code: 402 - Insufficient Credits")
              demo_pool_reachable eq_refl) as (_ & H).
  destruct (H eq_refl) as (attempt & key & request & s' & Hlast & Hs' & Hflag & _).
  vm_compute in Hlast. injection Hlast as _ <- _.
  exists s'. split; [exact Hs' | exact Hflag].
Defined.


(** ** Failover to the next key *)

Lemma failed_state_select env attempt key0 key1 s e st1 clock :
  wf st1 ->
  key_usage_stats st1 !! key0 = Some s ->
  api_keys st1 !! current_key_index st1 = Some key0 ->
  api_keys st1 !! slot st1 1 = Some key1 ->
  key1 <> key0 ->
  flags_clear st1 key1 = true ->
  key_cooldowns st1 !! key1 = None ->
  (forall j, clock j < error_clock env attempt
                       + cooldown_for (classify (lower (str_exn e)))) ->
  exists st2,
    _get_next_available_key clock (failed_state env attempt key0 s e st1) = (Ok key1, st2).
Proof.
  intros Hwf Hs Hk0 Hk1 Hne Hflags Hcd Hclock.
  set (st' := failed_state env attempt key0 s e st1).
  assert (Hwf' : wf st') by (by apply failed_state_wf).
  destruct (select_spec clock st' Hwf') as (key & st2 & Hsel & Hpost).
  exists st2. rewrite Hsel. f_equal. f_equal.
  assert (Hslot : forall j, slot st' j = slot st1 j) by done.
  assert (H0 : candidate_usable (clock 0%nat) st' 0 = false).
  { unfold candidate_usable. rewrite Hslot, slot_0 by done.
    change (api_keys st') with (api_keys st1). rewrite Hk0.
    unfold is_usable, cooldown_live. simpl. rewrite lookup_insert_eq.
    specialize (Hclock O). apply Z.ltb_lt in Hclock. by rewrite Hclock. }
  assert (H1 : forall t, is_usable t st' key1 = true).
  { intros t. unfold is_usable, cooldown_live, flags_clear in *. simpl.
    rewrite !lookup_insert_ne by done. unfold Time in *. by rewrite Hcd, Hflags. }
  assert (Hlen : (1 < length (api_keys st1))%nat).
  { destruct (decide (length (api_keys st1) = 1%nat)) as [E|E].
    - exfalso. apply Hne. unfold slot in Hk1. rewrite E in Hk1.
      rewrite Nat.mod_1_r in Hk1. destruct Hwf as [Hi _]. rewrite E in Hi.
      assert (current_key_index st1 = O) as E0 by lia. rewrite E0 in Hk0. congruence.
    - destruct Hwf as [Hi _]. lia. }
  destruct Hpost as (_ & _ & _ & _ & _ & [(j & _ & Hl & Hu & Hbefore & _)|(Hnone & _)]).
  - destruct j as [|[|j]].
    + exfalso. rewrite Hslot, slot_0 in Hl by done.
      change (api_keys st') with (api_keys st1) in Hl. rewrite Hk0 in Hl.
      injection Hl as <-.
      unfold candidate_usable in H0. rewrite Hslot, slot_0 in H0 by done.
      change (api_keys st') with (api_keys st1) in H0. rewrite Hk0 in H0.
      congruence.
    + rewrite Hslot in Hl. change (api_keys st') with (api_keys st1) in Hl. congruence.
    + exfalso. specialize (Hbefore 1%nat ltac:(lia)).
      unfold candidate_usable in Hbefore. rewrite Hslot in Hbefore.
      change (api_keys st') with (api_keys st1) in Hbefore.
      rewrite Hk1, H1 in Hbefore. discriminate.
  - exfalso. specialize (Hnone 1%nat Hlen).
    unfold candidate_usable in Hnone. rewrite Hslot in Hnone.
    change (api_keys st') with (api_keys st1) in Hnone.
    rewrite Hk1, H1 in Hnone. discriminate.
Qed.

(** X22.  Failover.  On a healthy pool whose next position holds a
    different key, when the first dispatch fails and the second attempt
    starts before the cooldown just written has run out, the second attempt
    is dispatched with the key of the next position: the retry does not go
    back to the key that has just failed. *)
Theorem failover_to_next_key env kwargs st key0 key1 e :
  reachable st ->
  healthy st ->
  api_keys st !! current_key_index st = Some key0 ->
  api_keys st !! slot st 1 = Some key1 ->
  key1 <> key0 ->
  dispatch env 0 key0 (_maybe_adjust_request kwargs 0) = Raise e ->
  (forall j, select_clock env 1 j
             < error_clock env 0 + cooldown_for (classify (lower (str_exn e)))) ->
  exists rest,
    dispatches (events (chat_completion env kwargs st))
    = (O, key0, _maybe_adjust_request kwargs 0)
      :: (1%nat, key1, _maybe_adjust_request kwargs 1) :: rest.
Proof.
  intros Hreach Hhealthy Hk0 Hk1 Hne Hfail Hclock.
  pose proof (reachable_wf _ Hreach) as Hwf.
  destruct (healthy_select (select_clock env 0) st Hwf Hhealthy) as (key & Hkey & Hsel).
  rewrite Hk0 in Hkey. injection Hkey as <-.
  unfold chat_completion. change (seq 0 max_retries) with [0; 1; 2]%nat.
  destruct (attempts_loop_step env kwargs O [1; 2]%nat None None st [] Hwf)
    as (key & st1 & s & _ & Hsel0 & Hs & Hloop).
  rewrite Hsel in Hsel0. injection Hsel0 as <- <-.
  cbv zeta in Hloop. rewrite Hloop. clear Hloop.
  change (Z.of_nat 0) with 0. rewrite Hfail.
  set (st' := failed_state env 0 key0 s e st).
  assert (Hwf' : wf st') by (by apply failed_state_wf).
  destruct Hhealthy as [Hcd Hflags].
  destruct (failed_state_select env O key0 key1 s e st (select_clock env 1))
    as (st2 & Hsel1); try done.
  { apply Hflags. by eapply list_elem_of_lookup_2. }
  { by rewrite Hcd, lookup_empty. }
  fold st' in Hsel1.
  match goal with
  | |- context [attempts_loop env kwargs [1%nat; 2%nat] ?l ?k st' ?g] =>
      destruct (attempts_loop_step env kwargs 1 [2%nat] l k st' g Hwf')
        as (key & st3 & s1 & Hpost & Hsel2 & Hs1 & Hloop)
  end.
  rewrite Hsel1 in Hsel2. injection Hsel2 as <- <-.
  cbv zeta in Hloop. rewrite Hloop. clear Hloop.
  change (Z.of_nat 1) with 1.
  destruct (dispatch env 1 key1 _) as [response|e1].
  - exists []. reflexivity.
  - match goal with
    | |- context [attempts_loop env kwargs [2%nat] ?l ?k ?s0 ?g] =>
        destruct (attempts_loop_spec env kwargs [2%nat] l k s0 g) as (_ & _ & ds & Hds & _)
    end.
    + apply failed_state_wf. apply Hpost.
    + exists ds. rewrite Hds. reflexivity.
Qed.

Lemma failover_to_next_key_witness :
  exists rest,
    dispatches (events (chat_completion credit_env plain_request two_key_pool))
    = (O, demo_key, _maybe_adjust_request plain_request 0)
      :: (1%nat, other_key, _maybe_adjust_request plain_request 1) :: rest.
Proof.
  apply (failover_to_next_key credit_env plain_request two_key_pool demo_key other_key
           (TransportError "Error code: 402 - Payment Required")
           two_key_pool_reachable two_key_pool_healthy);
    try reflexivity.
  discriminate.
Defined.

(** ** The snapshot lists the pool *)

Lemma keys_status_from_lookup st : forall keys i0 l,
  keys_status_from st i0 keys = Ok l ->
  length l = length keys /\
  forall i key, keys !! i = Some key ->
    exists ks s,
      l !! i = Some ks /\
      key_usage_stats st !! key = Some s /\
      key_status st (i0 + i) key = Ok ks.
Proof.
  induction keys as [|key keys IH]; intros i0 l.
  - intros [= <-]. split; [done|]. intros i k Hk. done.
  - cbn [keys_status_from].
    destruct (key_status st i0 key) as [ks|e] eqn:Hks; [|discriminate].
    destruct (keys_status_from st (S i0) keys) as [l'|e] eqn:Hl; [|discriminate].
    intros [= <-]. destruct (IH _ _ Hl) as [Hlen Hall]. split; [simpl; by rewrite Hlen|].
    intros [|i] k Hk; simpl in Hk.
    + injection Hk as <-. rewrite Nat.add_0_r.
      unfold key_status in Hks.
      destruct (key_usage_stats st !! key) as [s|] eqn:Hs; [|discriminate].
      exists ks, s. split; [done|]. split; [done|].
      unfold key_status. by rewrite Hs.
    + destruct (Hall i k Hk) as (ks' & s & H1 & H2 & H3).
      exists ks', s. split; [done|]. split; [done|].
      by replace (i0 + S i)%nat with (S i0 + i)%nat by lia.
Qed.

(** X23.  On a reachable state the snapshot is always produced.  It
    reports the size of the pool and the pointer, and lists one entry per
    pool position, in pool order: the entry of position [i] carries the
    index [i], the preview of the key, its counters, flags and time of last
    use, whether the key has a cooldown entry and, exactly in that case,
    when it expires. *)
Theorem snapshot_lists_every_key st :
  reachable st ->
  exists status,
    get_api_status st = Ok status /\
    total_keys status = length (api_keys st) /\
    status_current_key_index status = current_key_index st /\
    length (keys_status status) = length (api_keys st) /\
    forall i key, api_keys st !! i = Some key ->
      exists ks s,
        keys_status status !! i = Some ks /\
        key_usage_stats st !! key = Some s /\
        ks_index ks = i /\
        ks_key_preview ks = key_preview key /\
        ks_requests ks = requests s /\ ks_errors ks = errors s /\
        ks_last_used ks = last_used s /\
        ks_credits_exhausted ks = credits_exhausted s /\
        ks_rate_limited ks = rate_limited s /\
        ks_cooldown_until ks = key_cooldowns st !! key /\
        (ks_in_cooldown ks = true <-> is_Some (ks_cooldown_until ks)) /\
        ks_available ks = reported_available st key.
Proof.
  intros Hreach. pose proof (reachable_wf _ Hreach) as Hwf.
  destruct (get_api_status_ok st Hwf) as (status & Hst & _).
  exists status. split; [exact Hst|].
  unfold get_api_status in Hst.
  destruct (keys_status_from st 0 (api_keys st)) as [l|e] eqn:Hl; [|discriminate].
  injection Hst as <-. cbn [total_keys status_current_key_index keys_status].
  destruct (keys_status_from_lookup st _ _ _ Hl) as [Hlen Hall].
  split; [done|]. split; [done|]. split; [exact Hlen|].
  intros i key Hkey. destruct (Hall i key Hkey) as (ks & s & Hks & Hs & Hbuild).
  exists ks, s. split; [exact Hks|]. split; [exact Hs|].
  unfold key_status in Hbuild. rewrite Hs in Hbuild. injection Hbuild as <-.
  cbn. split_and!; try done.
  - unfold in_cooldown. apply bool_decide_eq_true.
  - unfold reported_available, flags_clear. by rewrite Hs.
Qed.

Lemma snapshot_lists_every_key_witness :
  exists status ks,
    get_api_status cooled_pool = Ok status /\
    keys_status status !! O = Some ks /\
    ks_cooldown_until ks = Some (timedelta_seconds 30).
Proof.
  destruct (snapshot_lists_every_key cooled_pool cooled_pool_reachable)
    as (status & Hst & _ & _ & _ & Hall).
  destruct (Hall O demo_key eq_refl) as (ks & s & Hks & _ & _ & _ & _ & _ & _ & _ & _ & Hcd & _).
  exists status, ks. split; [exact Hst|]. split; [exact Hks|]. exact Hcd.
Defined.

(** * What the analyzer's calls ask the provider for *)

Lemma dispatch_in_call env kwargs st d :
  reachable st ->
  d ∈ dispatches (events (chat_completion env kwargs st)) ->
  d.2 = _maybe_adjust_request kwargs (Z.of_nat d.1.1) /\
  (d.1.1 = 0 \/ d.1.1 = 1 \/ d.1.1 = 2)%nat.
Proof.
  intros Hreach Hin.
  destruct (attempts_loop_log env kwargs (seq 0 max_retries) None None st []
              (reachable_wf _ Hreach)) as (ds0 & Hev & Hpre & _ & Hall).
  fold (chat_completion env kwargs st) in Hev. simpl in Hev.
  assert (Hds : dispatches (events (chat_completion env kwargs st)) = ds0).
  { rewrite Hev. clear. induction ds0 as [|d ds0 IH]; [done|].
    simpl. destruct (_ && _)%bool; simpl; by rewrite IH; destruct d as [[? ?] ?]. }
  rewrite Hds in Hin. rewrite Forall_forall in Hall.
  split; [by apply Hall|].
  assert (Hn : d.1.1 ∈ seq 0 max_retries).
  { destruct Hpre as [rest Hrest]. rewrite Hrest. apply elem_of_app. left.
    apply list_elem_of_fmap. by exists d. }
  apply elem_of_seq in Hn. unfold max_retries in Hn. lia.
Qed.

(** X19.  The model the analyzer records for its document and insight
    requests is never the one dispatched: on a reachable state every
    dispatch of a request naming [qwen_model], the first entry of the
    fallback chain, names the second entry.  A request naming
    [predictive_model], which is outside the chain, is dispatched with that
    model at the first attempt and with [qwen_model] at the retries.  With a
    budget of at least 2048 output tokens, as the analyzer's requests have,
    the attempts ask for the whole budget, then 2048, then 1024 tokens. *)
Theorem analyzer_requests_dispatched env kwargs st d :
  reachable st ->
  d ∈ dispatches (events (chat_completion env kwargs st)) ->
  (model kwargs = Some qwen_model ->
   model d.2 = Some "qwen/qwen-2.5-32b-instruct") /\
  (model kwargs = Some predictive_model ->
   model d.2 = Some (if Nat.eqb d.1.1 0 then predictive_model else qwen_model)) /\
  (forall v, max_tokens kwargs = Some v -> 2048 <= v ->
   max_tokens d.2 = Some (match d.1.1 with O => v | 1%nat => 2048 | _ => 1024 end)).
Proof.
  intros Hreach Hin.
  destruct (dispatch_in_call env kwargs st d Hreach Hin) as [-> Hn].
  cbn [_maybe_adjust_request model max_tokens].
  split; [|split].
  - intros ->. by destruct Hn as [->|[->| ->]].
  - intros ->. by destruct Hn as [->|[->| ->]].
  - intros v -> Hv. unfold adjust_max_tokens.
    assert (E : (v =? 0) = false) by (apply Z.eqb_neq; lia). rewrite E.
    destruct Hn as [->|[->| ->]]; simpl; f_equal; lia.
Qed.

Lemma analyzer_requests_dispatched_witness :
  (O, demo_key, _maybe_adjust_request plain_request 0)
    ∈ dispatches (events (chat_completion failing_env plain_request demo_pool)) /\
  model (_maybe_adjust_request plain_request 0) = Some "qwen/qwen-2.5-32b-instruct".
Proof.
  assert (Hd : (O, demo_key, _maybe_adjust_request plain_request 0)
                 ∈ dispatches (events (chat_completion failing_env plain_request demo_pool))).
  { vm_compute. constructor. }
  split; [exact Hd|].
  apply (analyzer_requests_dispatched failing_env plain_request demo_pool _
           demo_pool_reachable Hd).
  reflexivity.
Defined.
(** * Properties of the Exa client *)

Import ExaClient.

(** X14.  The client is available exactly when [EXA_API_KEY] holds a
    value that is neither empty nor the placeholder; a client that is not
    available sends no request and returns [None] from each of its methods
    and from [extract_content_with_exa]. *)
Theorem exa_unavailable_sends_nothing getenv :
  (available (ExaClient.__init__ getenv) = true <->
   exists k, getenv "EXA_API_KEY" = Some k /\ k <> "" /\ k <> "sua-chave-aqui") /\
  (available (ExaClient.__init__ getenv) = false ->
   forall http,
     (forall a, search (ExaClient.__init__ getenv) http a = (Returned None, [])) /\
     (forall ids t h s,
        get_contents (ExaClient.__init__ getenv) http ids t h s = (Returned None, [])) /\
     (forall u n x,
        find_similar (ExaClient.__init__ getenv) http u n x = (Returned None, [])) /\
     (forall page,
        extract_content_with_exa (ExaClient.__init__ getenv) http page = (JNull, []))).
Proof.
  split.
  - unfold ExaClient.__init__. simpl. destruct (getenv "EXA_API_KEY") as [k|].
    + rewrite andb_true_iff, !negb_true_iff, !String.eqb_neq. split.
      * intros [H1 H2]. by exists k.
      * intros (k' & [= <-] & H1 & H2). done.
    + split; [done | intros (k & [=] & _)].
  - intros Hoff http.
    unfold search, get_contents, find_similar, extract_content_with_exa, is_available.
    rewrite Hoff. simpl. done.
Qed.

Lemma exa_unavailable_sends_nothing_witness :
  extract_content_with_exa
    (ExaClient.__init__ (fun _ => Some "sua-chave-aqui")) (exa_answers exa_page)
    "https://example.org" = (JNull, []).
Proof.
  apply (exa_unavailable_sends_nothing (fun _ => Some "sua-chave-aqui")).
  reflexivity.
Defined.

Lemma request_posts self http endpoint payload seconds :
  snd (request self http endpoint payload seconds)
  = [mkPost (base_url self ++ endpoint)%string (headers self) payload seconds].
Proof.
  unfold request. destruct (http _) as [data|[]]; try done.
  destruct data; try done. by destruct (py_len _).
Qed.

Lemma fields_get_app key (l1 l2 : list (string * Json)) :
  fields_get key (l1 ++ l2)
  = match fields_get key l1 with Some v => Some v | None => fields_get key l2 end.
Proof.
  induction l1 as [|[k v] l1 IH]; [done|]. simpl.
  by destruct (String.eqb k key).
Qed.

Lemma fields_get_optional_list key name v :
  fields_get key (optional_list name v)
  = if (String.eqb name key && given_list v)%bool
    then option_map strings v else None.
Proof.
  destruct v as [[|x l]|]; simpl; rewrite ?andb_false_r; try done.
  destruct (String.eqb name key); done.
Qed.

Lemma fields_get_optional_str key name v :
  fields_get key (optional_str name v)
  = if (String.eqb name key && given_str v)%bool
    then option_map JStr v else None.
Proof.
  destruct v as [s|]; simpl; rewrite ?andb_false_r; try done.
  destruct (String.eqb s ""); simpl; rewrite ?andb_false_r; try done.
  destruct (String.eqb name key); done.
Qed.

Lemma fields_get_optional_list_other key name v :
  name <> key -> fields_get key (optional_list name v) = None.
Proof.
  intros Hne. rewrite fields_get_optional_list.
  apply String.eqb_neq in Hne. by rewrite Hne.
Qed.

Lemma fields_get_optional_str_other key name v :
  name <> key -> fields_get key (optional_str name v) = None.
Proof.
  intros Hne. rewrite fields_get_optional_str.
  apply String.eqb_neq in Hne. by rewrite Hne.
Qed.

Lemma fields_get_optional_list_same name v :
  fields_get name (optional_list name v)
  = if given_list v then option_map strings v else None.
Proof. by rewrite fields_get_optional_list, String.eqb_refl. Qed.

Lemma fields_get_optional_str_same name v :
  fields_get name (optional_str name v)
  = if given_str v then option_map JStr v else None.
Proof. by rewrite fields_get_optional_str, String.eqb_refl. Qed.

(** Looking a key up in the body of [search]: first the four fixed
    fields, then the optional ones in the order they are added. *)
Ltac payload_lookup :=
  unfold search_payload;
  rewrite !fields_get_app;
  rewrite ?fields_get_optional_list_same, ?fields_get_optional_str_same;
  rewrite ?fields_get_optional_list_other by discriminate;
  rewrite ?fields_get_optional_str_other by discriminate;
  cbn [fields_get];
  repeat match goal with
         | |- context [String.eqb ?x ?y] =>
             let b := eval vm_compute in (String.eqb x y) in
             change (String.eqb x y) with b
         end;
  cbn iota;
  repeat match goal with
         | |- context [if given_list ?v then _ else _] => destruct (given_list v)
         | |- context [if given_str ?v then _ else _] => destruct (given_str v)
         end;
  repeat match goal with
         | |- context [option_map _ ?v] => destruct v; cbn [option_map]
         end;
  reflexivity.

Lemma search_payload_include a :
  fields_get "includeDomains" (search_payload a)
  = if given_list (include_domains a)
    then option_map strings (include_domains a) else None.
Proof. payload_lookup. Qed.

Lemma search_payload_exclude a :
  fields_get "excludeDomains" (search_payload a)
  = if given_list (exclude_domains a)
    then option_map strings (exclude_domains a) else None.
Proof. payload_lookup. Qed.

Lemma search_payload_start_crawl a :
  fields_get "startCrawlDate" (search_payload a)
  = if given_str (start_crawl_date a)
    then option_map JStr (start_crawl_date a) else None.
Proof. payload_lookup. Qed.

Lemma search_payload_end_crawl a :
  fields_get "endCrawlDate" (search_payload a)
  = if given_str (end_crawl_date a)
    then option_map JStr (end_crawl_date a) else None.
Proof. payload_lookup. Qed.

Lemma search_payload_start_published a :
  fields_get "startPublishedDate" (search_payload a)
  = if given_str (start_published_date a)
    then option_map JStr (start_published_date a) else None.
Proof. payload_lookup. Qed.

Lemma search_payload_end_published a :
  fields_get "endPublishedDate" (search_payload a)
  = if given_str (end_published_date a)
    then option_map JStr (end_published_date a) else None.
Proof. payload_lookup. Qed.

(** X15.  An available client answers [search] with exactly one request:
    a POST to the search endpoint with a timeout of 30 seconds and the
    client's headers, whose body asks for [min(num_results, 100)] results
    (never more than 100) and carries each optional field exactly when its
    argument is given (a non-empty list or string), with that argument as
    its value. *)
Theorem search_request_body self http a :
  available self = true ->
  exists post,
    snd (search self http a) = [post] /\
    url post = (base_url self ++ "/search")%string /\
    sent_headers post = headers self /\
    timeout post = 30 /\
    fields_get "query" (json post) = Some (JStr (query a)) /\
    (exists n, fields_get "numResults" (json post) = Some (JInt n) /\
               n = Z.min (num_results a) 100 /\ n <= 100) /\
    fields_get "includeDomains" (json post)
      = (if given_list (include_domains a)
         then option_map strings (include_domains a) else None) /\
    fields_get "excludeDomains" (json post)
      = (if given_list (exclude_domains a)
         then option_map strings (exclude_domains a) else None) /\
    fields_get "startCrawlDate" (json post)
      = (if given_str (start_crawl_date a)
         then option_map JStr (start_crawl_date a) else None) /\
    fields_get "endCrawlDate" (json post)
      = (if given_str (end_crawl_date a)
         then option_map JStr (end_crawl_date a) else None) /\
    fields_get "startPublishedDate" (json post)
      = (if given_str (start_published_date a)
         then option_map JStr (start_published_date a) else None) /\
    fields_get "endPublishedDate" (json post)
      = (if given_str (end_published_date a)
         then option_map JStr (end_published_date a) else None).
Proof.
  intros Hon. unfold search. rewrite Hon. cbn [negb].
  eexists. split; [apply request_posts|]. cbn [url sent_headers timeout json].
  split; [reflexivity|]. split; [reflexivity|]. split; [reflexivity|].
  split; [reflexivity|].
  split; [eexists; split; [reflexivity | split; [reflexivity | lia]]|].
  split; [apply search_payload_include|].
  split; [apply search_payload_exclude|].
  split; [apply search_payload_start_crawl|].
  split; [apply search_payload_end_crawl|].
  split; [apply search_payload_start_published|].
  apply search_payload_end_published.
Qed.

Lemma search_request_body_witness :
  exists post,
    snd (search (ExaClient.__init__ exa_getenv) (exa_answers JNull)
           (default_args "rocq" 500)) = [post] /\
    fields_get "numResults" (json post) = Some (JInt 100).
Proof.
  destruct (search_request_body (ExaClient.__init__ exa_getenv) (exa_answers JNull)
              (default_args "rocq" 500) eq_refl)
    as (post & Hposts & _ & _ & _ & _ & (n & Hn & -> & _) & _).
  exists post. split; [exact Hposts | exact Hn].
Defined.

(** X16.  What [search] does with the outcome of its request, on an
    available client.  A [RequestException] is swallowed: the result is
    [None].  Any other exception, and any answer that is not an object
    whose ['results'] has a length, escapes as [NameError], because the
    handler chain refers to a [json] module that is never imported.  The
    method returns a document only when the answer is such an object, and
    returns it unchanged. *)
Theorem search_outcomes self http a :
  available self = true ->
  let post := mkPost (base_url self ++ "/search")%string (headers self)
                     (search_payload a) 30 in
  (http post = Raised true -> fst (search self http a) = Returned None) /\
  (http post = Raised false -> fst (search self http a) = NameError) /\
  (forall data, http post = Parsed data ->
     match data with
     | JObj fields =>
         match py_len (default (JList []) (fields_get "results" fields)) with
         | Some _ => fst (search self http a) = Returned (Some data)
         | None => fst (search self http a) = NameError
         end
     | _ => fst (search self http a) = NameError
     end) /\
  (forall data, fst (search self http a) = Returned (Some data) ->
     http post = Parsed data /\ exists fields, data = JObj fields).
Proof.
  intros Hon post. unfold search, request. rewrite Hon. cbn [negb]. fold post.
  split; [by intros ->|]. split; [by intros ->|]. split.
  - intros data ->. destruct data; try done. by destruct (py_len _).
  - intros data. destruct (http post) as [d|[]]; try done.
    destruct d; try done. destruct (py_len _); try done.
    simpl. intros [= <-]. eauto.
Qed.

Lemma search_outcomes_witness :
  fst (search (ExaClient.__init__ exa_getenv) (exa_answers (JList []))
         (default_args "rocq" 10)) = NameError /\
  fst (search (ExaClient.__init__ exa_getenv) (fun _ => Raised false)
         (default_args "rocq" 10)) = NameError.
Proof.
  destruct (search_outcomes (ExaClient.__init__ exa_getenv) (exa_answers (JList []))
              (default_args "rocq" 10) eq_refl) as (_ & _ & Hdata & _).
  destruct (search_outcomes (ExaClient.__init__ exa_getenv) (fun _ => Raised false)
              (default_args "rocq" 10) eq_refl) as (_ & Hother & _).
  split.
  - apply (Hdata (JList []) eq_refl).
  - apply Hother. reflexivity.
Defined.

(** X17.  [get_contents] with no id and [find_similar] with an empty URL
    return [None] without sending anything; otherwise an available client
    sends exactly one request, to the contents endpoint with a timeout of
    60 seconds and the ids given, or to the similarity endpoint with a
    timeout of 30 seconds and at most 100 results asked. *)
Theorem contents_and_similar_requests self http :
  available self = true ->
  (forall t h s, get_contents self http [] t h s = (Returned None, [])) /\
  (forall n x, find_similar self http "" n x = (Returned None, [])) /\
  (forall ids t h s, ids <> [] ->
     snd (get_contents self http ids t h s)
     = [mkPost (base_url self ++ "/contents")%string (headers self)
          [ ("ids", JList ids); ("text", JBool t);
            ("highlights", JBool h); ("summary", JBool s) ] 60]) /\
  (forall u n x, u <> "" ->
     exists m,
       m = Z.min n 100 /\ m <= 100 /\
       snd (find_similar self http u n x)
       = [mkPost (base_url self ++ "/findSimilar")%string (headers self)
            [ ("url", JStr u); ("numResults", JInt m);
              ("excludeSourceDomain", JBool x) ] 30]).
Proof.
  intros Hon. unfold get_contents, find_similar. rewrite Hon. cbn [negb].
  split; [done|]. split; [done|]. split.
  - intros ids t h s Hne. destruct ids as [|i ids]; [done|]. apply request_posts.
  - intros u n x Hne. apply String.eqb_neq in Hne. rewrite Hne.
    exists (Z.min n 100). split; [done|]. split; [lia|]. apply request_posts.
Qed.

Lemma contents_and_similar_requests_witness :
  get_contents (ExaClient.__init__ exa_getenv) (exa_answers JNull) [] true false false
  = (Returned None, []).
Proof.
  apply (contents_and_similar_requests (ExaClient.__init__ exa_getenv)
           (exa_answers JNull) eq_refl).
Defined.

Lemma request_spec self http endpoint payload seconds r posts :
  request self http endpoint payload seconds = (r, posts) ->
  let post := mkPost (base_url self ++ endpoint)%string (headers self) payload seconds in
  posts = [post] /\
  forall data, r = Returned (Some data) ->
    http post = Parsed data /\ exists fields, data = JObj fields.
Proof.
  intros H post. pose proof (request_posts self http endpoint payload seconds) as Hp.
  rewrite H in Hp. simpl in Hp. split; [exact Hp|].
  intros data ->. unfold request in H. fold post in H.
  destruct (http post) as [d|[]]; try discriminate.
  destruct d; try discriminate. destruct (py_len _); try discriminate.
  injection H as <- _. eauto.
Qed.

(** X18.  [extract_content_with_exa] sends at most two requests, and
    none unless the client is available.  It returns a text only after two
    answered requests: a search for ["url:" + page] asking for one result,
    whose first result holds a true ['id'], then a request for the contents
    of that single id with text only; the text returned is what the first
    result of the second answer holds under ['text'].  In every other case,
    an exception escaping the client included, it returns [None]. *)
Theorem extract_content_needs_two_answers self http page text posts :
  extract_content_with_exa self http page = (text, posts) ->
  (length posts <= 2)%nat /\
  (available self = false -> posts = []) /\
  (text <> JNull ->
   exists fields1 item id fields2 item2,
     let post1 := mkPost (base_url self ++ "/search")%string (headers self)
                    (search_payload (default_args ("url:" ++ page)%string 1)) 30 in
     let post2 := mkPost (base_url self ++ "/contents")%string (headers self)
                    [ ("ids", JList [id]); ("text", JBool true);
                      ("highlights", JBool false); ("summary", JBool false) ] 60 in
     available self = true /\
     posts = [post1; post2] /\
     http post1 = Parsed (JObj fields1) /\
     first_result fields1 = Some item /\
     item_get item "id" JNull = Some id /\ truthy id = true /\
     http post2 = Parsed (JObj fields2) /\
     first_result fields2 = Some item2 /\
     item_get item2 "text" (JStr "") = Some text).
Proof.
  unfold extract_content_with_exa, is_available.
  destruct (available self) eqn:Hon; cbn [negb];
    [|intros [= <- <-]; split; [simpl; lia | split; [done | by intros []]]].
  destruct (search self http _) as [r1 posts1] eqn:Hs.
  unfold search in Hs. rewrite Hon in Hs. cbn [negb] in Hs.
  apply request_spec in Hs as [-> Hr1]. cbv zeta in Hr1.
  assert (Hnull : forall ps : list Post, (length ps <= 2)%nat ->
    (JNull, ps) = (text, posts) ->
    (length posts <= 2)%nat /\ (true = false -> posts = []) /\
    (text <> JNull -> exists fields1 item id fields2 item2,
       let post1 := mkPost (base_url self ++ "/search")%string (headers self)
                      (search_payload (default_args ("url:" ++ page)%string 1)) 30 in
       let post2 := mkPost (base_url self ++ "/contents")%string (headers self)
                      [ ("ids", JList [id]); ("text", JBool true);
                        ("highlights", JBool false); ("summary", JBool false) ] 60 in
       true = true /\ posts = [post1; post2] /\
       http post1 = Parsed (JObj fields1) /\
       first_result fields1 = Some item /\
       item_get item "id" JNull = Some id /\ truthy id = true /\
       http post2 = Parsed (JObj fields2) /\
       first_result fields2 = Some item2 /\
       item_get item2 "text" (JStr "") = Some text)).
  { intros ps Hlen [= <- <-]. split; [exact Hlen|]. split; [done | by intros []]. }
  destruct r1 as [[data1|]|]; try (apply Hnull; simpl; lia).
  destruct (Hr1 data1 eq_refl) as (Hhttp1 & fields1 & ->).
  destruct (truthy (JObj fields1) && truthy (default JNull (fields_get "results" fields1)))%bool;
    [|apply Hnull; simpl; lia].
  destruct (first_result fields1) as [item|] eqn:Hitem; [|apply Hnull; simpl; lia].
  destruct (item_get item "id" JNull) as [id|] eqn:Hid; [|apply Hnull; simpl; lia].
  destruct (truthy id) eqn:Htrue; [|apply Hnull; simpl; lia].
  destruct (get_contents self http [id] true false false) as [r2 posts2] eqn:Hg.
  unfold get_contents in Hg. rewrite Hon in Hg. cbn [negb] in Hg.
  apply request_spec in Hg as [-> Hr2]. cbv zeta in Hr2.
  destruct r2 as [[data2|]|]; try (apply Hnull; simpl; lia).
  destruct (Hr2 data2 eq_refl) as (Hhttp2 & fields2 & ->).
  destruct (truthy (JObj fields2) && truthy (default JNull (fields_get "results" fields2)))%bool;
    [|apply Hnull; simpl; lia].
  destruct (first_result fields2) as [item2|] eqn:Hitem2; [|apply Hnull; simpl; lia].
  destruct (item_get item2 "text" (JStr "")) as [text'|] eqn:Htext;
    [|apply Hnull; simpl; lia].
  intros [= <- <-]. split; [simpl; lia|]. split; [done|]. intros _.
  exists fields1, item, id, fields2, item2. cbv zeta.
  repeat (split; [first [reflexivity | assumption]|]). assumption.
Qed.

Lemma extract_content_needs_two_answers_witness :
  extract_content_with_exa (ExaClient.__init__ exa_getenv) (exa_answers exa_page)
    "https://example.org" <> (JNull, []) /\
  length (snd (extract_content_with_exa (ExaClient.__init__ exa_getenv)
                 (exa_answers exa_page) "https://example.org")) = 2%nat.
Proof.
  destruct (extract_content_with_exa (ExaClient.__init__ exa_getenv)
              (exa_answers exa_page) "https://example.org") as [text posts] eqn:E.
  destruct (extract_content_needs_two_answers _ _ _ _ _ E) as (_ & _ & H).
  assert (Htext : text = JStr "hello") by (by vm_compute in E; injection E as <- _).
  destruct H as (f1 & i1 & id & f2 & i2 & _ & Hposts & _); [by rewrite Htext|].
  split; [by rewrite Htext | by rewrite Hposts].
Defined.

(** * Properties of the analysis pipeline *)

Import DocumentAIAnalyzer.

(** X20.  [analyze_documents] reports [success: False] exactly when the
    code after the three phases (summary, saving) raises, whatever happened
    in the phases.  Otherwise it reports success with the session id and a
    status that is ['completed'] or ['partial_error']; the status is
    ['completed'], with no error message, exactly when the three phases
    returned and neither the synthesis nor the insights hold an ['error']
    entry.  What the individual analyses contain, failed documents
    included, has no influence on the status. *)
Theorem pipeline_status p sid extracted_content :
  let report := fst (analyze_documents p sid extracted_content) in
  (forall msg, report = Failed msg ->
     exists results e, save_and_report p results = Raise e /\ msg = str_exn e) /\
  ((forall results, is_raise (save_and_report p results) = false) ->
   exists status error,
     report = Succeeded sid status error /\
     (status = "completed" \/ status = "partial_error") /\
     (status = "completed" <-> phases_clean p extracted_content) /\
     (status = "completed" -> error = JNull)).
Proof.
  unfold analyze_documents, phases_clean.
  destruct (_analyze_individual_documents p extracted_content) as [analyses|e1] eqn:E1;
    cbn [String.eqb Ascii.eqb Bool.eqb orb andb nonempty];
    [destruct (_synthesize_and_correlate p analyses) as [syn|e2] eqn:E2;
     [destruct (has_error syn) eqn:Hsyn;
      cbn [String.eqb Ascii.eqb Bool.eqb orb andb nonempty];
      rewrite ?Hsyn, ?andb_false_r; cbn [orb];
      [|destruct (_generate_insights p syn extracted_content) as [ins|e3] eqn:E3;
        [destruct (has_error ins) eqn:Hins|]]
     |cbn [String.eqb Ascii.eqb Bool.eqb orb andb nonempty]]
    |].
  all: split;
    [ intros msg; destruct (save_and_report _ _) as [[]|e] eqn:Hsave; [done|];
      intros [= <-]; eauto
    | intros Hsave;
      match goal with
      | |- context [save_and_report ?q ?r] =>
          specialize (Hsave r); destruct (save_and_report q r) as [[]|e]; [|done]
      end;
      eexists _, _; split; [reflexivity|] ].
  all: split; [first [by left | by right]|].
  all: split; [|done].
  all: split;
    [ first [ done | intros _; do 3 eexists; repeat split; eassumption ]
    | first [ done | intros (a & s & i & H1 & H2 & H3 & H4 & H5); congruence ] ].
Qed.

Lemma pipeline_status_witness :
  fst (analyze_documents failing_phases "s-1" [])
  = Succeeded "s-1" "partial_error" (JStr "Erro 402").
Proof.
  destruct (pipeline_status failing_phases "s-1" []) as (_ & H).
  destruct (H (fun _ => eq_refl)) as (status & error & Hreport & _).
  rewrite Hreport. vm_compute in Hreport. by injection Hreport as <- <-.
Defined.

(** X21.  Which phases a call starts.  The individual phase always runs
    first and the results are always handed to saving, once, last.  The
    synthesis is requested whenever the individual phase returned, even
    for an empty batch, and never after it raised.  The insights are
    requested only when the synthesis returned a dictionary without
    ['error']. *)
Theorem pipeline_calls p sid extracted_content :
  let calls := snd (analyze_documents p sid extracted_content) in
  exists results,
    session_id results = sid /\
    document_count results = length extracted_content /\
    match _analyze_individual_documents p extracted_content with
    | Raise _ => calls = [Individual extracted_content; Save results]
    | Ok analyses =>
        match _synthesize_and_correlate p analyses with
        | Raise _ =>
            calls = [Individual extracted_content; Synthesis analyses; Save results]
        | Ok syn =>
            if has_error syn
            then calls = [Individual extracted_content; Synthesis analyses; Save results]
            else calls = [Individual extracted_content; Synthesis analyses;
                          Insights syn extracted_content; Save results]
        end
    end.
Proof.
  unfold analyze_documents.
  destruct (_analyze_individual_documents p extracted_content) as [analyses|e1];
    cbn [String.eqb Ascii.eqb Bool.eqb orb andb nonempty];
    [destruct (_synthesize_and_correlate p analyses) as [syn|e2];
     [destruct (has_error syn) eqn:Hsyn;
      cbn [String.eqb Ascii.eqb Bool.eqb orb andb nonempty];
      rewrite ?Hsyn, ?andb_false_r; cbn [orb];
      [|destruct (_generate_insights p syn extracted_content) as [ins|e3];
        [destruct (has_error ins)|]]
     |cbn [String.eqb Ascii.eqb Bool.eqb orb andb nonempty]]
    |].
  all: destruct (save_and_report _ _) as [[]|e];
    eexists;
    match goal with
    | |- _ /\ _ /\ ?G => assert (H : G) by reflexivity
    end;
    (split; [reflexivity|]); (split; [reflexivity|]); exact H.
Qed.
